(** * Bounded containers of the [dsa] repository: array, stacks, linked lists

    A shallow embedding of the Go packages [array], [stack] and
    [linkedlist], and the properties of their operations.

    Conventions of the embedding
    - Go's [int] is a 64-bit two's-complement integer: it is a [Z] and the
      [+], [-], [++], [--] of the source on variables go through [int_add]
      / [int_sub], which wrap around.  The counter of a counting loop stays
      between the bounds of the loop and is stepped without wrapping.
    - A Go [error] is [option string]: [None] is [nil], [Some msg] is
      [errors.New(msg)].
    - A run-time panic (index out of range, nil dereference) is the
      [Panic] outcome; a loop whose bound is not known in advance is run
      with fuel and gives [OutOfFuel] when the fuel is exhausted.
    - A method with a pointer receiver takes the receiver and returns the
      updated receiver next to its Go results.
    - Nodes reached through pointers live in an explicit heap (an arena of
      nodes); a pointer is [option loc], [None] being [nil]. *)

From Stdlib Require Import ZArith Lia.
From stdpp Require Import base list strings.

Local Open Scope Z_scope.

(** ** Go's [int] *)

Definition int_min : Z := - 2 ^ 63.
Definition int_max : Z := 2 ^ 63 - 1.

Definition wrap (z : Z) : Z := (z + 2 ^ 63) mod 2 ^ 64 - 2 ^ 63.

Definition int_add (a b : Z) : Z := wrap (a + b).
Definition int_sub (a b : Z) : Z := wrap (a - b).

Definition is_int (z : Z) : Prop := int_min <= z <= int_max.

(** ** Errors, panics and outcomes *)

Definition error : Type := option string.

Inductive panic : Type :=
| IndexOutOfRange
| NilDereference.

Inductive outcome (A : Type) : Type :=
| Ret (a : A)
| Panic (p : panic)
| OutOfFuel.

Arguments Ret {A} a.
Arguments Panic {A} p.
Arguments OutOfFuel {A}.

Definition outcome_bind {A B : Type} (m : outcome A) (k : A → outcome B)
  : outcome B :=
  match m with
  | Ret a => k a
  | Panic p => Panic p
  | OutOfFuel => OutOfFuel
  end.

Notation "'do' x <- m ; k" := (outcome_bind m (fun x => k))
  (at level 10, x pattern, m at level 100, k at level 200,
   format "'[v' 'do'  x  <-  m ; '/' k ']'").

(** ** Fixed-size arrays

    A Go array [[n]T] is a list of [n] slots; an index expression panics
    outside [0, n). *)

Definition array_index {T : Type} (n : Z) (buf : list T) (i : Z) : outcome T :=
  if (0 <=? i) && (i <? n) then
    match buf !! Z.to_nat i with
    | Some x => Ret x
    | None => Panic IndexOutOfRange
    end
  else Panic IndexOutOfRange.

Definition array_store {T : Type} (n : Z) (buf : list T) (i : Z) (x : T)
  : outcome (list T) :=
  if (0 <=? i) && (i <? n) then Ret (<[Z.to_nat i := x]> buf)
  else Panic IndexOutOfRange.

(** The element types of the containers: Go's constraint
    [int | float32 | float64].  Only the zero value and [==] are used. *)

Class Numeric (T : Type) : Type := {
  zero : T;
  num_eqb : T → T → bool
}.

#[export] Instance Numeric_int : Numeric Z := {| zero := 0; num_eqb := Z.eqb |}.

(** ** Loops with a counter

    [for i := lo; i < hi; i++ { body }] with a bound that the body does not
    change.  The body returns the new state and whether it executed
    [break].  As [i < hi <= int_max] inside the body, [i++] never wraps. *)

Fixpoint for_up_from {St : Type} (n : nat) (i : Z)
    (body : Z → St → outcome (St * bool)) (s : St) : outcome St :=
  match n with
  | O => Ret s
  | S n' =>
      do (s', brk) <- body i s;
      if brk then Ret s' else for_up_from n' (i + 1) body s'
  end.

Definition for_up {St : Type} (lo hi : Z)
    (body : Z → St → outcome (St * bool)) (s : St) : outcome St :=
  for_up_from (Z.to_nat (hi - lo)) lo body s.

(** [for i := hi; i >= lo; i-- { body }], without [break]; used with
    [lo >= 0], so [i--] never wraps. *)

Fixpoint for_down_from {St : Type} (n : nat) (i : Z)
    (body : Z → St → outcome St) (s : St) : outcome St :=
  match n with
  | O => Ret s
  | S n' => do s' <- body i s; for_down_from n' (i - 1) body s'
  end.

Definition for_down {St : Type} (hi lo : Z)
    (body : Z → St → outcome St) (s : St) : outcome St :=
  for_down_from (Z.to_nat (hi - lo + 1)) hi body s.

(** * Package [array] *)

Module Array.
Section Defs.
Context {T : Type} `{Numeric T}.

Definition ArrayMaxSize : Z := 100.

Record array : Type := { arr : list T; size : Z }.

Definition index := @array_index T ArrayMaxSize.
Definition store := @array_store T ArrayMaxSize.

Definition New : array :=
  {| arr := replicate (Z.to_nat ArrayMaxSize) zero; size := 0 |}.

Definition Size (a : array) : Z := size a.

Definition PushElement (a : array) (element : T) : outcome (array * error) :=
  if size a =? ArrayMaxSize then Ret (a, Some "Array is full"%string)
  else
    do buf <- store (arr a) (size a) element;
    Ret ({| arr := buf; size := int_add (size a) 1 |}, None).

Definition PopElement (a : array) : outcome (array * (T * error)) :=
  if size a =? 0 then Ret (a, (zero, Some "Array is empty"%string))
  else
    let a' := {| arr := arr a; size := int_sub (size a) 1 |} in
    do x <- index (arr a') (size a');
    Ret (a', (x, None)).

Definition InsertElement (a : array) (element : T) (idx : Z)
  : outcome (array * error) :=
  if (idx <? 0) || (idx >? size a) then
    Ret (a, Some "Index out of bounds"%string)
  else if size a =? ArrayMaxSize then Ret (a, Some "Array is full"%string)
  else
    do buf <- for_down (int_sub (size a) 1) idx
                (fun i buf => do x <- index buf i; store buf (int_add i 1) x)
                (arr a);
    do buf <- store buf idx element;
    Ret ({| arr := buf; size := int_add (size a) 1 |}, None).

Definition RemoveAtIndex (a : array) (idx : Z) : outcome (array * error) :=
  if (idx <? 0) || (idx >=? size a) then
    Ret (a, Some "Index out of bounds"%string)
  else if size a =? 0 then Ret (a, Some "Array is empty"%string)
  else
    do buf <- for_up idx (int_sub (size a) 1)
                (fun i buf =>
                   do x <- index buf (int_add i 1);
                   do buf' <- store buf i x;
                   Ret (buf', false))
                (arr a);
    Ret ({| arr := buf; size := int_sub (size a) 1 |}, None).

Definition Get (a : array) (idx : Z) : outcome (array * (T * error)) :=
  if (idx <? 0) || (idx >=? size a) then
    Ret (a, (zero, Some "Index out of bounds"%string))
  else
    do x <- index (arr a) idx;
    Ret (a, (x, None)).

Definition Set_ (a : array) (idx : Z) (val : T) : outcome (array * error) :=
  if (idx <? 0) || (idx >=? size a) then
    Ret (a, Some "Index out of bounds"%string)
  else
    do buf <- store (arr a) idx val;
    Ret ({| arr := buf; size := size a |}, None).

(** [IndexOf]: the loop returns from inside its body; the state of the
    loop is the index found so far. *)
Definition IndexOf (a : array) (element : T) : outcome (Z * error) :=
  do found <- for_up 0 (size a)
                (fun i (r : option Z) =>
                   do x <- index (arr a) i;
                   if num_eqb x element then Ret (Some i, true)
                   else Ret (r, false))
                None;
  match found with
  | Some i => Ret (i, None)
  | None => Ret (-1, Some "Element not found"%string)
  end.

(** The output sink: the sequence of calls made to [fmt]. *)
Inductive fmt_arg : Type := AVal (x : T) | AStr (s : string).
Inductive fmt_call : Type :=
| FmtPrint (args : list fmt_arg)
| FmtPrintln (args : list fmt_arg).

Definition PrintAll (a : array) (out : list fmt_call)
  : outcome (list fmt_call) :=
  let out := out ++ [FmtPrint [AStr "[ "]] in
  do out <- for_up 0 (int_sub (size a) 1)
              (fun i out =>
                 do x <- index (arr a) i;
                 Ret (out ++ [FmtPrint [AVal x; AStr ", "]], false))
              out;
  do x <- index (arr a) (int_sub (size a) 1);
  Ret (out ++ [FmtPrintln [AVal x; AStr "]"]]).

Definition Merge (a otherArr : array) : outcome (array * error) :=
  let res := New in
  do res <- for_up 0 (size a)
              (fun i res =>
                 do x <- index (arr a) i;
                 do buf <- store (arr res) i x;
                 Ret ({| arr := buf; size := int_add (size res) 1 |}, false))
              res;
  do res <- for_up 0 (size otherArr)
              (fun i res =>
                 do x <- index (arr otherArr) i;
                 do buf <- store (arr res) (int_add (size a) i) x;
                 let res := {| arr := buf; size := int_add (size res) 1 |} in
                 Ret (res, size res =? ArrayMaxSize))
              res;
  if int_add (size a) (size otherArr) >? ArrayMaxSize then
    Ret (res, Some "Cannot fit both arrays completely"%string)
  else Ret (res, None).

(** The data-model invariant of the spec: [size <= C], over a buffer of
    exactly [C] slots. *)
Definition wf (a : array) : Prop :=
  length (arr a) = Z.to_nat ArrayMaxSize ∧ 0 <= size a <= ArrayMaxSize.

(** The live elements [arr[0 .. size)]. *)
Definition live (a : array) : list T := take (Z.to_nat (size a)) (arr a).

(** [push_all a xs]: [PushElement] of each element of [xs] in turn,
    errors ignored as in [main]. *)
Fixpoint push_all (a : array) (xs : list T) : outcome array :=
  match xs with
  | [] => Ret a
  | x :: xs' => do (a', _) <- PushElement a x; push_all a' xs'
  end.

(** *** Sequences of operations on one array *)

Inductive op : Type :=
| OpPush (x : T)
| OpPop
| OpInsert (x : T) (i : Z)
| OpRemove (i : Z)
| OpGet (i : Z)
| OpSet (i : Z) (x : T)
| OpIndexOf (x : T).

Definition step (o : op) (a : array) : outcome array :=
  match o with
  | OpPush x => do (a', _) <- PushElement a x; Ret a'
  | OpPop => do (a', _) <- PopElement a; Ret a'
  | OpInsert x i => do (a', _) <- InsertElement a x i; Ret a'
  | OpRemove i => do (a', _) <- RemoveAtIndex a i; Ret a'
  | OpGet i => do (a', _) <- Get a i; Ret a'
  | OpSet i x => do (a', _) <- Set_ a i x; Ret a'
  | OpIndexOf x => do _ <- IndexOf a x; Ret a
  end.

Fixpoint run (ops : list op) (a : array) : outcome array :=
  match ops with
  | [] => Ret a
  | o :: ops' => do a' <- step o a; run ops' a'
  end.
End Defs.
Arguments array T : clear implicits.
Arguments op T : clear implicits.

(** Arrays of [int] used as sample inputs: three elements, a full array
    and a single element. *)
Definition sample : array Z :=
  {| arr := [10; 20; 30] ++ replicate 97%nat 0; size := 3 |}.

Definition full : array Z :=
  {| arr := Z.of_nat <$> seq 0 100; size := 100 |}.

Definition single : array Z :=
  {| arr := 7 :: replicate 99%nat 0; size := 1 |}.
End Array.

(** * The heap of nodes

    A pointer to a node is a location in an arena of nodes, or [nil].
    [alloc] takes the next free location; nothing is ever freed (the
    garbage collector is not modelled).  A heap computation threads the
    arena and may panic or run out of fuel.  Go has no dangling pointers:
    a location outside the arena does not occur, and the model panics
    there. *)

Abbreviation loc := nat (only parsing).
Abbreviation ptr := (option nat) (only parsing).

Definition M (N A : Type) : Type := list N → outcome (A * list N).

Definition ret {N A : Type} (a : A) : M N A := fun h => Ret (a, h).

Definition bind {N A B : Type} (m : M N A) (k : A → M N B) : M N B :=
  fun h =>
    match m h with
    | Ret (a, h') => k a h'
    | Panic p => Panic p
    | OutOfFuel => OutOfFuel
    end.

Notation "'let*' x := m 'in' k" := (bind m (fun x => k))
  (at level 10, x pattern, m at level 100, k at level 200,
   format "'[v' 'let*'  x  :=  m  'in' '/' k ']'").

Definition out_of_fuel {N A : Type} : M N A := fun _ => OutOfFuel.

(** [&N{...}] and [new(N)]. *)
Definition alloc {N : Type} (n : N) : M N ptr :=
  fun h => Ret (Some (List.length h), h ++ [n]).

(** [*p], panics on [nil]. *)
Definition load {N : Type} (p : ptr) : M N N :=
  fun h =>
    match p with
    | None => Panic NilDereference
    | Some l =>
        match h !! l with
        | Some n => Ret (n, h)
        | None => Panic NilDereference
        end
    end.

(** [p.f = v], as an update of the node at [p]; panics on [nil]. *)
Definition modify {N : Type} (p : ptr) (f : N → N) : M N unit :=
  fun h =>
    match p with
    | None => Panic NilDereference
    | Some l =>
        match h !! l with
        | Some n => Ret (tt, <[l := f n]> h)
        | None => Panic NilDereference
        end
    end.

(** * Package [stack] *)

(** The calls of the [stack] interface that change a stack, and what they
    return. *)
Inductive stack_op (T : Type) : Type :=
| StackPush (v : T)
| StackPop.

Inductive stack_res (T : Type) : Type :=
| PushRes (e : error)
| PopRes (v : T) (e : error).

Arguments StackPush {T} v.
Arguments StackPop {T}.
Arguments PushRes {T} e.
Arguments PopRes {T} v e.

Module StackArray.
Section Defs.
Context {T : Type} `{Numeric T}.

Definition StackMaxSize : Z := 100.

Record stackArray : Type := { arr : list T; top : Z }.

Definition Push (stack : stackArray) (element : T)
  : outcome (stackArray * error) :=
  if top stack =? StackMaxSize - 1 then
    Ret (stack, Some "Stack Overflow!!!"%string)
  else
    do buf <- array_store StackMaxSize (arr stack) (int_add (top stack) 1) element;
    Ret ({| arr := buf; top := int_add (top stack) 1 |}, None).

Definition Pop (stack : stackArray) : outcome (stackArray * (T * error)) :=
  if top stack =? -1 then
    Ret (stack, (zero, Some "Stack Underflow!!!"%string))
  else
    let stack := {| arr := arr stack; top := int_sub (top stack) 1 |} in
    do x <- array_index StackMaxSize (arr stack) (int_add (top stack) 1);
    Ret (stack, (x, None)).

(** [Print] writes the elements from the top down; the sink is the list
    of values written between the brackets. *)
Definition Print (stack : stackArray) (out : list T) : outcome (list T) :=
  for_down (top stack) 0
    (fun i out => do x <- array_index StackMaxSize (arr stack) i; Ret (out ++ [x]))
    out.

Definition NewArray : stackArray :=
  {| arr := replicate (Z.to_nat StackMaxSize) zero; top := -1 |}.

Definition Top (stack : stackArray) : Z := top stack.

Definition IsEmpty (s : stackArray) : bool := top s =? -1.

(** Pushing a sequence of values, stopping at the first failure: the
    result is the stack after the pushes and the errors they returned. *)
Fixpoint push_all (s : stackArray) (vs : list T)
  : outcome (stackArray * list error) :=
  match vs with
  | [] => Ret (s, [])
  | v :: vs' =>
      do (s', e) <- Push s v;
      do (s'', es) <- push_all s' vs';
      Ret (s'', e :: es)
  end.

(** Popping [n] times: the values and the errors returned, in order. *)
Fixpoint pop_n (n : nat) (s : stackArray)
  : outcome (stackArray * list (T * error)) :=
  match n with
  | O => Ret (s, [])
  | S n' =>
      do (s', r) <- Pop s;
      do (s'', rs) <- pop_n n' s';
      Ret (s'', r :: rs)
  end.

(** A sequence of calls and what each returned. *)
Definition step (o : stack_op T) (s : stackArray)
  : outcome (stackArray * stack_res T) :=
  match o with
  | StackPush v => do (s', e) <- Push s v; Ret (s', PushRes e)
  | StackPop => do (s', r) <- Pop s; Ret (s', PopRes r.1 r.2)
  end.

Fixpoint run (ops : list (stack_op T)) (s : stackArray)
  : outcome (stackArray * list (stack_res T)) :=
  match ops with
  | [] => Ret (s, [])
  | o :: ops' =>
      do (s', r) <- step o s;
      do (s'', rs) <- run ops' s';
      Ret (s'', r :: rs)
  end.

(** The stack holds the values [xs], bottom first: they fill the slots
    [0 .. top]. *)
Definition holds (s : stackArray) (xs : list T) : Prop :=
  top s = Z.of_nat (List.length xs) - 1 ∧
  List.length (arr s) = Z.to_nat StackMaxSize ∧
  take (List.length xs) (arr s) = xs.
End Defs.
Arguments stackArray T : clear implicits.

(** A sample stack of [int] holding 1 and 2. *)
Definition sample_stack : stackArray Z :=
  {| arr := [1; 2] ++ replicate 98%nat 0; top := 1 |}.
End StackArray.

Module StackList.
Section Defs.
Context {T : Type} `{Numeric T}.

Definition StackMaxSize : Z := 100.

Record node : Type := { Next : ptr; Val : T }.

Record stackList : Type := { topNode : ptr; top : Z; capacity : Z }.

Definition Push (stack : stackList) (element : T)
  : M node (stackList * error) :=
  if top stack =? int_sub (capacity stack) 1 then
    ret (stack, Some "Stack Overflow!!!"%string)
  else
    let* newTop := alloc {| Next := None; Val := zero |} in
    let* _ := modify newTop (fun n => {| Next := Next n; Val := element |}) in
    let* _ := modify newTop
                (fun n => {| Next := topNode stack; Val := Val n |}) in
    let stack := {| topNode := newTop; top := top stack;
                    capacity := capacity stack |} in
    let stack := {| topNode := topNode stack; top := int_add (top stack) 1;
                    capacity := capacity stack |} in
    ret (stack, None).

Definition Pop (stack : stackList) : M node (stackList * (T * error)) :=
  if top stack =? -1 then
    ret (stack, (zero, Some "Stack Underflow!!!"%string))
  else
    let store := topNode stack in
    let* n := load (topNode stack) in
    let stack := {| topNode := Next n; top := top stack;
                    capacity := capacity stack |} in
    let stack := {| topNode := topNode stack; top := int_sub (top stack) 1;
                    capacity := capacity stack |} in
    let* s := load store in
    ret (stack, (Val s, None)).

(** [NewList(capacity ...int)]: the variadic argument is a list. *)
Definition NewList (capacity : list Z) : stackList :=
  match capacity with
  | [] => {| topNode := None; top := -1; capacity := StackMaxSize |}
  | c :: _ => {| topNode := None; top := -1; capacity := c |}
  end.

Definition IsEmpty (s : stackList) : bool := top s =? -1.

Fixpoint push_all (s : stackList) (vs : list T)
  : M node (stackList * list error) :=
  match vs with
  | [] => ret (s, [])
  | v :: vs' =>
      let* (s', e) := Push s v in
      let* (s'', es) := push_all s' vs' in
      ret (s'', e :: es)
  end.

Fixpoint pop_n (n : nat) (s : stackList)
  : M node (stackList * list (T * error)) :=
  match n with
  | O => ret (s, [])
  | S n' =>
      let* (s', r) := Pop s in
      let* (s'', rs) := pop_n n' s' in
      ret (s'', r :: rs)
  end.

(** A sequence of calls and what each returned. *)
Definition step (o : stack_op T) (s : stackList)
  : M node (stackList * stack_res T) :=
  match o with
  | StackPush v => let* (s', e) := Push s v in ret (s', PushRes e)
  | StackPop => let* (s', r) := Pop s in ret (s', PopRes r.1 r.2)
  end.

Fixpoint run (ops : list (stack_op T)) (s : stackList)
  : M node (stackList * list (stack_res T)) :=
  match ops with
  | [] => ret (s, [])
  | o :: ops' =>
      let* (s', r) := step o s in
      let* (s'', rs) := run ops' s' in
      ret (s'', r :: rs)
  end.

(** Following [Next] from [p] visits nodes holding the values [vs] and
    ends at [nil]. *)
Fixpoint chain (h : list node) (p : ptr) (vs : list T) : Prop :=
  match vs with
  | [] => p = None
  | v :: rest =>
      ∃ a nx, p = Some a ∧ h !! a = Some {| Next := nx; Val := v |} ∧
              chain h nx rest
  end.

(** The stack holds the values [xs], bottom first: the chain from
    [topNode] holds them top first, and [top] is the index of the last. *)
Definition holds (h : list node) (s : stackList) (xs : list T) : Prop :=
  chain h (topNode s) (reverse xs) ∧ top s = Z.of_nat (List.length xs) - 1.
End Defs.
Arguments node T : clear implicits.
End StackList.

(** * Package [linkedlist] *)

Module SLL.
Section Defs.
Context {T : Type} `{Numeric T}.

Record unidirectionalNode : Type := { Next : ptr; Val : T }.

Record SinglyLinkedList : Type := { head : ptr; length : Z }.

Definition NewSLL : SinglyLinkedList := {| head := None; length := 0 |}.

Definition set_Next (nx : ptr) (n : unidirectionalNode) : unidirectionalNode :=
  {| Next := nx; Val := Val n |}.

(** [Traverse]: the visitor [operation] acts on a state of its own.
    [for current != nil { operation(current.Val); current = current.Next }] *)
Fixpoint traverse_loop {A : Type} (fuel : nat) (operation : T → A → A)
    (current : ptr) (acc : A) : M unidirectionalNode A :=
  match fuel with
  | O => out_of_fuel
  | S fuel' =>
      match current with
      | None => ret acc
      | Some _ =>
          let* n := load current in
          traverse_loop fuel' operation (Next n) (operation (Val n) acc)
      end
  end.

Definition Traverse {A : Type} (fuel : nat) (l : SinglyLinkedList)
    (operation : T → A → A) (acc : A) : M unidirectionalNode A :=
  traverse_loop fuel operation (head l) acc.

Definition InsertAtBeginning (l : SinglyLinkedList) (val : T)
  : M unidirectionalNode (SinglyLinkedList * error) :=
  let* newNode := alloc {| Next := head l; Val := val |} in
  let l := {| head := newNode; length := length l |} in
  let l := {| head := head l; length := int_add (length l) 1 |} in
  ret (l, None).

(** [for current.Next != nil { current = current.Next }] *)
Fixpoint walk_to_last (fuel : nat) (current : ptr) : M unidirectionalNode ptr :=
  match fuel with
  | O => out_of_fuel
  | S fuel' =>
      let* n := load current in
      match Next n with
      | None => ret current
      | Some _ => walk_to_last fuel' (Next n)
      end
  end.

Definition InsertAtEnd (fuel : nat) (l : SinglyLinkedList) (val : T)
  : M unidirectionalNode (SinglyLinkedList * error) :=
  match head l with
  | None => ret (l, Some "Cannot insert at end of empty list"%string)
  | Some _ =>
      let* newNode := alloc {| Next := None; Val := val |} in
      let current := head l in
      let* current := walk_to_last fuel current in
      let* _ := modify current (set_Next newNode) in
      let l := {| head := head l; length := int_add (length l) 1 |} in
      ret (l, None)
  end.

(** [n] times [current = current.Next]: the body of the counting loops
    [for i := lo; i < hi; i++ { current = current.Next }]. *)
Fixpoint advance (n : nat) (current : ptr) : M unidirectionalNode ptr :=
  match n with
  | O => ret current
  | S n' => let* nd := load current in advance n' (Next nd)
  end.

Definition InsertAtPosition (fuel : nat) (l : SinglyLinkedList) (val : T)
    (pos : Z) : M unidirectionalNode (SinglyLinkedList * error) :=
  if (pos <? 0) || (pos >? length l) then
    ret (l, Some "Invalid position for insertion"%string)
  else if pos =? 0 then InsertAtBeginning l val
  else if pos =? int_sub (length l) 1 then InsertAtEnd fuel l val
  else
    let* newNode := alloc {| Next := None; Val := val |} in
    let current := head l in
    (* for i := 1; i < pos; i++: the iterations i = 1 .. pos-1 *)
    let* current := advance (Z.to_nat (pos - 1)) current in
    let* c := load current in
    let* _ := modify newNode (set_Next (Next c)) in
    let* _ := modify current (set_Next newNode) in
    let l := {| head := head l; length := int_add (length l) 1 |} in
    ret (l, None).

Definition DeleteFromBeginning (l : SinglyLinkedList)
  : M unidirectionalNode (SinglyLinkedList * (T * error)) :=
  if length l =? 0 then
    ret (l, (zero, Some "Cannot delete from an empty list!"%string))
  else
    let* hd := load (head l) in
    let val := Val hd in
    let* hd := load (head l) in
    let l := {| head := Next hd; length := length l |} in
    let l := {| head := head l; length := int_sub (length l) 1 |} in
    ret (l, (val, None)).

(** [for curr.Next != nil && currNext.Next != nil
       { curr = curr.Next; currNext = curr.Next }] *)
Fixpoint walk_to_before_tail (fuel : nat) (curr currNext : ptr)
  : M unidirectionalNode (ptr * ptr) :=
  match fuel with
  | O => out_of_fuel
  | S fuel' =>
      let* c := load curr in
      match Next c with
      | None => ret (curr, currNext)
      | Some _ =>
          let* cn := load currNext in
          match Next cn with
          | None => ret (curr, currNext)
          | Some _ =>
              let curr := Next c in
              let* c' := load curr in
              let currNext := Next c' in
              walk_to_before_tail fuel' curr currNext
          end
      end
  end.

Definition DeleteFromEnd (fuel : nat) (l : SinglyLinkedList)
  : M unidirectionalNode (SinglyLinkedList * (T * error)) :=
  if length l =? 0 then
    ret (l, (zero, Some "Cannot delete from an empty list!"%string))
  else if length l =? 1 then DeleteFromBeginning l
  else
    let curr := head l in
    let* c := load curr in
    let currNext := Next c in
    let* (curr, currNext) := walk_to_before_tail fuel curr currNext in
    let* _ := modify curr (set_Next None) in
    let l := {| head := head l; length := int_sub (length l) 1 |} in
    let* cn := load currNext in
    ret (l, (Val cn, None)).

Definition DeleteAtPosition (fuel : nat) (l : SinglyLinkedList) (pos : Z)
  : M unidirectionalNode (SinglyLinkedList * (T * error)) :=
  if (pos <? 0) || (pos >=? length l) then
    ret (l, (zero, Some "invalid position for deletion"%string))
  else if pos =? 0 then DeleteFromBeginning l
  else if pos =? int_sub (length l) 1 then DeleteFromEnd fuel l
  else
    let curr := head l in
    (* for i := 0; i < pos-1; i++ *)
    let* curr := advance (Z.to_nat (int_sub pos 1 - 0)) curr in
    let* c := load curr in
    let* target := load (Next c) in
    let val := Val target in
    let* _ := modify curr (set_Next (Next target)) in
    let l := {| head := head l; length := int_sub (length l) 1 |} in
    ret (l, (val, None)).

(** [for curr != nil { if curr.Val == element { return true, curr };
                       curr = curr.Next }] *)
Fixpoint search_loop (fuel : nat) (element : T) (curr : ptr)
  : M unidirectionalNode (bool * ptr) :=
  match fuel with
  | O => out_of_fuel
  | S fuel' =>
      match curr with
      | None => ret (false, None)
      | Some _ =>
          let* c := load curr in
          if num_eqb (Val c) element then ret (true, curr)
          else search_loop fuel' element (Next c)
      end
  end.

Definition Search (fuel : nat) (l : SinglyLinkedList) (element : T)
  : M unidirectionalNode (bool * ptr) :=
  search_loop fuel element (head l).

(** *** Representation

    [lseg h p q cells]: following [Next] from [p] in heap [h] visits the
    locations and values of [cells], in order, and arrives at [q]. *)
Fixpoint lseg (h : list unidirectionalNode) (p q : ptr)
    (cells : list (loc * T)) : Prop :=
  match cells with
  | [] => p = q
  | (a, v) :: rest =>
      p = Some a ∧
      ∃ nx, h !! a = Some {| Next := nx; Val := v |} ∧ lseg h nx q rest
  end.

(** The nodes reachable from [head] are exactly [cells], and [length]
    counts them. *)
Definition repr (h : list unidirectionalNode) (l : SinglyLinkedList)
    (cells : list (loc * T)) : Prop :=
  lseg h (head l) None cells ∧ length l = Z.of_nat (List.length cells).

(** The number of nodes reachable from [p], computed by following [Next]
    (at most one visit for each node of the heap, one more for [nil]). *)
Fixpoint count_from (fuel : nat) (h : list unidirectionalNode) (p : ptr)
  : option Z :=
  match fuel with
  | O => None
  | S fuel' =>
      match p with
      | None => Some 0
      | Some a =>
          match h !! a with
          | Some n => (fun k => 1 + k) <$> count_from fuel' h (Next n)
          | None => None
          end
      end
  end.

Definition reachable_count (h : list unidirectionalNode)
    (l : SinglyLinkedList) : option Z :=
  count_from (S (List.length h)) h (head l).

(** *** Sequences of operations *)

Inductive op : Type :=
| OpInsertAtBeginning (val : T)
| OpInsertAtEnd (val : T)
| OpInsertAtPosition (val : T) (pos : Z)
| OpDeleteFromBeginning
| OpDeleteFromEnd
| OpDeleteAtPosition (pos : Z)
| OpTraverse
| OpSearch (element : T).

(** The net count kept next to the list: successful insertions and
    successful deletions so far. *)
Record tally : Type := { inserted : Z; deleted : Z }.

Definition count_insert (e : error) (t : tally) : tally :=
  match e with
  | None => {| inserted := inserted t + 1; deleted := deleted t |}
  | Some _ => t
  end.

Definition count_delete (e : error) (t : tally) : tally :=
  match e with
  | None => {| inserted := inserted t; deleted := deleted t + 1 |}
  | Some _ => t
  end.

Definition step (fuel : nat) (o : op) (st : SinglyLinkedList * tally)
  : M unidirectionalNode (SinglyLinkedList * tally) :=
  let (l, t) := st in
  match o with
  | OpInsertAtBeginning v =>
      let* (l', e) := InsertAtBeginning l v in ret (l', count_insert e t)
  | OpInsertAtEnd v =>
      let* (l', e) := InsertAtEnd fuel l v in ret (l', count_insert e t)
  | OpInsertAtPosition v pos =>
      let* (l', e) := InsertAtPosition fuel l v pos in
      ret (l', count_insert e t)
  | OpDeleteFromBeginning =>
      let* (l', (_, e)) := DeleteFromBeginning l in ret (l', count_delete e t)
  | OpDeleteFromEnd =>
      let* (l', (_, e)) := DeleteFromEnd fuel l in ret (l', count_delete e t)
  | OpDeleteAtPosition pos =>
      let* (l', (_, e)) := DeleteAtPosition fuel l pos in
      ret (l', count_delete e t)
  | OpTraverse =>
      let* _ := Traverse fuel l (fun v acc => acc ++ [v]) [] in ret (l, t)
  | OpSearch v =>
      let* _ := Search fuel l v in ret (l, t)
  end.

Fixpoint run (fuel : nat) (ops : list op) (st : SinglyLinkedList * tally)
  : M unidirectionalNode (SinglyLinkedList * tally) :=
  match ops with
  | [] => ret st
  | o :: ops' => let* st' := step fuel o st in run fuel ops' st'
  end.

(** The state kept by [run] after at most [k] operations: the list is a
    chain of at most [k] nodes, and the net count is their number. *)
Definition tracked (k : nat) (h : list unidirectionalNode)
    (st : SinglyLinkedList * tally) : Prop :=
  ∃ cells, repr h st.1 cells ∧ (List.length cells <= k)%nat ∧
           inserted st.2 - deleted st.2 = Z.of_nat (List.length cells).
End Defs.
Arguments unidirectionalNode T : clear implicits.
Arguments op T : clear implicits.

(** A sample list of [int]: the heap, the list and its cells after
    [InsertAtBeginning] of 1, 2 and 3. *)
Definition h3 : list (unidirectionalNode Z) :=
  [ {| Next := None; Val := 1 |};
    {| Next := Some 0%nat; Val := 2 |};
    {| Next := Some 1%nat; Val := 3 |} ].

Definition l3 : SinglyLinkedList := {| head := Some 2%nat; length := 3 |}.

Definition cells3 : list (nat * Z) := [(2%nat, 3); (1%nat, 2); (0%nat, 1)].

Definition ops7 : list (op Z) :=
  [ OpInsertAtEnd 0; OpInsertAtBeginning 1; OpInsertAtBeginning 2;
    OpInsertAtPosition 3 1; OpDeleteFromEnd; OpDeleteAtPosition 5;
    OpSearch 3 ].
End SLL.

Module DLL.
Section Defs.
Context {T : Type} `{Numeric T}.

Record bidirectionalNode : Type := { Prev : ptr; Next : ptr; Val : T }.

Record DoublyLinkedList : Type := { head : ptr; tail : ptr; length : Z }.

Definition NewDLL : DoublyLinkedList :=
  {| head := None; tail := None; length := 0 |}.

(** [Traverse] applies [operation] and prints each node with its address;
    the sink is the list of the (node, address) pairs printed. *)
Fixpoint traverse_loop {A : Type} (fuel : nat) (operation : T → A → A)
    (current : ptr) (acc : A) (out : list (bidirectionalNode * ptr))
  : M bidirectionalNode (A * list (bidirectionalNode * ptr)) :=
  match fuel with
  | O => out_of_fuel
  | S fuel' =>
      match current with
      | None => ret (acc, out)
      | Some _ =>
          let* n := load current in
          traverse_loop fuel' operation (Next n) (operation (Val n) acc)
            (out ++ [(n, current)])
      end
  end.

Definition Traverse {A : Type} (fuel : nat) (l : DoublyLinkedList)
    (operation : T → A → A) (acc : A) (out : list (bidirectionalNode * ptr))
  : M bidirectionalNode (A * list (bidirectionalNode * ptr)) :=
  traverse_loop fuel operation (head l) acc out.

Definition InsertAtBeginning (l : DoublyLinkedList) (val : T)
  : M bidirectionalNode (DoublyLinkedList * error) :=
  let* newNode := alloc {| Next := head l; Prev := None; Val := val |} in
  let l := {| head := newNode; tail := tail l; length := length l |} in
  let l := if length l =? 0
           then {| head := head l; tail := newNode; length := length l |}
           else l in
  let l := {| head := head l; tail := tail l;
              length := int_add (length l) 1 |} in
  ret (l, None).

(** [InsertAtBeginning] of each value in turn. *)
Fixpoint insert_all (l : DoublyLinkedList) (vals : list T)
  : M bidirectionalNode DoublyLinkedList :=
  match vals with
  | [] => ret l
  | v :: vals' =>
      let* (l', _) := InsertAtBeginning l v in insert_all l' vals'
  end.

(** *** The consistency invariant of the data model *)

(** [reach h p a]: the node at [a] is reached from [p] by following
    [Next]. *)
Inductive reach (h : list bidirectionalNode) : ptr → loc → Prop :=
| reach_here (a : loc) : reach h (Some a) a
| reach_next (a b : loc) (n : bidirectionalNode) :
    h !! a = Some n → reach h (Next n) b → reach h (Some a) b.

(** [a.next == b] implies [b.prev == a], for the nodes of the list. *)
Definition links_consistent (h : list bidirectionalNode)
    (l : DoublyLinkedList) : Prop :=
  ∀ (a b : loc) (na nb : bidirectionalNode),
    reach h (head l) a →
    h !! a = Some na → Next na = Some b → h !! b = Some nb →
    Prev nb = Some a.

(** [head.prev] and [tail.next] are both [nil]. *)
Definition ends_closed (h : list bidirectionalNode) (l : DoublyLinkedList)
  : Prop :=
  (∀ a n, head l = Some a → h !! a = Some n → Prev n = None) ∧
  (∀ a n, tail l = Some a → h !! a = Some n → Next n = None).

Definition consistent (h : list bidirectionalNode) (l : DoublyLinkedList)
  : Prop :=
  links_consistent h l ∧
  ends_closed h l ∧
  (length l = 1 → head l = tail l) ∧
  (length l = 0 → head l = None ∧ tail l = None).

(** What [InsertAtBeginning] does maintain: the ends and the length. *)
Definition ends_tracked (h : list bidirectionalNode) (l : DoublyLinkedList)
  : Prop :=
  0 <= length l ∧
  (length l = 0 → head l = None ∧ tail l = None) ∧
  (length l = 1 → head l = tail l) ∧
  (0 < length l →
   ∃ a t na nt,
     head l = Some a ∧ tail l = Some t ∧
     h !! a = Some na ∧ Prev na = None ∧
     h !! t = Some nt ∧ Next nt = None).

(** Following [Next] from [p] visits nodes holding the values [vs] and
    ends at [nil]. *)
Fixpoint fchain (h : list bidirectionalNode) (p : ptr) (vs : list T) : Prop :=
  match vs with
  | [] => p = None
  | v :: rest =>
      ∃ a pv nx, p = Some a ∧
                 h !! a = Some {| Prev := pv; Next := nx; Val := v |} ∧
                 fchain h nx rest
  end.
End Defs.
Arguments bidirectionalNode T : clear implicits.
End DLL.

(** * Package [random] *)

Module Random.
Section Defs.
(** [rand.Intn] of [math/rand], the source of the draws, is a parameter. *)
Variable Intn : Z → outcome Z.

Definition RandInt (a b : Z) : outcome Z :=
  let '(a, b) := if a >? b then (b, a) else (a, b) in
  if a =? b then Ret a
  else do r <- Intn (int_add (int_sub b a) 1); Ret (int_add r a).
End Defs.

(** What [math/rand] documents of [Intn]: a number in [0, n), and a panic
    when [n <= 0]. *)
Definition Intn_contract (Intn : Z → outcome Z) : Prop :=
  ∀ n, (0 < n → ∃ r, Intn n = Ret r ∧ 0 <= r < n) ∧
       (n <= 0 → ∃ p, Intn n = Panic p).

(** A source that always draws the largest number. *)
Definition largest_draw (n : Z) : outcome Z :=
  if n <=? 0 then Panic IndexOutOfRange else Ret (n - 1).
End Random.

(** * Properties *)

(** ** Arithmetic of [int] *)

Lemma wrap_small (z : Z) : is_int z → wrap z = z.
Proof.
  unfold is_int, int_min, int_max, wrap. intros Hz.
  rewrite Z.mod_small; lia.
Qed.

Lemma int_add_small (a b : Z) : is_int (a + b) → int_add a b = a + b.
Proof. apply wrap_small. Qed.

Lemma int_sub_small (a b : Z) : is_int (a - b) → int_sub a b = a - b.
Proof. apply wrap_small. Qed.

Lemma is_int_bounds (z : Z) : - 2 ^ 62 <= z <= 2 ^ 62 → is_int z.
Proof. unfold is_int, int_min, int_max. lia. Qed.

(** Rewrites the wrapping operations whose result is seen to be in range. *)
Ltac int_simpl :=
  repeat first
    [ rewrite int_add_small by (apply is_int_bounds; lia)
    | rewrite int_sub_small by (apply is_int_bounds; lia) ].

(** ** Counting loops *)

Lemma for_up_from_inv {St : Type} (I : Z → St → Prop)
    (body : Z → St → outcome (St * bool)) (n : nat) (lo : Z) (s : St) :
  I lo s →
  (∀ i s, lo <= i < lo + Z.of_nat n → I i s →
          ∃ s', body i s = Ret (s', false) ∧ I (i + 1) s') →
  ∃ s', for_up_from n lo body s = Ret s' ∧ I (lo + Z.of_nat n) s'.
Proof.
  revert lo s. induction n as [|n IH]; intros lo s H0 Hstep.
  - exists s. split; [done|]. by replace (lo + Z.of_nat 0) with lo by lia.
  - destruct (Hstep lo s) as (s1 & Hb & H1); [lia|done|].
    destruct (IH (lo + 1) s1) as (s2 & Hr & H2); [done| |].
    + intros i s' Hi. apply Hstep. lia.
    + exists s2. cbn [for_up_from]. rewrite Hb. cbn. split; [done|].
      by replace (lo + Z.of_nat (S n)) with (lo + 1 + Z.of_nat n) by lia.
Qed.

Lemma for_up_inv {St : Type} (I : Z → St → Prop)
    (body : Z → St → outcome (St * bool)) (lo hi : Z) (s : St) :
  lo <= hi → I lo s →
  (∀ i s, lo <= i < hi → I i s →
          ∃ s', body i s = Ret (s', false) ∧ I (i + 1) s') →
  ∃ s', for_up lo hi body s = Ret s' ∧ I hi s'.
Proof.
  intros Hle H0 Hstep. unfold for_up.
  destruct (for_up_from_inv I body (Z.to_nat (hi - lo)) lo s) as (s' & Hr & Hi);
    [done| |].
  - intros i s0 Hi. apply Hstep. lia.
  - exists s'. split; [done|]. by replace hi with (lo + Z.of_nat (Z.to_nat (hi - lo))) at 1 by lia.
Qed.

(** The same with a body that may [break]: the loop ends either by
    [break], in a state satisfying [Q], or at its bound. *)
Lemma for_up_from_break_inv {St : Type} (I : Z → St → Prop) (Q : St → Prop)
    (body : Z → St → outcome (St * bool)) (n : nat) (lo : Z) (s : St) :
  I lo s →
  (∀ i s, lo <= i < lo + Z.of_nat n → I i s →
          ∃ s' brk, body i s = Ret (s', brk) ∧
                    if brk : bool then Q s' else I (i + 1) s') →
  ∃ s', for_up_from n lo body s = Ret s' ∧ (Q s' ∨ I (lo + Z.of_nat n) s').
Proof.
  revert lo s. induction n as [|n IH]; intros lo s H0 Hstep.
  - exists s. split; [done|]. right.
    by replace (lo + Z.of_nat 0) with lo by lia.
  - destruct (Hstep lo s) as (s1 & brk & Hb & H1); [lia|done|].
    cbn [for_up_from]. rewrite Hb. cbn. destruct brk.
    + exists s1. by split; [|left].
    + destruct (IH (lo + 1) s1) as (s2 & Hr & H2); [done| |].
      * intros i s' Hi. apply Hstep. lia.
      * exists s2. split; [done|].
        by replace (lo + Z.of_nat (S n)) with (lo + 1 + Z.of_nat n) by lia.
Qed.

Lemma for_down_from_inv {St : Type} (I : Z → St → Prop)
    (body : Z → St → outcome St) (n : nat) (hi : Z) (s : St) :
  I hi s →
  (∀ i s, hi - Z.of_nat n < i <= hi → I i s →
          ∃ s', body i s = Ret s' ∧ I (i - 1) s') →
  ∃ s', for_down_from n hi body s = Ret s' ∧ I (hi - Z.of_nat n) s'.
Proof.
  revert hi s. induction n as [|n IH]; intros hi s H0 Hstep.
  - exists s. split; [done|]. by replace (hi - Z.of_nat 0) with hi by lia.
  - destruct (Hstep hi s) as (s1 & Hb & H1); [lia|done|].
    destruct (IH (hi - 1) s1) as (s2 & Hr & H2); [done| |].
    + intros i s' Hi. apply Hstep. lia.
    + exists s2. cbn [for_down_from]. rewrite Hb. cbn. split; [done|].
      by replace (hi - Z.of_nat (S n)) with (hi - 1 - Z.of_nat n) by lia.
Qed.

Lemma insert_app_replicate {A : Type} (P : list A) (x z : A) (n k : nat) :
  List.length P = n →
  <[n := x]> (P ++ replicate (S k) z) = (P ++ [x]) ++ replicate k z.
Proof.
  intros <-. rewrite insert_app_r_alt by lia.
  rewrite Nat.sub_diag. cbn. by rewrite <- app_assoc.
Qed.

Module ArrayFacts.
Import Array.
Section Facts.
Context {T : Type} `{Numeric T}.
Implicit Types (a b : array T) (buf : list T).

Lemma index_ok buf (i : Z) :
  0 <= i < Z.of_nat (List.length buf) → i < ArrayMaxSize →
  ∃ x, buf !! Z.to_nat i = Some x ∧ index buf i = Ret x.
Proof.
  intros Hi Hc. unfold index, array_index.
  destruct (lookup_lt_is_Some_2 buf (Z.to_nat i)) as [x Hx]; [lia|].
  exists x. split; [done|].
  rewrite Hx. replace (0 <=? i) with true by lia.
  by replace (i <? ArrayMaxSize) with true by lia.
Qed.

Lemma store_ok buf (i : Z) (x : T) :
  0 <= i < ArrayMaxSize → store buf i x = Ret (<[Z.to_nat i := x]> buf).
Proof.
  intros Hi. unfold store, array_store.
  replace (0 <=? i) with true by lia.
  by replace (i <? ArrayMaxSize) with true by lia.
Qed.

Lemma store_out_of_range buf (i : Z) (x : T) :
  i < 0 ∨ ArrayMaxSize <= i → store buf i x = Panic IndexOutOfRange.
Proof.
  intros Hi. unfold store, array_store.
  destruct (0 <=? i) eqn:E1; [|done].
  destruct (i <? ArrayMaxSize) eqn:E2; [lia|done].
Qed.

Lemma index_out_of_range buf (i : Z) :
  i < 0 ∨ ArrayMaxSize <= i → index buf i = Panic IndexOutOfRange.
Proof.
  intros Hi. unfold index, array_index.
  destruct (0 <=? i) eqn:E1; [|done].
  destruct (i <? ArrayMaxSize) eqn:E2; [lia|done].
Qed.

Lemma wf_New : wf (New (T := T)).
Proof. split; cbn; [by rewrite length_replicate | unfold ArrayMaxSize; lia]. Qed.
(** C7. An index outside [0, size] for [InsertElement], or outside
    [0, size) for [RemoveAtIndex], [Get] and [Set], is rejected with the
    error "Index out of bounds", and the receiver is returned as it was:
    neither the buffer nor the size changes. *)
Theorem out_of_bounds_index_rejected a (element val : T) (i j : Z) :
  i < 0 ∨ i > size a →
  j < 0 ∨ j >= size a →
  InsertElement a element i = Ret (a, Some "Index out of bounds"%string) ∧
  RemoveAtIndex a j = Ret (a, Some "Index out of bounds"%string) ∧
  Get a j = Ret (a, (zero, Some "Index out of bounds"%string)) ∧
  Set_ a j val = Ret (a, Some "Index out of bounds"%string).
Proof.
  intros Hi Hj.
  assert ((i <? 0) || (i >? size a) = true) as Ei.
  { apply orb_true_iff. lia. }
  assert ((j <? 0) || (j >=? size a) = true) as Ej.
  { apply orb_true_iff. lia. }
  unfold InsertElement, RemoveAtIndex, Get, Set_.
  rewrite Ei, Ej. done.
Qed.

(** C8. On an array with [size == 0], [RemoveAtIndex] answers every index
    with "Index out of bounds": the bounds test comes first and covers every
    index, so the "Array is empty" branch is never taken. *)
Theorem RemoveAtIndex_empty_is_out_of_bounds a (idx : Z) :
  size a = 0 →
  RemoveAtIndex a idx = Ret (a, Some "Index out of bounds"%string).
Proof.
  intros Hs. unfold RemoveAtIndex. rewrite Hs.
  replace ((idx <? 0) || (idx >=? 0)) with true; [done|].
  symmetry. apply orb_true_iff. lia.
Qed.

(** The "Array is empty" error of [RemoveAtIndex] is unreachable, whatever
    the array and the index. *)
Lemma RemoveAtIndex_never_empty_error a (idx : Z) :
  ∀ a', RemoveAtIndex a idx ≠ Ret (a', Some "Array is empty"%string).
Proof.
  intros a'. unfold RemoveAtIndex.
  destruct ((idx <? 0) || (idx >=? size a)) eqn:E; [done|].
  apply orb_false_iff in E as [E1 E2].
  destruct (size a =? 0) eqn:E0; [lia|].
  destruct (for_up _ _ _ _); done.
Qed.

(** C5. [PrintAll] on an empty array evaluates [arr.arr[arr.size-1]], that
    is [arr.arr[-1]]: it panics with an index out of range instead of
    writing its output. *)
Theorem PrintAll_empty_panics a (out : list fmt_call) :
  size a = 0 → PrintAll a out = Panic IndexOutOfRange.
Proof.
  intros Hs. unfold PrintAll. rewrite Hs.
  change (int_sub 0 1) with (-1). done.
Qed.

(** X10. On a non-empty array [PrintAll] stays in range and writes the opening
    bracket, the elements but the last, and the last with the closing
    bracket. *)
Lemma PrintAll_nonempty_ok a (out : list fmt_call) :
  wf a → 0 < size a →
  ∃ xs x, live a = xs ++ [x] ∧
    PrintAll a out =
      Ret (out ++ [FmtPrint [AStr "[ "]]
               ++ ((λ y, FmtPrint [AVal y; AStr ", "]) <$> xs)
               ++ [FmtPrintln [AVal x; AStr "]"]]).
Proof.
  intros [Hlen Hsz] Hpos. unfold ArrayMaxSize in *. unfold PrintAll. int_simpl.
  set (out0 := out ++ [FmtPrint [AStr "[ "]]).
  destruct (for_up_inv
    (λ i o, o = out0 ++ ((λ y, FmtPrint [AVal y; AStr ", "])
                           <$> take (Z.to_nat i) (arr a)))
    (λ i o, do x <- index (arr a) i;
            Ret (o ++ [FmtPrint [AVal x; AStr ", "]], false))
    0 (size a - 1) out0) as (o & Hrun & Ho).
  - lia.
  - cbn. by rewrite app_nil_r.
  - intros i o Hi ->.
    destruct (index_ok (arr a) i) as (x & Hx & Hix);
      [lia|unfold ArrayMaxSize; lia|].
    rewrite Hix. cbn. eexists. split; [done|].
    replace (Z.to_nat (i + 1)) with (S (Z.to_nat i)) by lia.
    rewrite (take_S_r _ _ _ Hx), fmap_app. cbn. by rewrite <- app_assoc.
  - rewrite Hrun. cbn.
    destruct (index_ok (arr a) (size a - 1)) as (x & Hx & Hix);
      [lia|unfold ArrayMaxSize; lia|].
    rewrite Hix. cbn.
    exists (take (Z.to_nat (size a - 1)) (arr a)), x. split.
    + unfold live. replace (Z.to_nat (size a)) with (S (Z.to_nat (size a - 1))) by lia.
      by rewrite (take_S_r _ _ _ Hx).
    + subst o out0. by rewrite <- !app_assoc.
Qed.
(** The first loop of [Merge] copies the live elements of the receiver. *)
Lemma Merge_copy_loop a :
  wf a →
  for_up 0 (size a)
    (fun i res =>
       do x <- index (arr a) i;
       do buf <- store (arr res) i x;
       Ret ({| arr := buf; size := int_add (size res) 1 |}, false))
    New
  = Ret {| arr := live a ++ replicate (Z.to_nat (ArrayMaxSize - size a)) zero;
           size := size a |}.
Proof.
  intros [Hlen Hsz].
  match goal with |- for_up _ _ ?body _ = _ =>
    destruct (for_up_inv
      (λ i res, res = {| arr := take (Z.to_nat i) (arr a)
                                ++ replicate (Z.to_nat (ArrayMaxSize - i)) zero;
                         size := i |})
      body 0 (size a) New) as (res & Hrun & ->)
  end.
  - lia.
  - done.
  - intros i res Hi ->. cbn [arr size].
    destruct (index_ok (arr a) i) as (x & Hx & Hix); [lia|lia|].
    rewrite Hix. cbn. rewrite store_ok by lia. cbn.
    eexists. split; [reflexivity|]. f_equal.
    + replace (Z.to_nat (ArrayMaxSize - i))
        with (S (Z.to_nat (ArrayMaxSize - (i + 1)))) by lia.
      rewrite insert_app_replicate.
      * replace (Z.to_nat (i + 1)) with (S (Z.to_nat i)) by lia.
        by rewrite (take_S_r _ _ _ Hx).
      * rewrite length_take. lia.
    + unfold ArrayMaxSize in *. by int_simpl.
  - done.
Qed.

(** X9. [Merge] when the receiver is not full, or the other array is empty:
    the result holds the live elements of [a] followed by as many of [b]'s
    as fit, its size is [min (a.size + b.size) ArrayMaxSize], and the error
    is returned exactly when [a.size + b.size > ArrayMaxSize]. *)
Lemma Merge_spec a b :
  wf a → wf b → size a < ArrayMaxSize ∨ size b = 0 →
  ∃ res,
    Merge a b =
      Ret (res, if size a + size b >? ArrayMaxSize
                then Some "Cannot fit both arrays completely"%string
                else None) ∧
    wf res ∧
    size res = Z.min (size a + size b) ArrayMaxSize ∧
    live res = take (Z.to_nat ArrayMaxSize) (live a ++ live b).
Proof.
  intros Ha Hb Hroom. unfold Merge. rewrite (Merge_copy_loop a Ha). cbn.
  destruct Ha as [Hla Hsa], Hb as [Hlb Hsb].
  assert (List.length (live a) = Z.to_nat (size a)) as Hlive.
  { unfold live. rewrite length_take. lia. }
  set (P := λ (k : Z) (res : array T),
              res = {| arr := (live a ++ take (Z.to_nat k) (arr b))
                              ++ replicate (Z.to_nat (ArrayMaxSize - size a - k)) zero;
                       size := size a + k |}).
  match goal with |- context [for_up _ _ ?body ?s] =>
    set (s0 := s);
    destruct (for_up_from_break_inv
      (λ i res, P i res ∧ size a + i < ArrayMaxSize ∨ size b = 0 ∧ P 0 res)
      (λ res, ∃ k, 0 <= k <= size b ∧ size a + k = ArrayMaxSize ∧ P k res)
      body (Z.to_nat (size b - 0)) 0 s0) as (res & Hrun & Hpost)
  end.
  - assert (P 0 s0) as HP0.
    { unfold P. subst s0. cbn. by rewrite app_nil_r, Z.sub_0_r, Z.add_0_r. }
    destruct Hroom as [Hlt|H0]; [left; split; [done|lia] | by right].
  - intros i res Hi [[-> Hlt]|[H0 _]]; [|lia]. cbn [arr size].
    destruct (index_ok (arr b) i) as (x & Hx & Hix); [lia|lia|].
    rewrite Hix. cbn. unfold ArrayMaxSize in *. int_simpl.
    rewrite store_ok by (unfold ArrayMaxSize; lia). cbn.
    assert (<[Z.to_nat (size a + i):=x]>
              ((live a ++ take (Z.to_nat i) (arr b))
               ++ replicate (Z.to_nat (100 - size a - i)) zero)
            = (live a ++ take (Z.to_nat (i + 1)) (arr b))
              ++ replicate (Z.to_nat (100 - size a - (i + 1))) zero) as ->.
    { replace (Z.to_nat (100 - size a - i))
        with (S (Z.to_nat (100 - size a - (i + 1)))) by lia.
      rewrite insert_app_replicate.
      - replace (Z.to_nat (i + 1)) with (S (Z.to_nat i)) by lia.
        by rewrite (take_S_r _ _ _ Hx), app_assoc.
      - rewrite length_app, length_take. lia. }
    eexists _, _. split; [reflexivity|].
    destruct (size a + i + 1 =? 100) eqn:E.
    + exists (i + 1). split; [lia|]. split; [lia|].
      unfold P. f_equal. lia.
    + left. split; [|lia]. unfold P. f_equal. lia.
  - unfold for_up. rewrite Hrun. cbn. unfold ArrayMaxSize in *.
    rewrite int_add_small by (apply is_int_bounds; lia).
    assert (∃ k, 0 <= k <= size b ∧ size a + k = Z.min (size a + size b) 100
                 ∧ P k res) as (k & Hk & Hmin & HP).
    { destruct Hpost as [(k & Hk & Hfull & HP)|[[HP Hlt]|[H0 HP]]].
      - exists k. split; [done|]. split; [lia|done].
      - exists (size b). replace (0 + Z.of_nat (Z.to_nat (size b - 0)))
          with (size b) in * by lia.
        split; [lia|]. split; [lia|done].
      - exists 0. split; [lia|]. split; [lia|done]. }
    exists res. split; [by destruct (_ >? _)|].
    unfold P in HP. clear Hrun Hpost. subst res. cbn [arr size].
    split; [|split; [done|]].
    + unfold wf, ArrayMaxSize. cbn [arr size]. split; [|lia].
      rewrite !length_app, length_take, length_replicate. lia.
    + unfold live at 1. cbn [arr size].
      rewrite take_app_length'
        by (rewrite length_app, length_take; lia).
      rewrite take_app_ge by lia.
      f_equal. unfold live at 2. rewrite take_take. f_equal. lia.
Qed.

(** C1. When the receiver is full and the other array is not empty, the
    second loop of [Merge] writes [res.arr[ArrayMaxSize]] before it tests
    the size for the [break]: [Merge] panics with an index out of range and
    returns neither the truncated array nor the error. *)
Theorem Merge_full_receiver_panics a b :
  wf a → wf b → size a = ArrayMaxSize → 0 < size b →
  Merge a b = Panic IndexOutOfRange.
Proof.
  intros Ha Hb Hfull Hpos. unfold Merge. rewrite (Merge_copy_loop a Ha). cbn.
  destruct Hb as [Hlb Hsb].
  unfold for_up. replace (Z.to_nat (size b - 0)) with (S (Z.to_nat (size b - 1))) by lia.
  cbn [for_up_from].
  destruct (index_ok (arr b) 0) as (x & Hx & Hix); [lia|done|].
  rewrite Hix. cbn. rewrite Hfull.
  by rewrite store_out_of_range by (vm_compute; right; discriminate).
Qed.
End Facts.

(** The sample arrays are the ones built by [New] and [PushElement]. *)
Lemma sample_built : push_all New [10; 20; 30] = Ret sample.
Proof. reflexivity. Qed.

Lemma full_built : push_all New (Z.of_nat <$> seq 0 100) = Ret full.
Proof. vm_compute. reflexivity. Qed.

Lemma single_built : push_all New [7] = Ret single.
Proof. reflexivity. Qed.

Lemma out_of_bounds_index_rejected_witness :
  (5 < 0 ∨ 5 > size sample) ∧ (3 < 0 ∨ 3 >= size sample) ∧
  InsertElement sample 1 5 = Ret (sample, Some "Index out of bounds"%string) ∧
  RemoveAtIndex sample 3 = Ret (sample, Some "Index out of bounds"%string) ∧
  Get sample 3 = Ret (sample, (0, Some "Index out of bounds"%string)) ∧
  Set_ sample 3 1 = Ret (sample, Some "Index out of bounds"%string).
Proof.
  split; [right; reflexivity|]. split; [right; discriminate|].
  apply (out_of_bounds_index_rejected (H := Numeric_int) sample 1 1 5 3);
    right; [reflexivity|discriminate].
Defined.

Lemma RemoveAtIndex_empty_is_out_of_bounds_witness :
  size (New (T := Z)) = 0 ∧
  RemoveAtIndex (New (T := Z)) 0
    = Ret (New, Some "Index out of bounds"%string).
Proof.
  split; [reflexivity|].
  apply (RemoveAtIndex_empty_is_out_of_bounds (New (T := Z)) 0). reflexivity.
Defined.

Lemma PrintAll_empty_panics_witness :
  size (New (T := Z)) = 0 ∧ PrintAll (New (T := Z)) [] = Panic IndexOutOfRange.
Proof.
  split; [reflexivity|]. apply (PrintAll_empty_panics (New (T := Z)) []). reflexivity.
Defined.

Lemma Merge_full_receiver_panics_witness :
  wf full ∧ wf single ∧ size full = ArrayMaxSize ∧ 0 < size single ∧
  Merge full single = Panic IndexOutOfRange.
Proof.
  assert (wf full) as Hf by (split; [reflexivity | split; discriminate]).
  assert (wf single) as Hs by (split; [reflexivity | split; discriminate]).
  split; [exact Hf|]. split; [exact Hs|]. split; [reflexivity|].
  split; [reflexivity|].
  apply (Merge_full_receiver_panics (H := Numeric_int) full single Hf Hs); reflexivity.
Defined.

(** The run of [main]: 80 and 21 elements merge into 100, with the error. *)
Example Merge_80_21 :
  (do a <- push_all New (Z.of_nat <$> seq 0 80);
   do b <- push_all New (Z.of_nat <$> seq 0 21);
   do (res, e) <- Merge a b;
   Ret (size res, live res, e))
  = Ret (100, (Z.of_nat <$> seq 0 80) ++ (Z.of_nat <$> seq 0 20),
         Some "Cannot fit both arrays completely"%string).
Proof. vm_compute. reflexivity. Qed.
End ArrayFacts.

(** ** Heaps *)

Lemma heap_lookup_new {N : Type} (h : list N) (n : N) :
  (h ++ [n]) !! List.length h = Some n.
Proof. by rewrite lookup_app_r, Nat.sub_diag by lia. Qed.

Lemma heap_lookup_old {N : Type} (h h' : list N) (a : loc) (n : N) :
  h !! a = Some n → (h ++ h') !! a = Some n.
Proof. intros Ha. by apply lookup_app_l_Some. Qed.

Lemma heap_insert_new {N : Type} (h : list N) (n n' : N) :
  <[List.length h := n']> (h ++ [n]) = h ++ [n'].
Proof. by rewrite insert_app_r_alt, Nat.sub_diag by lia. Qed.

Module StackFacts.
Section ArrayBacking.
Import StackArray.
Context {T : Type} `{Numeric T}.
Implicit Types (s : stackArray T) (xs vs : list T).

Lemma holds_NewArray : holds (NewArray (T := T)) [].
Proof. repeat split. Qed.

Lemma Push_holds s xs (v : T) :
  holds s xs → Z.of_nat (List.length xs) < StackMaxSize →
  ∃ s', Push s v = Ret (s', None) ∧ holds s' (xs ++ [v]).
Proof.
  intros (Htop & Hlen & Htake) Hroom. unfold StackMaxSize in *.
  unfold Push, array_store, StackMaxSize. rewrite Htop. int_simpl.
  destruct (Z.eqb_spec (Z.of_nat (List.length xs) - 1) (100 - 1)) as [?|_];
    [lia|].
  replace (0 <=? Z.of_nat (List.length xs) - 1 + 1) with true by lia.
  replace (Z.of_nat (List.length xs) - 1 + 1 <? 100) with true by lia.
  cbn. eexists. split; [reflexivity|].
  replace (Z.to_nat (Z.of_nat (List.length xs) - 1 + 1))
    with (List.length xs) by lia.
  split; [|split]; cbn [arr top].
  - rewrite length_app. cbn. lia.
  - by rewrite length_insert.
  - rewrite length_app. cbn.
    replace (List.length xs + 1)%nat with (S (List.length xs)) by lia.
    erewrite take_S_r by (apply list_lookup_insert_eq; lia).
    rewrite take_insert_ge by lia. by rewrite Htake.
Qed.

Lemma Pop_holds s xs (v : T) :
  holds s (xs ++ [v]) → Z.of_nat (List.length xs) < StackMaxSize →
  ∃ s', Pop s = Ret (s', (v, None)) ∧ holds s' xs.
Proof.
  intros (Htop & Hlen & Htake) Hroom. unfold StackMaxSize in *.
  rewrite length_app in Htop, Htake. cbn in Htop, Htake.
  unfold Pop, array_index, StackMaxSize. rewrite Htop.
  destruct (Z.eqb_spec (Z.of_nat (List.length xs + 1) - 1) (-1)) as [?|_];
    [lia|].
  cbn [arr top]. int_simpl.
  replace (Z.of_nat (List.length xs + 1) - 1 - 1 + 1)
    with (Z.of_nat (List.length xs)) by lia.
  replace (0 <=? Z.of_nat (List.length xs)) with true by lia.
  replace (Z.of_nat (List.length xs) <? 100) with true by lia.
  rewrite Nat2Z.id. cbn.
  assert (arr s !! List.length xs = Some v) as ->.
  { rewrite <- (lookup_take_lt _ (List.length xs + 1)) by lia.
    rewrite Htake. by rewrite lookup_app_r, Nat.sub_diag by lia. }
  cbn. eexists. split; [reflexivity|].
  split; [|split]; cbn [arr top]; [lia|done|].
  apply (f_equal (take (List.length xs))) in Htake.
  rewrite take_take, take_app_length in Htake.
  by replace (List.length xs `min` (List.length xs + 1))%nat
    with (List.length xs) in Htake by lia.
Qed.

Lemma push_all_holds vs : ∀ s xs,
  holds s xs →
  Z.of_nat (List.length xs + List.length vs) <= StackMaxSize →
  ∃ s', push_all s vs = Ret (s', replicate (List.length vs) None) ∧
        holds s' (xs ++ vs).
Proof.
  induction vs as [|v vs IH]; intros s xs Hs Hroom.
  - exists s. by rewrite app_nil_r.
  - cbn in Hroom.
    destruct (Push_holds s xs v Hs) as (s1 & HP & H1); [lia|].
    destruct (IH s1 (xs ++ [v]) H1) as (s2 & HA & H2).
    { rewrite length_app. cbn. lia. }
    exists s2. cbn. rewrite HP. cbn. rewrite HA. cbn.
    by rewrite <- app_assoc in H2.
Qed.

Lemma pop_n_holds vs : ∀ s xs,
  holds s (xs ++ vs) →
  Z.of_nat (List.length xs + List.length vs) <= StackMaxSize →
  ∃ s', pop_n (List.length vs) s
          = Ret (s', (λ v, (v, None)) <$> reverse vs) ∧
        holds s' xs.
Proof.
  induction vs as [|v vs IH] using rev_ind; intros s xs Hs Hroom.
  - exists s. by rewrite app_nil_r in Hs.
  - rewrite length_app in Hroom. cbn in Hroom.
    rewrite app_assoc in Hs.
    destruct (Pop_holds s (xs ++ vs) v Hs) as (s1 & HP & H1).
    { rewrite length_app. lia. }
    destruct (IH s1 xs H1) as (s2 & HA & H2); [lia|].
    exists s2. rewrite length_app, Nat.add_comm. cbn.
    rewrite HP. cbn. rewrite HA. cbn.
    by rewrite reverse_app.
Qed.

(** X15. [Print] stays in range in every state of the stack and writes the
    values from the top down. *)
Lemma Print_ok s xs (out : list T) :
  holds s xs → Z.of_nat (List.length xs) <= StackMaxSize →
  Print s out = Ret (out ++ reverse xs).
Proof.
  intros (Htop & Hlen & Htake) Hroom. unfold StackMaxSize in *.
  unfold Print, for_down. rewrite Htop.
  destruct (for_down_from_inv
    (λ i o, o = out ++ reverse (drop (Z.to_nat (i + 1)) xs))
    (λ i o, do x <- array_index StackMaxSize (arr s) i; Ret (o ++ [x]))
    (Z.to_nat (Z.of_nat (List.length xs) - 1 - 0 + 1))
    (Z.of_nat (List.length xs) - 1) out) as (o & -> & Ho).
  - rewrite drop_ge by lia. by rewrite reverse_nil, app_nil_r.
  - intros i o Hi ->.
    assert (∃ x, xs !! Z.to_nat i = Some x) as [x Hx].
    { apply lookup_lt_is_Some_2. lia. }
    assert (arr s !! Z.to_nat i = Some x) as Hax.
    { rewrite <- Htake in Hx. by rewrite lookup_take_lt in Hx by lia. }
    unfold array_index, StackMaxSize.
    replace (0 <=? i) with true by lia.
    replace (i <? 100) with true by lia.
    rewrite Hax. cbn. eexists. split; [reflexivity|].
    replace (Z.to_nat (i - 1 + 1)) with (Z.to_nat i) by lia.
    replace (Z.to_nat (i + 1)) with (S (Z.to_nat i)) by lia.
    rewrite (drop_S _ _ _ Hx), reverse_cons. by rewrite app_assoc.
  - f_equal. rewrite Ho. do 2 f_equal.
    replace (Z.to_nat _) with 0%nat by lia. done.
Qed.
End ArrayBacking.

Section ListBacking.
Import StackList.
Context {T : Type} `{Numeric T}.
Implicit Types (s : stackList) (xs vs : list T) (h : list (node T)).

Lemma chain_alloc h (p : ptr) vs (n : node T) :
  chain h p vs → chain (h ++ [n]) p vs.
Proof.
  revert p. induction vs as [|v vs IH]; intros p; cbn; [done|].
  intros (a & nx & -> & Ha & Hc). exists a, nx.
  split; [done|]. split; [by apply heap_lookup_old | by apply IH].
Qed.

Lemma Push_run s (v : T) h :
  top s ≠ int_sub (capacity s) 1 →
  Push s v h =
    Ret (({| topNode := Some (List.length h); top := int_add (top s) 1;
             capacity := capacity s |}, None),
         h ++ [{| Next := topNode s; Val := v |}]).
Proof.
  intros Hne. unfold Push.
  destruct (Z.eqb_spec (top s) (int_sub (capacity s) 1)) as [?|_]; [done|].
  unfold bind, alloc, modify, ret.
  rewrite heap_lookup_new, heap_insert_new.
  rewrite heap_lookup_new, heap_insert_new. done.
Qed.

Lemma Push_holds_list s xs (v : T) h :
  holds h s xs → is_int (capacity s) →
  Z.of_nat (List.length xs) < capacity s →
  ∃ s' h', Push s v h = Ret ((s', None), h') ∧ holds h' s' (xs ++ [v]) ∧
           capacity s' = capacity s.
Proof.
  intros [Hc Htop] Hint Hroom.
  assert (is_int (capacity s - 1) ∧ is_int (top s + 1)) as [Hi1 Hi2].
  { unfold is_int, int_min, int_max in *. lia. }
  eexists _, _. split.
  - apply Push_run. rewrite int_sub_small by done. lia.
  - split; [|done]. split; cbn [topNode top].
    + rewrite reverse_snoc. cbn. eexists _, _.
      split; [done|]. split; [apply heap_lookup_new|].
      by apply chain_alloc.
    + rewrite int_add_small by done. rewrite length_app. cbn. lia.
Qed.

Lemma Pop_holds_list s xs (v : T) h :
  holds h s (xs ++ [v]) → Z.of_nat (List.length xs) < int_max →
  ∃ s', Pop s h = Ret ((s', (v, None)), h) ∧ holds h s' xs ∧
        capacity s' = capacity s.
Proof.
  intros [Hc Htop] Hsmall.
  rewrite reverse_snoc in Hc. cbn in Hc.
  destruct Hc as (a & nx & Hp & Ha & Hc).
  rewrite length_app in Htop. cbn in Htop.
  unfold Pop.
  destruct (Z.eqb_spec (top s) (-1)) as [?|_]; [lia|].
  unfold bind, load, ret. rewrite Hp, Ha. cbn. rewrite Ha. cbn.
  eexists. split; [reflexivity|]. split; [|done].
  split; cbn [topNode top]; [done|].
  rewrite int_sub_small; [lia|].
  unfold is_int, int_min, int_max in *. lia.
Qed.

Lemma push_all_holds_list vs : ∀ s xs h,
  holds h s xs → is_int (capacity s) →
  Z.of_nat (List.length xs + List.length vs) <= capacity s →
  ∃ s' h', push_all s vs h = Ret ((s', replicate (List.length vs) None), h') ∧
           holds h' s' (xs ++ vs) ∧ capacity s' = capacity s.
Proof.
  induction vs as [|v vs IH]; intros s xs h Hs Hint Hroom.
  - exists s, h. by rewrite app_nil_r.
  - cbn in Hroom.
    destruct (Push_holds_list s xs v h Hs Hint) as (s1 & h1 & HP & H1 & Hc1);
      [lia|].
    destruct (IH s1 (xs ++ [v]) h1 H1) as (s2 & h2 & HA & H2 & Hc2).
    { by rewrite Hc1. }
    { rewrite Hc1, length_app. cbn. lia. }
    exists s2, h2. cbn. unfold bind. rewrite HP, HA. unfold ret.
    rewrite <- app_assoc in H2. split; [done|]. split; [done|congruence].
Qed.

Lemma pop_n_holds_list vs : ∀ s xs h,
  holds h s (xs ++ vs) →
  Z.of_nat (List.length xs + List.length vs) <= int_max →
  ∃ s', pop_n (List.length vs) s h
          = Ret ((s', (λ v, (v, None)) <$> reverse vs), h) ∧
        holds h s' xs.
Proof.
  induction vs as [|v vs IH] using rev_ind; intros s xs h Hs Hroom.
  - exists s. by rewrite app_nil_r in Hs.
  - rewrite length_app in Hroom. cbn in Hroom.
    rewrite app_assoc in Hs.
    destruct (Pop_holds_list s (xs ++ vs) v h Hs) as (s1 & HP & H1 & _).
    { rewrite length_app. lia. }
    destruct (IH s1 xs h H1) as (s2 & HA & H2); [lia|].
    exists s2. rewrite length_app, Nat.add_comm. cbn.
    unfold bind. rewrite HP, HA. unfold ret.
    by rewrite reverse_app.
Qed.

Lemma holds_NewList (cap : list Z) h : holds h (NewList cap) [].
Proof. destruct cap; by split. Qed.

Lemma is_int_capacity_NewList (cap : list Z) :
  Forall is_int cap → is_int (capacity (NewList cap)).
Proof.
  intros Hcap. destruct Hcap; cbn; [|done].
  unfold is_int, int_min, int_max, StackMaxSize. lia.
Qed.

(** C3. Both backings are LIFO.  From a fresh array stack, pushing at most
    [StackMaxSize] values succeeds each time, and as many pops succeed and
    return the values in reverse push order.  The same holds of a fresh
    list stack, of any capacity given to [NewList] (or the default one),
    for at most [capacity] values, in any heap. *)
Theorem stacks_are_LIFO (va vl : list T) (cap : list Z) h :
  Z.of_nat (List.length va) <= StackArray.StackMaxSize →
  Forall is_int cap →
  Z.of_nat (List.length vl) <= capacity (NewList cap) →
  (∃ t1 t2,
     StackArray.push_all StackArray.NewArray va
       = Ret (t1, replicate (List.length va) None) ∧
     StackArray.pop_n (List.length va) t1
       = Ret (t2, (λ v, (v, None)) <$> reverse va)) ∧
  (∃ s1 h1 s2,
     push_all (NewList cap) vl h
       = Ret ((s1, replicate (List.length vl) None), h1) ∧
     pop_n (List.length vl) s1 h1
       = Ret ((s2, (λ v, (v, None)) <$> reverse vl), h1)).
Proof.
  intros Ha Hcap Hl. split.
  - destruct (push_all_holds va StackArray.NewArray [] holds_NewArray)
      as (s1 & Hpush & H1); [done|].
    destruct (pop_n_holds va s1 [] H1) as (s2 & Hpop & _); [done|].
    by exists s1, s2.
  - pose proof (is_int_capacity_NewList cap Hcap) as Hint.
    destruct (push_all_holds_list vl (NewList cap) [] h (holds_NewList cap h) Hint)
      as (s1 & h1 & Hpush & H1 & _); [done|].
    destruct (pop_n_holds_list vl s1 [] h1 H1) as (s2 & Hpop & _).
    { unfold is_int in Hint. cbn. lia. }
    by exists s1, h1, s2.
Qed.
End ListBacking.

Lemma stacks_are_LIFO_witness :
  Z.of_nat (List.length [1; 2; 3]) <= StackArray.StackMaxSize ∧
  Forall is_int [3] ∧
  Z.of_nat (List.length [4; 5; 6]) <= StackList.capacity (StackList.NewList [3]) ∧
  (∃ s1 s2,
     StackArray.push_all StackArray.NewArray [1; 2; 3]
       = Ret (s1, [None; None; None]) ∧
     StackArray.pop_n 3 s1
       = Ret (s2, [(3, None); (2, None); (1, None)])) ∧
  (∃ s1 h1 s2,
     StackList.push_all (StackList.NewList [3]) [4; 5; 6] []
       = Ret ((s1, [None; None; None]), h1) ∧
     StackList.pop_n 3 s1 h1
       = Ret ((s2, [(6, None); (5, None); (4, None)]), h1)).
Proof.
  assert (Forall is_int [3]) as Hcap.
  { repeat constructor; discriminate. }
  split; [discriminate|]. split; [exact Hcap|]. split; [discriminate|].
  apply (stacks_are_LIFO (H := Numeric_int) [1; 2; 3] [4; 5; 6] [3] []);
    [discriminate | exact Hcap | discriminate].
Defined.

(** [ArrayStack<int>]: the pushes of 0..99 succeed, the 101st push fails
    with the overflow error, and the next pops return 99, then 98. *)
Example stackArray_overflow :
  (do (s, es) <- StackArray.push_all StackArray.NewArray (Z.of_nat <$> seq 0 100);
   do (s, e) <- StackArray.Push s 100;
   do (s, r1) <- StackArray.Pop s;
   do (s, r2) <- StackArray.Pop s;
   Ret (es, e, r1, r2))
  = Ret (replicate 100%nat None, Some "Stack Overflow!!!"%string,
         (99, None), (98, None)).
Proof. vm_compute. reflexivity. Qed.
End StackFacts.

Module SLLFacts.
Import SLL.
Section Facts.
Context {T : Type} `{Numeric T}.
Implicit Types (h : list (unidirectionalNode T)) (l : SinglyLinkedList).
Implicit Types (cells : list (loc * T)) (p q : ptr).

(** *** Segments *)

Lemma lseg_app h p q cells1 cells2 :
  lseg h p q (cells1 ++ cells2) ↔
  ∃ m, lseg h p m cells1 ∧ lseg h m q cells2.
Proof.
  revert p. induction cells1 as [|[a v] cells1 IH]; intros p; cbn.
  - split; [intros Hs; by exists p | by intros (m & -> & Hs)].
  - split.
    + intros (-> & nx & Ha & Hs). apply IH in Hs as (m & H1 & H2).
      exists m. split; [|done]. split; [done|]. by exists nx.
    + intros (m & (-> & nx & Ha & H1) & H2). split; [done|].
      exists nx. split; [done|]. apply IH. by exists m.
Qed.

Lemma lseg_snoc h p cells (a : loc) (v : T) :
  lseg h p None (cells ++ [(a, v)]) ↔
  lseg h p (Some a) cells ∧ h !! a = Some {| Next := None; Val := v |}.
Proof.
  rewrite lseg_app. cbn. split.
  - intros (m & H1 & -> & nx & Ha & ->). done.
  - intros [H1 Ha]. exists (Some a). split; [done|]. split; [done|].
    by exists None.
Qed.

Lemma lseg_bound h p q cells :
  lseg h p q cells → Forall (λ a, (a < List.length h)%nat) cells.*1.
Proof.
  revert p. induction cells as [|[a v] cells IH]; intros p; cbn.
  - constructor.
  - intros (_ & nx & Ha & Hs). constructor; [|by eapply IH].
    by eapply lookup_lt_Some.
Qed.

Lemma lseg_alloc h h' p q cells :
  lseg h p q cells → lseg (h ++ h') p q cells.
Proof.
  revert p. induction cells as [|[a v] cells IH]; intros p; cbn; [done|].
  intros (-> & nx & Ha & Hs). split; [done|]. exists nx.
  split; [by apply heap_lookup_old | by apply IH].
Qed.

Lemma lseg_modify_other h p q cells (a : loc) (n : unidirectionalNode T) :
  lseg h p q cells → a ∉ cells.*1 → lseg (<[a := n]> h) p q cells.
Proof.
  revert p. induction cells as [|[a' v] cells IH]; intros p; cbn; [done|].
  intros (-> & nx & Ha & Hs) Hnotin.
  apply not_elem_of_cons in Hnotin as [Hne Hnotin].
  split; [done|]. exists nx. split; [|by apply IH].
  by rewrite list_lookup_insert_ne.
Qed.

Lemma lseg_functional h p cells1 cells2 :
  lseg h p None cells1 → lseg h p None cells2 → cells1 = cells2.
Proof.
  revert p cells2. induction cells1 as [|[a v] cells1 IH];
    intros p [|[a' v'] cells2]; cbn.
  - done.
  - by intros -> (? & _).
  - by intros (-> & _) ?.
  - intros (-> & nx & Ha & H1) (Heq & nx' & Ha' & H2).
    injection Heq as <-. rewrite Ha in Ha'. injection Ha' as <- <-.
    f_equal. by eapply IH.
Qed.

(** A chain that ends at [nil] visits no node twice. *)
Lemma lseg_NoDup h p cells : lseg h p None cells → NoDup cells.*1.
Proof.
  revert p. induction cells as [|[a v] cells IH]; intros p Hs; cbn.
  - constructor.
  - pose proof Hs as Hall. cbn in Hs. destruct Hs as (-> & nx & Ha & Hs).
    constructor; [|by eapply IH].
    intros Hin. apply list_elem_of_fmap in Hin as ([a' v'] & Heq & Hin).
    cbn in Heq. subst a'.
    apply list_elem_of_split in Hin as (c1 & c2 & ->).
    apply lseg_app in Hs as (m & _ & Hs2).
    pose proof Hs2 as Hs2'. cbn in Hs2'. destruct Hs2' as (-> & _).
    pose proof (lseg_functional _ _ _ _ Hall Hs2) as Heq.
    apply (f_equal List.length) in Heq.
    cbn in Heq. rewrite length_app in Heq. cbn in Heq. lia.
Qed.

Lemma lseg_length_le h p cells :
  lseg h p None cells → (List.length cells <= List.length h)%nat.
Proof.
  intros Hs. pose proof (lseg_NoDup _ _ _ Hs) as Hnd.
  pose proof (lseg_bound _ _ _ _ Hs) as Hb.
  assert (cells.*1 ⊆+ seq 0 (List.length h)) as Hsub.
  { apply NoDup_submseteq; [done|]. intros a Ha. apply elem_of_seq.
    rewrite Forall_forall in Hb. specialize (Hb a Ha). lia. }
  apply submseteq_length in Hsub.
  by rewrite length_fmap, length_seq in Hsub.
Qed.

(** *** Reading loops *)

Lemma advance_lseg h p q cells :
  lseg h p q cells → advance (List.length cells) p h = Ret (q, h).
Proof.
  revert p. induction cells as [|[a v] cells IH]; intros p; cbn.
  - by intros ->.
  - intros (-> & nx & Ha & Hs). unfold bind, load. rewrite Ha. cbn.
    by apply IH.
Qed.

Lemma walk_to_last_lseg h cells : ∀ p (a : loc) (v : T) (fuel : nat),
  lseg h p None (cells ++ [(a, v)]) → (List.length cells < fuel)%nat →
  walk_to_last fuel p h = Ret (Some a, h).
Proof.
  induction cells as [|[b w] cells IH]; intros p a v fuel Hs Hfuel;
    (destruct fuel as [|fuel]; [lia|]); cbn in Hs |- *.
  - destruct Hs as (-> & nx & Ha & ->). unfold bind, load. by rewrite Ha.
  - destruct Hs as (-> & nx & Hb & Hs). unfold bind, load. rewrite Hb. cbn.
    destruct nx as [c|].
    + eapply IH; [done|]. cbn in Hfuel. lia.
    + destruct cells as [|[? ?] ?]; cbn in Hs; by destruct Hs.
Qed.

Lemma traverse_loop_lseg {A : Type} h (operation : T → A → A) cells :
  ∀ p (acc : A) (fuel : nat),
  lseg h p None cells → (List.length cells < fuel)%nat →
  traverse_loop fuel operation p acc h
    = Ret (foldl (λ acc v, operation v acc) acc cells.*2, h).
Proof.
  induction cells as [|[a v] cells IH]; intros p acc fuel Hs Hfuel;
    (destruct fuel as [|fuel]; [lia|]); cbn in Hs |- *.
  - by subst p.
  - destruct Hs as (-> & nx & Ha & Hs). unfold bind, load. rewrite Ha. cbn.
    apply IH; [done|]. cbn in Hfuel. lia.
Qed.

Lemma search_loop_lseg h (element : T) cells : ∀ p (fuel : nat),
  lseg h p None cells → (List.length cells < fuel)%nat →
  ∃ r, search_loop fuel element p h = Ret (r, h).
Proof.
  induction cells as [|[a v] cells IH]; intros p fuel Hs Hfuel;
    (destruct fuel as [|fuel]; [lia|]); cbn in Hs |- *.
  - subst p. by eexists.
  - destruct Hs as (-> & nx & Ha & Hs). unfold bind, load. rewrite Ha. cbn.
    destruct (num_eqb v element); [by eexists|].
    apply IH; [done|]. cbn in Hfuel. lia.
Qed.

Lemma count_from_lseg h cells : ∀ p (fuel : nat),
  lseg h p None cells → (List.length cells < fuel)%nat →
  count_from fuel h p = Some (Z.of_nat (List.length cells)).
Proof.
  induction cells as [|[a v] cells IH]; intros p fuel Hs Hfuel;
    (destruct fuel as [|fuel]; [lia|]); cbn in Hs |- *.
  - by subst p.
  - destruct Hs as (-> & nx & Ha & Hs). rewrite Ha. cbn [Next].
    rewrite (IH nx fuel Hs) by (cbn in Hfuel; lia).
    cbn [fmap option_fmap option_map]. f_equal. lia.
Qed.

Lemma repr_reachable_count h l cells :
  repr h l cells → reachable_count h l = Some (length l).
Proof.
  intros [Hs Hlen]. unfold reachable_count. rewrite Hlen.
  apply count_from_lseg; [done|].
  pose proof (lseg_length_le _ _ _ Hs). lia.
Qed.

Lemma repr_head_None h l cells :
  repr h l cells → (length l = 0 ↔ head l = None).
Proof.
  intros [Hs Hlen]. destruct cells as [|[a v] cells]; cbn in *.
  - done.
  - destruct Hs as (-> & _). split; [lia|done].
Qed.
(** *** Linking a new node after a node of the chain *)

Lemma lseg_link_after h p cells1 cells2 (a : loc) (va v : T) (nx : ptr) :
  lseg h p None (cells1 ++ (a, va) :: cells2) →
  h !! a = Some {| Next := nx; Val := va |} →
  lseg (<[a := {| Next := Some (List.length h); Val := va |}]>
          (h ++ [{| Next := nx; Val := v |}]))
       p None (cells1 ++ (a, va) :: (List.length h, v) :: cells2).
Proof.
  intros Hs Ha. pose proof (lseg_NoDup _ _ _ Hs) as Hnd.
  rewrite fmap_app, fmap_cons in Hnd. cbn in Hnd.
  apply NoDup_app in Hnd as (_ & Hnot1 & Hnd).
  apply NoDup_cons in Hnd as [Hnot2 _].
  assert (a ∉ cells1.*1) as Hnot1'.
  { intros Hin. apply (Hnot1 a Hin). by left. }
  pose proof (lookup_lt_Some _ _ _ Ha) as Hlt.
  apply lseg_app in Hs as (m & Hs1 & Hs2).
  cbn in Hs2. destruct Hs2 as (-> & nx' & Ha' & Hs2).
  rewrite Ha in Ha'. injection Ha' as <-.
  apply lseg_app. exists (Some a). split.
  - apply lseg_modify_other; [|done]. by apply lseg_alloc.
  - cbn. split; [done|]. eexists. split.
    { apply list_lookup_insert_eq. rewrite length_app. cbn. lia. }
    split; [done|]. exists nx. split.
    + rewrite list_lookup_insert_ne by lia. apply heap_lookup_new.
    + apply lseg_modify_other; [|done]. by apply lseg_alloc.
Qed.

(** *** Insertions *)

Lemma InsertAtBeginning_repr h l cells (v : T) :
  repr h l cells → Z.of_nat (List.length cells) < int_max →
  ∃ l' h',
    InsertAtBeginning l v h = Ret ((l', None), h') ∧
    repr h' l' ((List.length h, v) :: cells) ∧
    length l' = length l + 1.
Proof.
  intros [Hs Hlen] Hsmall. unfold InsertAtBeginning, bind, alloc, ret.
  eexists _, _. split; [reflexivity|]. cbn [head length].
  assert (int_add (length l) 1 = length l + 1) as ->.
  { apply int_add_small. unfold is_int, int_min, int_max in *. lia. }
  split; [|done]. split; cbn [head length].
  - cbn. split; [done|]. exists (head l).
    split; [apply heap_lookup_new | by apply lseg_alloc].
  - cbn [List.length]. lia.
Qed.

Lemma InsertAtEnd_empty (fuel : nat) h l (v : T) :
  head l = None →
  InsertAtEnd fuel l v h
    = Ret ((l, Some "Cannot insert at end of empty list"%string), h).
Proof. intros Hhd. unfold InsertAtEnd. by rewrite Hhd. Qed.

Lemma InsertAtEnd_repr (fuel : nat) h l cells (v : T) :
  repr h l cells → cells ≠ [] →
  (List.length cells <= fuel)%nat →
  Z.of_nat (List.length cells) < int_max →
  ∃ l' h',
    InsertAtEnd fuel l v h = Ret ((l', None), h') ∧
    repr h' l' (cells ++ [(List.length h, v)]) ∧
    length l' = length l + 1.
Proof.
  intros [Hs Hlen] Hne Hfuel Hsmall.
  destruct (exists_last Hne) as (cells1 & [a va] & ->).
  rewrite length_app in Hfuel, Hsmall, Hlen. cbn in Hfuel, Hsmall, Hlen.
  pose proof Hs as Hs'. apply lseg_snoc in Hs' as [Hs1 Ha].
  unfold InsertAtEnd.
  destruct (head l) as [hd|] eqn:Hhd.
  2:{ destruct cells1 as [|[? ?] ?]; cbn in Hs; by destruct Hs. }
  unfold bind at 1. unfold alloc at 1.
  unfold bind at 1.
  rewrite (walk_to_last_lseg _ cells1 _ a va) by (by apply lseg_alloc || lia).
  unfold bind, modify, ret.
  rewrite (heap_lookup_old _ _ _ _ Ha).
  assert (int_add (length l) 1 = length l + 1) as ->.
  { apply int_add_small. unfold is_int, int_min, int_max in *. lia. }
  eexists _, _. split; [reflexivity|]. split; [|done].
  split; cbn [head length].
  - rewrite <- app_assoc. cbn. by apply lseg_link_after.
  - rewrite !length_app. cbn. lia.
Qed.

Lemma InsertAtPosition_out_of_bounds (fuel : nat) h l (v : T) (pos : Z) :
  pos < 0 ∨ pos > length l →
  InsertAtPosition fuel l v pos h
    = Ret ((l, Some "Invalid position for insertion"%string), h).
Proof.
  intros Hpos. unfold InsertAtPosition.
  replace ((pos <? 0) || (pos >? length l)) with true; [done|].
  symmetry. apply orb_true_iff. lia.
Qed.

Lemma InsertAtPosition_front (fuel : nat) h l (v : T) :
  0 <= length l →
  InsertAtPosition fuel l v 0 h = InsertAtBeginning l v h.
Proof.
  intros Hlen. unfold InsertAtPosition.
  replace ((0 <? 0) || (0 >? length l)) with false; [done|].
  symmetry. apply orb_false_iff. lia.
Qed.

Lemma InsertAtPosition_before_last (fuel : nat) h l (v : T) (pos : Z) :
  is_int (length l) → 0 < pos → pos = length l - 1 →
  InsertAtPosition fuel l v pos h = InsertAtEnd fuel l v h.
Proof.
  intros Hint Hpos Hlast. unfold InsertAtPosition.
  replace ((pos <? 0) || (pos >? length l)) with false
    by (symmetry; apply orb_false_iff; lia).
  replace (pos =? 0) with false by lia.
  rewrite int_sub_small.
  - by replace (pos =? length l - 1) with true by lia.
  - unfold is_int, int_min, int_max in *. lia.
Qed.

(** The general path of [InsertAtPosition]: the new node is linked after
    [pos] predecessors. *)
Lemma InsertAtPosition_middle (fuel : nat) h l cells (v : T) (pos : Z) :
  repr h l cells → Z.of_nat (List.length cells) < int_max →
  0 < pos <= length l → pos ≠ length l - 1 →
  ∃ l' h',
    InsertAtPosition fuel l v pos h = Ret ((l', None), h') ∧
    repr h' l' (take (Z.to_nat pos) cells
                  ++ (List.length h, v) :: drop (Z.to_nat pos) cells) ∧
    length l' = length l + 1.
Proof.
  intros [Hs Hlen] Hsmall Hpos Hnl.
  assert (is_int (length l - 1) ∧ is_int (length l + 1)) as [Hi1 Hi2].
  { unfold is_int, int_min, int_max in *. lia. }
  unfold InsertAtPosition.
  replace ((pos <? 0) || (pos >? length l)) with false
    by (symmetry; apply orb_false_iff; lia).
  replace (pos =? 0) with false by lia.
  rewrite int_sub_small by done.
  replace (pos =? length l - 1) with false by lia.
  set (i := Z.to_nat (pos - 1)).
  destruct (lookup_lt_is_Some_2 cells i) as [[a va] Hcell]; [lia|].
  pose proof (take_drop_middle _ _ _ Hcell) as Hsplit.
  rewrite <- Hsplit in Hs.
  pose proof Hs as Hs'. apply lseg_app in Hs' as (m & Hs1 & Hs2).
  cbn in Hs2. destruct Hs2 as (-> & nx & Ha & Hs2).
  unfold bind at 1. unfold alloc at 1. unfold bind at 1.
  pose proof (advance_lseg _ _ _ _
    (lseg_alloc _ [{| Next := None; Val := v |}] _ _ _ Hs1)) as Hadv.
  rewrite length_take in Hadv.
  replace (i `min` List.length cells)%nat with i in Hadv by lia.
  rewrite Hadv.
  unfold bind, load, modify, ret.
  rewrite (heap_lookup_old _ _ _ _ Ha). cbn [Next].
  rewrite heap_lookup_new, heap_insert_new.
  rewrite (heap_lookup_old _ _ _ _ Ha).
  rewrite int_add_small by done.
  eexists _, _. split; [reflexivity|]. split; [|done].
  replace (Z.to_nat pos) with (S i) by lia.
  rewrite (take_S_r _ _ _ Hcell), <- app_assoc. cbn [app].
  split; cbn [head length].
  - by apply lseg_link_after.
  - rewrite length_app. cbn [List.length].
    rewrite length_take, length_drop. lia.
Qed.
(** *** Deletions *)

Lemma DeleteFromBeginning_empty h l :
  length l = 0 →
  DeleteFromBeginning l h
    = Ret ((l, (zero, Some "Cannot delete from an empty list!"%string)), h).
Proof. intros Hl. unfold DeleteFromBeginning. by rewrite Hl. Qed.

Lemma DeleteFromBeginning_repr h l cells (a : loc) (v : T) :
  repr h l ((a, v) :: cells) →
  Z.of_nat (List.length cells) < int_max →
  ∃ l',
    DeleteFromBeginning l h = Ret ((l', (v, None)), h) ∧ repr h l' cells.
Proof.
  intros [Hs Hlen] Hsmall. cbn in Hs, Hlen.
  destruct Hs as (Hhd & nx & Ha & Hs).
  unfold DeleteFromBeginning.
  replace (length l =? 0) with false by lia.
  unfold bind, load, ret. rewrite Hhd, Ha. cbn. rewrite Ha. cbn.
  eexists. split; [reflexivity|]. split; cbn [head length]; [done|].
  rewrite int_sub_small; [lia|].
  unfold is_int, int_min, int_max in *. lia.
Qed.

Lemma walk_to_before_tail_lseg h mid :
  ∀ (x : loc) (vx : T) q (a b : loc) (va vb : T) (fuel : nat),
  h !! x = Some {| Next := q; Val := vx |} →
  lseg h q None (mid ++ [(b, vb)]) →
  last ((x, vx) :: mid) = Some (a, va) →
  (List.length mid < fuel)%nat →
  walk_to_before_tail fuel (Some x) q h = Ret ((Some a, Some b), h).
Proof.
  induction mid as [|[y vy] mid IH];
    intros x vx q a b va vb fuel Hx Hs Hlast Hfuel;
    (destruct fuel as [|fuel]; [lia|]); cbn in Hs; cbn [walk_to_before_tail].
  - destruct Hs as (-> & nx & Hb & ->). cbn in Hlast.
    injection Hlast as <- <-.
    unfold bind, load, ret. rewrite Hx. cbn. by rewrite Hb.
  - destruct Hs as (-> & q' & Hy & Hs).
    assert (∃ c, q' = Some c) as [c ->].
    { destruct mid as [|[? ?] ?]; cbn in Hs; destruct Hs as [-> _]; eauto. }
    unfold bind, load. rewrite Hx. cbn. rewrite Hy. cbn. rewrite Hy. cbn.
    eapply IH; [done|done| |cbn in Hfuel; lia].
    by rewrite last_cons_cons in Hlast.
Qed.

Lemma DeleteFromEnd_empty (fuel : nat) h l :
  length l = 0 →
  DeleteFromEnd fuel l h
    = Ret ((l, (zero, Some "Cannot delete from an empty list!"%string)), h).
Proof. intros Hl. unfold DeleteFromEnd. by rewrite Hl. Qed.

Lemma DeleteFromEnd_repr (fuel : nat) h l cells (b : loc) (vb : T) :
  repr h l (cells ++ [(b, vb)]) →
  (List.length cells <= fuel)%nat →
  Z.of_nat (List.length cells) < int_max →
  ∃ l' h',
    DeleteFromEnd fuel l h = Ret ((l', (vb, None)), h') ∧ repr h' l' cells.
Proof.
  intros Hr Hfuel Hsmall.
  destruct cells as [|[x vx] mid].
  { destruct (DeleteFromBeginning_repr h l [] b vb Hr) as (l' & Hrun & Hr');
      [cbn; unfold int_max; lia|].
    exists l', h. split; [|done].
    destruct Hr as [_ Hlen]. cbn in Hlen.
    unfold DeleteFromEnd. rewrite Hlen. done. }
  destruct Hr as [Hs Hlen].
  destruct (exists_last (l := (x, vx) :: mid)) as (pre & [a va] & Hpre);
    [done|].
  assert (last ((x, vx) :: mid) = Some (a, va)) as Hlast.
  { rewrite Hpre. apply last_snoc. }
  pose proof Hs as Hs'. rewrite Hpre in Hs'.
  pose proof (lseg_NoDup _ _ _ Hs') as Hnd.
  rewrite !fmap_app in Hnd. cbn in Hnd.
  apply NoDup_app in Hnd as (Hnd & Hnotb & _).
  apply NoDup_app in Hnd as (_ & Hnota & _).
  assert (a ≠ b) as Hab.
  { intros ->. apply (Hnotb b); [|by left].
    apply elem_of_app. right. by left. }
  assert (a ∉ pre.*1) as Hapre.
  { intros Hin. apply (Hnota a Hin). by left. }
  apply lseg_app in Hs' as (m & Hs1 & Hs2).
  cbn in Hs2. destruct Hs2 as (-> & nb & Hb & ->).
  apply lseg_app in Hs1 as (m & Hs1 & Hs2).
  cbn in Hs2. destruct Hs2 as (-> & nx & Ha & ->).
  cbn in Hs. destruct Hs as (Hhd & q & Hx & Hs).
  rewrite length_app in Hlen. cbn in Hlen, Hfuel, Hsmall.
  unfold DeleteFromEnd.
  replace (length l =? 0) with false by lia.
  replace (length l =? 1) with false by lia.
  unfold bind at 1. unfold load at 1. rewrite Hhd, Hx. cbn [Next].
  unfold bind at 1.
  rewrite (walk_to_before_tail_lseg h mid x vx q a b va vb fuel)
    by (done || lia).
  unfold bind, modify, load, ret. rewrite Ha.
  rewrite list_lookup_insert_ne by done. rewrite Hb. cbn [Val].
  eexists _, _. split; [reflexivity|].
  rewrite Hpre. split; cbn [head length].
  - apply lseg_snoc. split.
    + rewrite Hhd in Hs1. by apply lseg_modify_other.
    + apply list_lookup_insert_eq. by eapply lookup_lt_Some.
  - rewrite int_sub_small by (unfold is_int, int_min, int_max in *; lia).
    apply (f_equal List.length) in Hpre. rewrite length_app in Hpre.
    rewrite length_app. cbn in Hpre |- *. lia.
Qed.

Lemma DeleteAtPosition_out_of_bounds (fuel : nat) h l (pos : Z) :
  pos < 0 ∨ pos >= length l →
  DeleteAtPosition fuel l pos h
    = Ret ((l, (zero, Some "invalid position for deletion"%string)), h).
Proof.
  intros Hpos. unfold DeleteAtPosition.
  replace ((pos <? 0) || (pos >=? length l)) with true; [done|].
  symmetry. apply orb_true_iff. lia.
Qed.

(** A position in range: [DeleteAtPosition] returns the value at [pos] and
    the node at [pos] leaves the list. *)
Lemma DeleteAtPosition_repr (fuel : nat) h l cells (pos : Z) :
  repr h l cells →
  (List.length cells <= S fuel)%nat →
  Z.of_nat (List.length cells) <= int_max →
  0 <= pos < length l →
  ∃ (b : loc) (vb : T) l' h',
    cells !! Z.to_nat pos = Some (b, vb) ∧
    DeleteAtPosition fuel l pos h = Ret ((l', (vb, None)), h') ∧
    repr h' l' (delete (Z.to_nat pos) cells).
Proof.
  intros Hr Hfuel Hsmall Hpos.
  pose proof Hr as [Hs Hlen].
  assert (is_int (length l - 1)) as Hint.
  { unfold is_int, int_min, int_max in *. lia. }
  destruct (lookup_lt_is_Some_2 cells (Z.to_nat pos)) as [[b vb] Hcell];
    [lia|].
  exists b, vb.
  enough (∃ l' h',
    DeleteAtPosition fuel l pos h = Ret ((l', (vb, None)), h') ∧
    repr h' l' (delete (Z.to_nat pos) cells)) as (l' & h' & Hrun & Hr').
  { by exists l', h'. }
  unfold DeleteAtPosition.
  replace ((pos <? 0) || (pos >=? length l)) with false
    by (symmetry; apply orb_false_iff; lia).
  destruct (Z.eqb_spec pos 0) as [->|Hn0].
  { destruct cells as [|[a va] cells]; [done|].
    cbn in Hcell. injection Hcell as -> ->.
    destruct (DeleteFromBeginning_repr h l cells b vb Hr) as (l' & Hrun & Hr').
    { cbn in Hsmall. lia. }
    by exists l', h. }
  rewrite int_sub_small by done.
  destruct (Z.eqb_spec pos (length l - 1)) as [Hlast|Hnl].
  { destruct (exists_last (l := cells)) as (pre & [b' vb'] & ->).
    { intros ->. cbn in Hlen. lia. }
    rewrite length_app in Hlen, Hfuel, Hsmall. cbn in Hlen, Hfuel, Hsmall.
    replace (Z.to_nat pos) with (List.length pre) in * by lia.
    rewrite lookup_app_r, Nat.sub_diag in Hcell by lia.
    cbn in Hcell. injection Hcell as -> ->.
    destruct (DeleteFromEnd_repr fuel h l pre b vb Hr) as (l' & h' & Hrun & Hr');
      [lia|lia|].
    exists l', h'. split; [done|].
    rewrite delete_take_drop, take_app_length.
    rewrite drop_ge by (rewrite length_app; cbn; lia).
    by rewrite app_nil_r. }
  set (i := Z.to_nat (pos - 1)).
  replace (Z.to_nat pos) with (S i) in * by lia.
  destruct (lookup_lt_is_Some_2 cells i) as [[a va] Hprev]; [lia|].
  assert (cells = take i cells ++ (a, va) :: (b, vb) :: drop (S (S i)) cells)
    as Hsplit.
  { rewrite <- (take_drop_middle _ _ _ Hprev) at 1. do 2 f_equal.
    by apply drop_S. }
  rewrite Hsplit in Hs.
  pose proof (lseg_NoDup _ _ _ Hs) as Hnd.
  rewrite fmap_app, !fmap_cons in Hnd. cbn in Hnd.
  apply NoDup_app in Hnd as (_ & Hnot1 & Hnd).
  apply NoDup_cons in Hnd as [Hnot2 _].
  assert (a ∉ (take i cells).*1) as Hnot1'.
  { intros Hin. apply (Hnot1 a Hin). by left. }
  assert (a ∉ (drop (S (S i)) cells).*1) as Hnot2'.
  { intros Hin. apply Hnot2. by right. }
  apply lseg_app in Hs as (m & Hs1 & Hs2).
  cbn in Hs2. destruct Hs2 as (-> & na & Ha & -> & nx & Hb & Hs2).
  rewrite int_sub_small
    by (unfold is_int, int_min, int_max in *; lia).
  replace (Z.to_nat (pos - 1 - 0)) with i by lia.
  pose proof (advance_lseg _ _ _ _ Hs1) as Hadv.
  rewrite length_take in Hadv.
  replace (i `min` List.length cells)%nat with i in Hadv by lia.
  unfold bind at 1. rewrite Hadv.
  unfold bind, load, modify, ret. rewrite Ha. cbn [Next]. rewrite Hb.
  rewrite Ha. cbn [Next Val].
  eexists _, _. split; [reflexivity|].
  rewrite delete_take_drop, (take_S_r _ _ _ Hprev), <- app_assoc. cbn [app].
  split; cbn [head length].
  - apply lseg_app. exists (Some a). split; [by apply lseg_modify_other|].
    cbn. split; [done|]. exists nx. split.
    + apply list_lookup_insert_eq. by eapply lookup_lt_Some.
    + by apply lseg_modify_other.
  - rewrite length_app. cbn [List.length].
    rewrite length_take, length_drop. lia.
Qed.

(** *** Every operation keeps the representation *)

Lemma InsertAtPosition_repr (fuel : nat) h l cells (v : T) (pos : Z) :
  repr h l cells →
  (List.length cells <= fuel)%nat →
  Z.of_nat (List.length cells) < int_max →
  0 <= pos <= length l →
  ∃ l' h' cells',
    InsertAtPosition fuel l v pos h = Ret ((l', None), h') ∧
    repr h' l' cells' ∧ List.length cells' = S (List.length cells) ∧
    length l' = length l + 1.
Proof.
  intros Hr Hfuel Hsmall Hpos.
  assert (0 <= length l ∧ is_int (length l)) as [Hnn Hint].
  { destruct Hr as [_ ->]. unfold is_int, int_min, int_max in *. lia. }
  destruct (Z.eq_dec pos 0) as [->|Hn0].
  { rewrite InsertAtPosition_front by done.
    destruct (InsertAtBeginning_repr h l cells v Hr Hsmall)
      as (l' & h' & Hrun & Hr' & Hl).
    by exists l', h', ((List.length h, v) :: cells). }
  destruct (Z.eq_dec pos (length l - 1)) as [Hlast|Hnl].
  { rewrite InsertAtPosition_before_last by (done || lia).
    destruct (InsertAtEnd_repr fuel h l cells v Hr)
      as (l' & h' & Hrun & Hr' & Hl); try done.
    - intros ->. destruct Hr as [_ Hl]. cbn in Hl. lia.
    - exists l', h', (cells ++ [(List.length h, v)]).
      rewrite length_app. cbn.
      split; [done|]. split; [done|]. split; [lia|done]. }
  destruct (InsertAtPosition_middle fuel h l cells v pos Hr Hsmall)
    as (l' & h' & Hrun & Hr' & Hl); [lia|done|].
  eexists l', h', _. split; [done|]. split; [done|]. split; [|done].
  destruct Hr as [_ Hlen].
  rewrite length_app. cbn. rewrite length_take, length_drop. lia.
Qed.

Lemma step_tracked (fuel k : nat) (o : op T) h st :
  tracked k h st → (k < fuel)%nat → Z.of_nat k < int_max →
  ∃ st' h', step fuel o st h = Ret (st', h') ∧ tracked (S k) h' st'.
Proof.
  destruct st as [l t]. intros (cells & Hr & Hk & Htally) Hfuel Hsmall.
  cbn [fst snd] in *. pose proof Hr as [Hs Hlen].
  assert (∀ l' h' cells' e,
    repr h' l' cells' →
    Z.of_nat (List.length cells')
      = Z.of_nat (List.length cells) + (if e : error is None then 1 else 0) →
    tracked (S k) h' (l', count_insert e t)) as Hins.
  { intros l' h' cells' e Hr' Hn. exists cells'. cbn [fst snd].
    split; [done|]. destruct e; cbn; split; lia. }
  assert (∀ l' h' cells' e,
    repr h' l' cells' →
    Z.of_nat (List.length cells')
      = Z.of_nat (List.length cells) - (if e : error is None then 1 else 0) →
    tracked (S k) h' (l', count_delete e t)) as Hdel.
  { intros l' h' cells' e Hr' Hn. exists cells'. cbn [fst snd].
    split; [done|]. destruct e; cbn; split; lia. }
  assert (tracked (S k) h (l, t)) as Hsame.
  { exists cells. cbn [fst snd]. split; [done|]. split; lia. }
  destruct o as [v|v|v pos| | |pos| |v]; cbn [step]; unfold bind.
  - destruct (InsertAtBeginning_repr h l cells v Hr) as (l' & h' & -> & Hr' & _);
      [lia|].
    eexists _, _. split; [reflexivity|].
    eapply (Hins _ _ _ None); [done|]. cbn. lia.
  - destruct cells as [|c cells'] eqn:Hc.
    + rewrite InsertAtEnd_empty by (by cbn in Hs).
      eexists _, _. split; [reflexivity|].
      eapply (Hins _ _ _ (Some _)); [done|]. lia.
    + rewrite <- Hc in *.
      destruct (InsertAtEnd_repr fuel h l cells v Hr) as (l' & h' & -> & Hr' & _);
        [by rewrite Hc|lia|lia|].
      eexists _, _. split; [reflexivity|].
      eapply (Hins _ _ _ None); [done|]. rewrite length_app. cbn. lia.
  - destruct (decide (0 <= pos <= length l)) as [Hpos|Hpos].
    + destruct (InsertAtPosition_repr fuel h l cells v pos Hr)
        as (l' & h' & cells' & -> & Hr' & Hn & _); [lia|lia|done|].
      eexists _, _. split; [reflexivity|].
      eapply (Hins _ _ _ None); [done|]. lia.
    + rewrite InsertAtPosition_out_of_bounds by lia.
      eexists _, _. split; [reflexivity|].
      eapply (Hins _ _ _ (Some _)); [done|]. lia.
  - destruct cells as [|[a v] cells'].
    + rewrite DeleteFromBeginning_empty by done.
      eexists _, _. split; [reflexivity|].
      eapply (Hdel _ _ _ (Some _)); [done|]. lia.
    + destruct (DeleteFromBeginning_repr h l cells' a v Hr) as (l' & -> & Hr').
      { cbn in Hk. lia. }
      eexists _, _. split; [reflexivity|].
      eapply (Hdel _ _ _ None); [done|]. cbn. lia.
  - destruct (decide (cells = [])) as [->|Hne].
    + rewrite DeleteFromEnd_empty by done.
      eexists _, _. split; [reflexivity|].
      eapply (Hdel _ _ _ (Some _)); [done|]. lia.
    + destruct (exists_last Hne) as (pre & [b vb] & ->).
      rewrite length_app in Hk, Hlen. cbn in Hk, Hlen.
      destruct (DeleteFromEnd_repr fuel h l pre b vb Hr)
        as (l' & h' & -> & Hr'); [lia|lia|].
      eexists _, _. split; [reflexivity|].
      eapply (Hdel _ _ _ None); [done|]. rewrite length_app. cbn. lia.
  - destruct (decide (0 <= pos < length l)) as [Hpos|Hpos].
    + destruct (DeleteAtPosition_repr fuel h l cells pos Hr)
        as (b & vb & l' & h' & Hcell & -> & Hr'); [lia|lia|done|].
      eexists _, _. split; [reflexivity|].
      eapply (Hdel _ _ _ None); [done|].
      rewrite length_delete by eauto. lia.
    + rewrite DeleteAtPosition_out_of_bounds by lia.
      eexists _, _. split; [reflexivity|].
      eapply (Hdel _ _ _ (Some _)); [done|]. lia.
  - unfold Traverse. rewrite (traverse_loop_lseg h _ cells) by (done || lia).
    by eexists _, _.
  - unfold Search.
    destruct (search_loop_lseg h v cells (head l) fuel) as [r ->];
      [done|lia|].
    by eexists _, _.
Qed.

Lemma run_tracked (fuel : nat) (ops : list (op T)) : ∀ (k : nat) h st,
  tracked k h st →
  (k + List.length ops <= fuel)%nat →
  Z.of_nat (k + List.length ops) <= int_max →
  ∃ st' h',
    run fuel ops st h = Ret (st', h') ∧ tracked (k + List.length ops) h' st'.
Proof.
  induction ops as [|o ops IH]; intros k h st Htr Hfuel Hsmall.
  - exists st, h. by rewrite Nat.add_0_r.
  - cbn [List.length] in *.
    destruct (step_tracked fuel k o h st Htr) as (st1 & h1 & Hstep & Htr1);
      [lia|lia|].
    destruct (IH (S k) h1 st1 Htr1) as (st2 & h2 & Hrun & Htr2); [lia|lia|].
    exists st2, h2. cbn [run]. unfold bind. rewrite Hstep.
    split; [done|]. by replace (k + S (List.length ops))%nat
      with (S k + List.length ops)%nat by lia.
Qed.

(** C9. After any sequence of operations on a new list, [length] is the
    number of nodes reachable from [head] by following [Next] (so that
    [length == 0] exactly when [head] is [nil]), and it is the number of
    successful insertions minus the number of successful deletions. *)
Theorem length_counts_nodes_and_net_insertions
    (fuel : nat) (ops : list (op T)) h0 :
  (List.length ops <= fuel)%nat →
  Z.of_nat (List.length ops) <= int_max →
  ∃ l t h,
    run fuel ops (NewSLL, {| inserted := 0; deleted := 0 |}) h0
      = Ret ((l, t), h) ∧
    reachable_count h l = Some (length l) ∧
    (length l = 0 ↔ head l = None) ∧
    length l = inserted t - deleted t.
Proof.
  intros Hfuel Hsmall.
  destruct (run_tracked fuel ops 0 h0
              (NewSLL, {| inserted := 0; deleted := 0 |}))
    as ([l t] & h & Hrun & cells & Hr & _ & Htally); [|done|done|].
  { exists []. by repeat split. }
  cbn [fst snd] in *. exists l, t, h. split; [done|].
  split; [by eapply repr_reachable_count|].
  split; [by eapply repr_head_None|].
  destruct Hr as [_ ->]. lia.
Qed.

(** C6. [InsertAtEnd] on a list without head returns the error "Cannot
    insert at end of empty list" and changes nothing; on a non-empty list
    it succeeds, the nodes of the list are followed by one new node that
    holds [v], and [length] grows by one. *)
Theorem InsertAtEnd_spec (fuel : nat) h l cells (v : T) :
  repr h l cells →
  (List.length cells <= fuel)%nat →
  Z.of_nat (List.length cells) < int_max →
  (head l = None →
   InsertAtEnd fuel l v h
     = Ret ((l, Some "Cannot insert at end of empty list"%string), h)) ∧
  (head l ≠ None →
   ∃ l' h',
     InsertAtEnd fuel l v h = Ret ((l', None), h') ∧
     repr h' l' (cells ++ [(List.length h, v)]) ∧
     length l' = length l + 1).
Proof.
  intros Hr Hfuel Hsmall. split.
  - apply InsertAtEnd_empty.
  - intros Hhd. apply InsertAtEnd_repr; try done.
    intros ->. destruct Hr as [Hs _]. by cbn in Hs.
Qed.

(** C4. [InsertAtPosition] returns the error "Invalid position for
    insertion", changing nothing, exactly when [pos < 0] or
    [pos > length]; otherwise it succeeds and [length] grows by one.
    Among the positions in range, at [pos == 0] it is [InsertAtBeginning];
    at [pos == length-1], [pos != 0], it is [InsertAtEnd]; at any other
    position the new node holding [v] comes after exactly [pos] nodes of
    the list. *)
Theorem InsertAtPosition_spec (fuel : nat) h l cells (v : T) (pos : Z) :
  repr h l cells →
  (List.length cells <= fuel)%nat →
  Z.of_nat (List.length cells) < int_max →
  (pos < 0 ∨ pos > length l →
   InsertAtPosition fuel l v pos h
     = Ret ((l, Some "Invalid position for insertion"%string), h)) ∧
  (0 <= pos <= length l →
   ∃ l' h',
     InsertAtPosition fuel l v pos h = Ret ((l', None), h') ∧
     length l' = length l + 1) ∧
  (pos = 0 →
   InsertAtPosition fuel l v pos h = InsertAtBeginning l v h) ∧
  (0 <= pos <= length l → pos = length l - 1 → pos ≠ 0 →
   InsertAtPosition fuel l v pos h = InsertAtEnd fuel l v h) ∧
  (0 < pos <= length l → pos ≠ length l - 1 →
   ∃ l' h',
     InsertAtPosition fuel l v pos h = Ret ((l', None), h') ∧
     repr h' l' (take (Z.to_nat pos) cells
                   ++ (List.length h, v) :: drop (Z.to_nat pos) cells) ∧
     length l' = length l + 1).
Proof.
  intros Hr Hfuel Hsmall.
  assert (0 <= length l ∧ is_int (length l)) as [Hnn Hint].
  { destruct Hr as [_ ->]. unfold is_int, int_min, int_max in *. lia. }
  split; [apply InsertAtPosition_out_of_bounds|].
  split; [|split; [|split]].
  - intros Hpos.
    destruct (Z.eq_dec pos 0) as [->|Hn0].
    { rewrite InsertAtPosition_front by done.
      destruct (InsertAtBeginning_repr h l cells v Hr Hsmall)
        as (l' & h' & Hrun & _ & Hl).
      by exists l', h'. }
    destruct (Z.eq_dec pos (length l - 1)) as [Hlast|Hnl].
    { rewrite InsertAtPosition_before_last by (done || lia).
      destruct (InsertAtEnd_repr fuel h l cells v Hr)
        as (l' & h' & Hrun & _ & Hl); try done.
      - intros ->. destruct Hr as [_ Hl]. cbn in Hl. lia.
      - by exists l', h'. }
    destruct (InsertAtPosition_middle fuel h l cells v pos Hr Hsmall)
      as (l' & h' & Hrun & _ & Hl); [lia|done|].
    by exists l', h'.
  - intros ->. by apply InsertAtPosition_front.
  - intros Hpos Hlast Hn0.
    apply InsertAtPosition_before_last; [done|lia|done].
  - intros Hpos Hnl. by apply InsertAtPosition_middle.
Qed.

(** C10. [InsertAtPosition(v, length)] succeeds on every list, the empty
    one included, and the new node holding [v] is the last of the list.
    This is so although [InsertAtEnd] rejects the empty list, and although
    the delegation at [pos == length-1] also puts [v] last, not before the
    last node. *)
Theorem InsertAtPosition_at_length (fuel : nat) h l cells (v : T) :
  repr h l cells →
  Z.of_nat (List.length cells) < int_max →
  (∃ l' h',
     InsertAtPosition fuel l v (length l) h = Ret ((l', None), h') ∧
     repr h' l' (cells ++ [(List.length h, v)]) ∧
     length l' = length l + 1) ∧
  InsertAtEnd fuel NewSLL v h
    = Ret ((NewSLL, Some "Cannot insert at end of empty list"%string), h) ∧
  (1 < length l → (List.length cells <= fuel)%nat →
   ∃ l' h',
     InsertAtPosition fuel l v (length l - 1) h = Ret ((l', None), h') ∧
     repr h' l' (cells ++ [(List.length h, v)])).
Proof.
  intros Hr Hsmall.
  assert (0 <= length l ∧ is_int (length l)) as [Hnn Hint].
  { destruct Hr as [_ ->]. unfold is_int, int_min, int_max in *. lia. }
  split; [|split].
  - destruct (Z.eq_dec (length l) 0) as [H0|Hn0].
    + rewrite H0, InsertAtPosition_front by done.
      destruct (InsertAtBeginning_repr h l cells v Hr Hsmall)
        as (l' & h' & Hrun & Hr' & Hl).
      exists l', h'. split; [done|]. split; [|lia].
      destruct Hr as [_ Hlen]. destruct cells; [done|cbn in Hlen; lia].
    + destruct (InsertAtPosition_middle fuel h l cells v (length l) Hr Hsmall)
        as (l' & h' & Hrun & Hr' & Hl); [lia|lia|].
      exists l', h'. split; [done|]. split; [|done].
      destruct Hr as [_ Hlen].
      rewrite take_ge, drop_ge in Hr' by lia. done.
  - by apply InsertAtEnd_empty.
  - intros Hlong Hfuel.
    rewrite InsertAtPosition_before_last by (done || lia).
    destruct (InsertAtEnd_repr fuel h l cells v Hr)
      as (l' & h' & Hrun & Hr' & _); try done.
    + intros ->. destruct Hr as [_ Hl]. cbn in Hl. lia.
    + by exists l', h'.
Qed.
End Facts.

Lemma repr_l3 : repr h3 l3 cells3.
Proof.
  split; [|done]. cbn.
  repeat (split; [done|]; eexists; split; [done|]). done.
Qed.

Lemma l3_built :
  (let* (l, _) := InsertAtBeginning NewSLL 1 in
   let* (l, _) := InsertAtBeginning l 2 in
   let* (l, _) := InsertAtBeginning l 3 in
   ret l) [] = Ret (l3, h3).
Proof. reflexivity. Qed.

Lemma InsertAtEnd_spec_witness :
  repr h3 l3 cells3 ∧ (List.length cells3 <= 3)%nat ∧
  Z.of_nat (List.length cells3) < int_max ∧
  ∃ l' h',
    InsertAtEnd 3 l3 7 h3 = Ret ((l', None), h') ∧
    repr h' l' (cells3 ++ [(List.length h3, 7)]) ∧
    length l' = length l3 + 1.
Proof.
  assert (Z.of_nat (List.length cells3) < int_max) as Hsmall by reflexivity.
  assert (List.length cells3 <= 3)%nat as Hfuel by (cbn; lia).
  split; [exact repr_l3|]. split; [exact Hfuel|]. split; [exact Hsmall|].
  apply (InsertAtEnd_spec (T := Z) 3 h3 l3 cells3 7
           repr_l3 Hfuel Hsmall).
  discriminate.
Defined.

Lemma InsertAtPosition_spec_witness :
  repr h3 l3 cells3 ∧ (List.length cells3 <= 3)%nat ∧
  Z.of_nat (List.length cells3) < int_max ∧
  ∃ l' h',
    InsertAtPosition 3 l3 7 1 h3 = Ret ((l', None), h') ∧
    repr h' l' (take 1 cells3 ++ (List.length h3, 7) :: drop 1 cells3) ∧
    length l' = length l3 + 1.
Proof.
  assert (Z.of_nat (List.length cells3) < int_max) as Hsmall by reflexivity.
  assert (List.length cells3 <= 3)%nat as Hfuel by (cbn; lia).
  split; [exact repr_l3|]. split; [exact Hfuel|]. split; [exact Hsmall|].
  apply (InsertAtPosition_spec (T := Z) 3 h3 l3 cells3 7 1
           repr_l3 Hfuel Hsmall).
  - split; [reflexivity | discriminate].
  - discriminate.
Defined.

Lemma InsertAtPosition_at_length_witness :
  repr h3 l3 cells3 ∧ Z.of_nat (List.length cells3) < int_max ∧
  ∃ l' h',
    InsertAtPosition 0 l3 7 (length l3) h3 = Ret ((l', None), h') ∧
    repr h' l' (cells3 ++ [(List.length h3, 7)]) ∧
    length l' = length l3 + 1.
Proof.
  assert (Z.of_nat (List.length cells3) < int_max) as Hsmall by reflexivity.
  split; [exact repr_l3|]. split; [exact Hsmall|].
  apply (InsertAtPosition_at_length (T := Z) 0 h3 l3 cells3 7
           repr_l3 Hsmall).
Defined.

Lemma length_counts_nodes_and_net_insertions_witness :
  (List.length ops7 <= 7)%nat ∧ Z.of_nat (List.length ops7) <= int_max ∧
  ∃ l t h,
    run 7 ops7 (NewSLL, {| inserted := 0; deleted := 0 |}) []
      = Ret ((l, t), h) ∧
    reachable_count h l = Some (length l) ∧
    (length l = 0 ↔ head l = None) ∧
    length l = inserted t - deleted t.
Proof.
  assert (List.length ops7 <= 7)%nat as Hfuel by (cbn; lia).
  assert (Z.of_nat (List.length ops7) <= int_max) as Hsmall by discriminate.
  split; [exact Hfuel|]. split; [exact Hsmall|].
  apply (length_counts_nodes_and_net_insertions (H := Numeric_int) 7 ops7 []
           Hfuel Hsmall).
Defined.

(** The run of [ops7]: the insertion at the end of the empty list fails,
    three insertions succeed (the one at position 1 of a list of length 2
    is delegated to [InsertAtEnd]), [DeleteFromEnd] removes that last node,
    the deletion at position 5 is out of bounds; two nodes remain. *)
Example run_ops7 :
  (let* (l, t) := run 7 ops7 (NewSLL, {| inserted := 0; deleted := 0 |}) in
   let* vs := Traverse 7 l (fun v acc => acc ++ [v]) [] in
   ret (length l, inserted t, deleted t, vs)) []
  = Ret ((2, 3, 1, [2; 1]),
         [ {| Next := None; Val := 1 |};
           {| Next := Some 0%nat; Val := 2 |};
           {| Next := None; Val := 3 |} ]).
Proof. vm_compute. reflexivity. Qed.

(** [InsertAtBeginning] of 1, 2, 3 gives the traversal order 3, 2, 1;
    [DeleteFromEnd] then returns 1 and the length becomes 2. *)
Example insert_front_then_delete_end :
  (let* vs := Traverse 4 l3 (fun v acc => acc ++ [v]) [] in
   let* (l, r) := DeleteFromEnd 3 l3 in
   ret (vs, r, length l)) h3
  = Ret (([3; 2; 1], (1, None), 2),
         [ {| Next := None; Val := 1 |};
           {| Next := None; Val := 2 |};
           {| Next := Some 1%nat; Val := 3 |} ]).
Proof. vm_compute. reflexivity. Qed.

(** [Search] on the list 5, 3, 9 finds 3 at its node and does not find 7. *)
Example search_5_3_9 :
  (let* (l, _) := InsertAtBeginning NewSLL 9 in
   let* (l, _) := InsertAtBeginning l 3 in
   let* (l, _) := InsertAtBeginning l 5 in
   let* (found3, p3) := Search 4 l 3 in
   let* n3 := load p3 in
   let* r7 := Search 4 l 7 in
   ret (found3, Val n3, r7)) []
  = Ret ((true, 3, (false, None)),
         [ {| Next := None; Val := 9 |};
           {| Next := Some 0%nat; Val := 3 |};
           {| Next := Some 1%nat; Val := 5 |} ]).
Proof. vm_compute. reflexivity. Qed.
End SLLFacts.

Module DLLFacts.
Import DLL.
Section Facts.
Context {T : Type} `{Numeric T}.
Implicit Types (h : list (bidirectionalNode T)) (l : DoublyLinkedList).

Lemma InsertAtBeginning_run h l (v : T) :
  InsertAtBeginning l v h =
    Ret (({| head := Some (List.length h);
             tail := if length l =? 0 then Some (List.length h) else tail l;
             length := int_add (length l) 1 |}, None),
         h ++ [{| Prev := None; Next := head l; Val := v |}]).
Proof.
  unfold InsertAtBeginning, bind, alloc, ret. cbn [head tail length].
  by destruct (length l =? 0).
Qed.

(** One insertion into the new list gives a consistent list, when the heap
    holds no other node. *)
Lemma InsertAtBeginning_first_consistent (v : T) :
  ∃ l h, InsertAtBeginning NewDLL v [] = Ret ((l, None), h) ∧ consistent h l.
Proof.
  eexists _, _. split; [apply InsertAtBeginning_run|].
  cbn. split; [|split; [|split]].
  - intros a b na nb _ Ha Hn Hb. destruct a as [|a]; [|done].
    injection Ha as <-. done.
  - split; intros a n Heq Ha; injection Heq as <-; by injection Ha as <-.
  - done.
  - done.
Qed.

Lemma InsertAtBeginning_ends_tracked h l (v : T) :
  ends_tracked h l → length l < int_max →
  ∃ l' h',
    InsertAtBeginning l v h = Ret ((l', None), h') ∧
    ends_tracked h' l' ∧ length l' = length l + 1.
Proof.
  intros (Hnn & H0 & H1 & Hpos) Hsmall.
  eexists _, _. split; [apply InsertAtBeginning_run|].
  rewrite int_add_small by (unfold is_int, int_min, int_max in *; lia).
  split; [|done]. unfold ends_tracked. cbn [head tail length].
  split; [lia|]. split; [lia|]. split.
  - intros Hone. by replace (length l =? 0) with true by lia.
  - intros _. destruct (Z.eqb_spec (length l) 0) as [Hz|Hnz].
    + destruct (H0 Hz) as [Hhd _]. rewrite Hhd.
      eexists _, _, _, _. split; [done|]. split; [done|].
      split; [apply heap_lookup_new|]. split; [done|].
      split; [apply heap_lookup_new|done].
    + destruct Hpos as (a & t & na & nt & _ & Ht & _ & _ & Hnt & Hnx); [lia|].
      eexists _, t, _, nt. split; [done|]. split; [done|].
      split; [apply heap_lookup_new|]. split; [done|].
      split; [by apply heap_lookup_old|done].
Qed.

(** X26. After any number of insertions: [head.prev] and [tail.next] are
    [nil], and head and tail agree with the length.  Only the back links
    inside the chain are missing. *)
Lemma insert_all_ends (vals : list T) : ∀ h l,
  ends_tracked h l →
  length l + Z.of_nat (List.length vals) <= int_max →
  ∃ l' h',
    insert_all l vals h = Ret (l', h') ∧
    length l' = length l + Z.of_nat (List.length vals) ∧
    ends_closed h' l' ∧
    (length l' = 1 → head l' = tail l') ∧
    (length l' = 0 → head l' = None ∧ tail l' = None).
Proof.
  induction vals as [|v vals IH]; intros h l Htr Hsmall.
  - exists l, h. split; [done|]. split; [cbn; lia|].
    destruct Htr as (Hnn & H0 & H1 & Hpos).
    split; [|done]. split; intros a n Ha Hn.
    + destruct Hpos as (a' & t & na & nt & Hhd & _ & Hna & Hp & _); [|].
      { destruct (Z.eq_dec (length l) 0) as [Hz|]; [|lia].
        destruct (H0 Hz) as [Hhd _]. congruence. }
      congruence.
    + destruct Hpos as (a' & t & na & nt & _ & Htl & _ & _ & Hnt & Hnx); [|].
      { destruct (Z.eq_dec (length l) 0) as [Hz|]; [|lia].
        destruct (H0 Hz) as [_ Htl]. congruence. }
      congruence.
  - cbn [List.length] in Hsmall.
    destruct (InsertAtBeginning_ends_tracked h l v Htr)
      as (l1 & h1 & Hrun & Htr1 & Hl1).
    { destruct Htr as (Hnn & _). lia. }
    destruct (IH h1 l1 Htr1) as (l2 & h2 & Hrun2 & Hl2 & Hrest); [lia|].
    exists l2, h2. cbn [insert_all]. unfold bind. rewrite Hrun.
    split; [done|]. split; [|done]. cbn [List.length]. lia.
Qed.

(** C2. Two calls of [InsertAtBeginning] on the new list break the
    invariant: the second node is the [Next] of the new head, but its
    [Prev] is still [nil], because [InsertAtBeginning] never sets the
    [Prev] of the old head. *)
Theorem InsertAtBeginning_twice_inconsistent (v1 v2 : T) h0 :
  ∃ l h,
    insert_all NewDLL [v1; v2] h0 = Ret (l, h) ∧
    head l = Some (S (List.length h0)) ∧
    h !! S (List.length h0)
      = Some {| Prev := None; Next := Some (List.length h0); Val := v2 |} ∧
    h !! List.length h0 = Some {| Prev := None; Next := None; Val := v1 |} ∧
    ¬ consistent h l.
Proof.
  eexists _, _. split.
  { cbn [insert_all]. unfold bind. rewrite !InsertAtBeginning_run.
    unfold ret. reflexivity. }
  cbn [head tail length NewDLL].
  assert (((h0 ++ [{| Prev := None; Next := None; Val := v1 |}])
             ++ [{| Prev := None; Next := Some (List.length h0); Val := v2 |}])
          !! S (List.length h0)
          = Some {| Prev := None; Next := Some (List.length h0); Val := v2 |})
    as H2.
  { rewrite lookup_app_r; rewrite length_app; cbn; [|lia].
    by replace (S (List.length h0) - (List.length h0 + 1))%nat with 0%nat by lia. }
  assert (((h0 ++ [{| Prev := None; Next := None; Val := v1 |}])
             ++ [{| Prev := None; Next := Some (List.length h0); Val := v2 |}])
          !! List.length h0
          = Some {| Prev := None; Next := None; Val := v1 |}) as H1.
  { apply heap_lookup_old, heap_lookup_new. }
  split; [by rewrite length_app; cbn; f_equal; lia|].
  rewrite length_app. cbn [List.length].
  replace (List.length h0 + 1)%nat with (S (List.length h0)) by lia.
  split; [done|]. split; [done|].
  intros (Hlinks & _).
  specialize (Hlinks (S (List.length h0)) (List.length h0) _ _
                (reach_here _ _) H2 eq_refl H1).
  done.
Qed.
End Facts.

(** The failing run on [int]: after [InsertAtBeginning(1)] and
    [InsertAtBeginning(2)] the node holding 1 has no [Prev]. *)
Example two_insertions :
  insert_all NewDLL [1; 2] []
  = Ret ({| head := Some 1%nat; tail := Some 0%nat; length := 2 |},
         [ {| Prev := None; Next := None; Val := 1 |};
           {| Prev := None; Next := Some 0%nat; Val := 2 |} ]).
Proof. reflexivity. Qed.
End DLLFacts.

(** * Further properties of package [array] *)

Module ArrayOps.
Import Array ArrayFacts.
Section Facts.
Context {T : Type} `{Numeric T}.
Implicit Types (a b : array T) (buf : list T).

Lemma live_length a : wf a → List.length (live a) = Z.to_nat (size a).
Proof. intros [Hlen Hsz]. unfold live. rewrite length_take. lia. Qed.

Lemma live_lookup a (j : nat) :
  (j < Z.to_nat (size a))%nat → live a !! j = arr a !! j.
Proof. intros Hj. unfold live. by rewrite lookup_take_lt. Qed.

Lemma PushElement_ok a (x : T) :
  wf a → size a < ArrayMaxSize →
  ∃ a', PushElement a x = Ret (a', None) ∧ wf a' ∧
        live a' = live a ++ [x] ∧ size a' = size a + 1.
Proof.
  intros [Hlen Hsz] Hroom. unfold ArrayMaxSize in *. unfold PushElement.
  replace (size a =? ArrayMaxSize) with false by (unfold ArrayMaxSize; lia).
  rewrite store_ok by (unfold ArrayMaxSize; lia). cbn. int_simpl.
  eexists. split; [reflexivity|]. unfold wf, live, ArrayMaxSize. cbn [arr size].
  split; [split; [by rewrite length_insert | lia]|]. split; [|done].
  replace (Z.to_nat (size a + 1)) with (S (Z.to_nat (size a))) by lia.
  erewrite take_S_r by (apply list_lookup_insert_eq; lia).
  by rewrite take_insert_ge by lia.
Qed.

Lemma PushElement_full a (x : T) :
  size a = ArrayMaxSize → PushElement a x = Ret (a, Some "Array is full"%string).
Proof. intros Hs. unfold PushElement. by rewrite Hs. Qed.

Lemma PopElement_ok a :
  wf a → 0 < size a →
  ∃ a' x, PopElement a = Ret (a', (x, None)) ∧ wf a' ∧
          live a = live a' ++ [x] ∧ size a' = size a - 1.
Proof.
  intros [Hlen Hsz] Hpos. unfold ArrayMaxSize in *. unfold PopElement.
  replace (size a =? 0) with false by lia. cbn [arr size]. int_simpl.
  destruct (index_ok (arr a) (size a - 1)) as (x & Hx & ->);
    [lia|unfold ArrayMaxSize; lia|].
  cbn. eexists _, x. split; [reflexivity|].
  unfold wf, live, ArrayMaxSize. cbn [arr size].
  split; [split; [done|lia]|]. split; [|done].
  replace (Z.to_nat (size a)) with (S (Z.to_nat (size a - 1))) by lia.
  by rewrite (take_S_r _ _ _ Hx).
Qed.

Lemma PopElement_empty a :
  size a = 0 → PopElement a = Ret (a, (zero, Some "Array is empty"%string)).
Proof. intros Hs. unfold PopElement. by rewrite Hs. Qed.

Lemma Get_ok a (idx : Z) :
  wf a → 0 <= idx < size a →
  ∃ x, live a !! Z.to_nat idx = Some x ∧ Get a idx = Ret (a, (x, None)).
Proof.
  intros [Hlen Hsz] Hidx. unfold ArrayMaxSize in *. unfold Get.
  replace ((idx <? 0) || (idx >=? size a)) with false
    by (symmetry; apply orb_false_iff; lia).
  destruct (index_ok (arr a) idx) as (x & Hx & ->);
    [lia|unfold ArrayMaxSize; lia|].
  exists x. split; [|done]. by rewrite live_lookup by lia.
Qed.

Lemma Set_ok a (idx : Z) (v : T) :
  wf a → 0 <= idx < size a →
  ∃ a', Set_ a idx v = Ret (a', None) ∧ wf a' ∧
        live a' = <[Z.to_nat idx := v]> (live a) ∧ size a' = size a.
Proof.
  intros [Hlen Hsz] Hidx. unfold ArrayMaxSize in *. unfold Set_.
  replace ((idx <? 0) || (idx >=? size a)) with false
    by (symmetry; apply orb_false_iff; lia).
  rewrite store_ok by (unfold ArrayMaxSize; lia). cbn.
  eexists. split; [reflexivity|]. unfold wf, live, ArrayMaxSize. cbn [arr size].
  split; [split; [by rewrite length_insert | lia]|]. split; [|done].
  by rewrite take_insert_lt by lia.
Qed.

(** The shape of the live elements after the shift to the right and the
    store at [idx]. *)
Lemma insert_shape (A buf : list T) (x : T) (idx n : nat) :
  (idx <= n)%nat → (n <= List.length A)%nat → (n < List.length buf)%nat →
  (∀ j : nat,
     buf !! j = if decide (j < idx)%nat then A !! j
                else if decide (j = idx) then Some x
                else if decide (j <= n)%nat then A !! (j - 1)%nat
                else A !! j) →
  take (S n) buf = take idx (take n A) ++ x :: drop idx (take n A).
Proof.
  intros Hidx HnA Hnb Hbuf. apply list_eq. intros j.
  assert (List.length (take idx (take n A)) = idx) as Hl1.
  { rewrite !length_take. lia. }
  destruct (decide (j < S n)%nat) as [Hj|Hj].
  - rewrite lookup_take_lt by done. rewrite Hbuf.
    destruct (decide (j < idx)%nat) as [Hlt|Hge].
    { rewrite lookup_app_l by lia. by rewrite !lookup_take_lt by lia. }
    rewrite lookup_app_r by lia. rewrite Hl1.
    destruct (decide (j = idx)) as [->|Hne].
    { by rewrite Nat.sub_diag. }
    destruct (decide (j <= n)%nat) as [_|?]; [|lia].
    replace (j - idx)%nat with (S (j - idx - 1)) by lia.
    change ((x :: drop idx (take n A)) !! S (j - idx - 1))
      with (drop idx (take n A) !! (j - idx - 1)%nat).
    rewrite lookup_drop, lookup_take_lt by lia.
    f_equal. lia.
  - rewrite lookup_take_ge by lia. symmetry. apply lookup_ge_None.
    rewrite length_app. cbn [List.length].
    rewrite Hl1, length_drop, length_take. lia.
Qed.

Lemma InsertElement_ok a (x : T) (idx : Z) :
  wf a → 0 <= idx <= size a → size a < ArrayMaxSize →
  ∃ a', InsertElement a x idx = Ret (a', None) ∧ wf a' ∧
        live a' = take (Z.to_nat idx) (live a)
                    ++ x :: drop (Z.to_nat idx) (live a) ∧
        size a' = size a + 1.
Proof.
  intros [Hlen Hsz] Hidx Hroom. unfold ArrayMaxSize in *.
  unfold InsertElement.
  replace ((idx <? 0) || (idx >? size a)) with false
    by (symmetry; apply orb_false_iff; lia).
  replace (size a =? ArrayMaxSize) with false by (unfold ArrayMaxSize; lia).
  int_simpl. unfold for_down.
  destruct (for_down_from_inv
    (λ i buf, List.length buf = 100%nat ∧
       ∀ j : nat,
         buf !! j = if decide (Z.of_nat j <= i + 1) then arr a !! j
                    else if decide (Z.of_nat j <= size a)
                         then arr a !! (j - 1)%nat
                         else arr a !! j)
    (λ i buf, do y <- index buf i; store buf (int_add i 1) y)
    (Z.to_nat (size a - 1 - idx + 1)) (size a - 1) (arr a))
    as (buf & -> & Hbl & Hbuf).
  - split; [done|]. intros j.
    destruct (decide (Z.of_nat j <= size a - 1 + 1)); [done|].
    by destruct (decide (Z.of_nat j <= size a)); [lia|].
  - intros i buf Hi [Hbl Hbuf].
    destruct (index_ok buf i) as (y & Hy & ->); [lia|unfold ArrayMaxSize; lia|].
    cbn. int_simpl. rewrite store_ok by (unfold ArrayMaxSize; lia).
    eexists. split; [reflexivity|]. split; [by rewrite length_insert|].
    intros j. rewrite Hbuf in Hy.
    destruct (decide (Z.of_nat (Z.to_nat i) <= i + 1)) as [_|?]; [|lia].
    destruct (decide (Z.to_nat (i + 1) = j)) as [<-|Hne].
    + rewrite list_lookup_insert_eq by lia.
      destruct (decide (Z.of_nat (Z.to_nat (i + 1)) <= i - 1 + 1)); [lia|].
      destruct (decide (Z.of_nat (Z.to_nat (i + 1)) <= size a)); [|lia].
      rewrite <- Hy. f_equal. lia.
    + rewrite list_lookup_insert_ne by done. rewrite Hbuf.
      destruct (decide (Z.of_nat j <= i + 1)),
               (decide (Z.of_nat j <= i - 1 + 1)); try done; lia.
  - cbn. rewrite store_ok by (unfold ArrayMaxSize; lia). cbn.
    eexists. split; [reflexivity|]. unfold wf, live, ArrayMaxSize.
    cbn [arr size]. split; [split; [by rewrite length_insert | lia]|].
    split; [|done].
    replace (Z.to_nat (size a + 1)) with (S (Z.to_nat (size a))) by lia.
    apply insert_shape; [lia|lia|rewrite length_insert; lia|].
    intros j.
    destruct (decide (Z.to_nat idx = j)) as [<-|Hne].
    { rewrite list_lookup_insert_eq by lia.
      destruct (decide (Z.to_nat idx < Z.to_nat idx)%nat); [lia|].
      by destruct (decide (Z.to_nat idx = Z.to_nat idx)). }
    rewrite list_lookup_insert_ne by done. rewrite Hbuf.
    destruct (decide (j < Z.to_nat idx)%nat).
    { destruct (decide (Z.of_nat j <=
        size a - 1 - Z.of_nat (Z.to_nat (size a - 1 - idx + 1)) + 1));
        [done|lia]. }
    destruct (decide (j = Z.to_nat idx)); [lia|].
    destruct (decide (Z.of_nat j <=
        size a - 1 - Z.of_nat (Z.to_nat (size a - 1 - idx + 1)) + 1)); [lia|].
    destruct (decide (Z.of_nat j <= size a)),
             (decide (j <= Z.to_nat (size a))%nat); try done; lia.
Qed.
Lemma RemoveAtIndex_ok a (idx : Z) :
  wf a → 0 <= idx < size a →
  ∃ a', RemoveAtIndex a idx = Ret (a', None) ∧ wf a' ∧
        live a' = delete (Z.to_nat idx) (live a) ∧
        size a' = size a - 1.
Proof.
  intros [Hlen Hsz] Hidx. unfold ArrayMaxSize in *. unfold RemoveAtIndex.
  replace ((idx <? 0) || (idx >=? size a)) with false
    by (symmetry; apply orb_false_iff; lia).
  replace (size a =? 0) with false by lia. int_simpl.
  destruct (for_up_inv
    (λ i buf, List.length buf = 100%nat ∧
       ∀ j : nat,
         buf !! j = if decide (idx <= Z.of_nat j < i) then arr a !! S j
                    else arr a !! j)
    (λ i buf, do y <- index buf (int_add i 1);
              do buf' <- store buf i y; Ret (buf', false))
    idx (size a - 1) (arr a)) as (buf & -> & Hbl & Hbuf).
  - lia.
  - split; [done|]. intros j.
    by destruct (decide (idx <= Z.of_nat j < idx)); [lia|].
  - intros i buf Hi [Hbl Hbuf]. int_simpl.
    destruct (index_ok buf (i + 1)) as (y & Hy & ->);
      [lia|unfold ArrayMaxSize; lia|].
    cbn. rewrite store_ok by (unfold ArrayMaxSize; lia). cbn.
    eexists. split; [reflexivity|]. split; [by rewrite length_insert|].
    intros j. rewrite Hbuf in Hy.
    destruct (decide (idx <= Z.of_nat (Z.to_nat (i + 1)) < i)) as [?|_]; [lia|].
    destruct (decide (Z.to_nat i = j)) as [<-|Hne].
    + rewrite list_lookup_insert_eq by lia.
      destruct (decide (idx <= Z.of_nat (Z.to_nat i) < i + 1)); [|lia].
      rewrite <- Hy. f_equal. lia.
    + rewrite list_lookup_insert_ne by done. rewrite Hbuf.
      destruct (decide (idx <= Z.of_nat j < i)),
               (decide (idx <= Z.of_nat j < i + 1)); try done; lia.
  - cbn. eexists. split; [reflexivity|]. unfold wf, live, ArrayMaxSize.
    cbn [arr size]. split; [split; [done|lia]|]. split; [|done].
    apply list_eq. intros j. rewrite delete_take_drop.
    destruct (decide (j < Z.to_nat (size a - 1))%nat) as [Hj|Hj].
    + rewrite lookup_take_lt by done. rewrite Hbuf.
      destruct (decide (idx <= Z.of_nat j < size a - 1)) as [Hin|Hout].
      * rewrite lookup_app_r by (rewrite !length_take; lia).
        rewrite !length_take, lookup_drop, lookup_take_lt by lia.
        f_equal. lia.
      * rewrite lookup_app_l by (rewrite !length_take; lia).
        by rewrite !lookup_take_lt by lia.
    + rewrite lookup_take_ge by lia. symmetry. apply lookup_ge_None.
      rewrite length_app, length_drop, !length_take. lia.
Qed.

(** The result of the loop of [IndexOf]: the first index whose element
    compares equal, if there is one. *)
Lemma IndexOf_run a (element : T) :
  wf a →
  (IndexOf a element = Ret (-1, Some "Element not found"%string) ∧
   ∀ (j : nat) y, live a !! j = Some y → num_eqb y element = false) ∨
  (∃ (i : nat) x,
     IndexOf a element = Ret (Z.of_nat i, None) ∧
     live a !! i = Some x ∧ num_eqb x element = true ∧
     ∀ (j : nat) y, (j < i)%nat → live a !! j = Some y →
                    num_eqb y element = false).
Proof.
  intros [Hlen Hsz]. unfold ArrayMaxSize in *. unfold IndexOf, for_up.
  destruct (for_up_from_break_inv
    (λ i (r : option Z), r = None ∧
       ∀ (j : nat) y, Z.of_nat j < i → arr a !! j = Some y →
                      num_eqb y element = false)
    (λ r, ∃ (i : nat) x, r = Some (Z.of_nat i) ∧ Z.of_nat i < size a ∧
       arr a !! i = Some x ∧ num_eqb x element = true ∧
       ∀ (j : nat) y, (j < i)%nat → arr a !! j = Some y →
                      num_eqb y element = false)
    (λ i (r : option Z),
       do x <- index (arr a) i;
       if num_eqb x element then Ret (Some i, true) else Ret (r, false))
    (Z.to_nat (size a - 0)) 0 None) as (r & -> & Hpost).
  - split; [done|]. intros j y Hj. lia.
  - intros i r Hi [-> Hno].
    destruct (index_ok (arr a) i) as (x & Hx & ->);
      [lia|unfold ArrayMaxSize; lia|].
    cbn. destruct (num_eqb x element) eqn:Hxe.
    + eexists _, true. split; [reflexivity|].
      exists (Z.to_nat i), x. rewrite Z2Nat.id by lia.
      split; [done|]. split; [lia|]. split; [done|]. split; [done|].
      intros j y Hj. apply Hno. lia.
    + eexists _, false. split; [reflexivity|]. split; [done|].
      intros j y Hj Hy.
      destruct (decide (Z.of_nat j = i)) as [<-|?]; [|apply (Hno j); [lia|done]].
      rewrite Nat2Z.id in Hx. congruence.
  - cbn. destruct Hpost as [(i & x & -> & Hi & Hx & Hxe & Hno)|[-> Hno]].
    + right. exists i, x. split; [done|].
      split; [by rewrite live_lookup by lia|]. split; [done|].
      intros j y Hj Hy. apply (Hno j y Hj).
      by rewrite live_lookup in Hy by lia.
    + left. split; [done|]. intros j y Hy.
      pose proof (lookup_lt_Some _ _ _ Hy) as Hlt.
      unfold live in Hlt. rewrite length_take in Hlt.
      apply (Hno j y); [lia|]. by rewrite live_lookup in Hy by lia.
Qed.

Lemma InsertElement_full a (x : T) (idx : Z) :
  0 <= idx <= size a → size a = ArrayMaxSize →
  InsertElement a x idx = Ret (a, Some "Array is full"%string).
Proof.
  intros Hidx Hfull. unfold InsertElement.
  replace ((idx <? 0) || (idx >? size a)) with false
    by (symmetry; apply orb_false_iff; lia).
  by rewrite Hfull.
Qed.

Lemma step_wf (o : op T) a : wf a → ∃ a', step o a = Ret a' ∧ wf a'.
Proof.
  intros Hwf. pose proof Hwf as [Hlen Hsz].
  destruct o as [x| |x i|i|i|i x|x]; cbn [step].
  - destruct (decide (size a = ArrayMaxSize)) as [Hfull|Hroom].
    + rewrite PushElement_full by done. by exists a.
    + destruct (PushElement_ok a x Hwf) as (a' & -> & Hwf' & _); [lia|].
      by exists a'.
  - destruct (decide (size a = 0)) as [Hemp|Hne].
    + rewrite PopElement_empty by done. by exists a.
    + destruct (PopElement_ok a Hwf) as (a' & y & -> & Hwf' & _); [lia|].
      by exists a'.
  - destruct (decide (0 <= i <= size a)) as [Hin|Hout].
    + destruct (decide (size a = ArrayMaxSize)) as [Hfull|Hroom].
      * rewrite InsertElement_full by done. by exists a.
      * destruct (InsertElement_ok a x i Hwf Hin) as (a' & -> & Hwf' & _);
          [lia|]. by exists a'.
    + unfold InsertElement.
      replace ((i <? 0) || (i >? size a)) with true
        by (symmetry; apply orb_true_iff; lia).
      by exists a.
  - destruct (decide (0 <= i < size a)) as [Hin|Hout].
    + destruct (RemoveAtIndex_ok a i Hwf Hin) as (a' & -> & Hwf' & _).
      by exists a'.
    + unfold RemoveAtIndex.
      replace ((i <? 0) || (i >=? size a)) with true
        by (symmetry; apply orb_true_iff; lia).
      by exists a.
  - destruct (decide (0 <= i < size a)) as [Hin|Hout].
    + destruct (Get_ok a i Hwf Hin) as (y & _ & ->). by exists a.
    + unfold Get.
      replace ((i <? 0) || (i >=? size a)) with true
        by (symmetry; apply orb_true_iff; lia).
      by exists a.
  - destruct (decide (0 <= i < size a)) as [Hin|Hout].
    + destruct (Set_ok a i x Hwf Hin) as (a' & -> & Hwf' & _). by exists a'.
    + unfold Set_.
      replace ((i <? 0) || (i >=? size a)) with true
        by (symmetry; apply orb_true_iff; lia).
      by exists a.
  - destruct (IndexOf_run a x Hwf) as [[-> _]|(i & y & -> & _)]; by exists a.
Qed.
(** X1. [PushElement] on a full array returns "Array is full" and leaves
    the array as it was; otherwise it succeeds and the live elements are
    the former ones followed by the new element. *)
Theorem PushElement_appends a (x : T) :
  wf a →
  (size a = ArrayMaxSize →
   PushElement a x = Ret (a, Some "Array is full"%string)) ∧
  (size a < ArrayMaxSize →
   ∃ a', PushElement a x = Ret (a', None) ∧ wf a' ∧
         live a' = live a ++ [x]).
Proof.
  intros Hwf. split; [apply PushElement_full|].
  intros Hroom.
  destruct (PushElement_ok a x Hwf Hroom) as (a' & Hrun & Hwf' & Hlive & _).
  by exists a'.
Qed.

(** X2. [PopElement] on an empty array returns the zero value with "Array
    is empty" and leaves the array as it was; otherwise it returns the last
    live element and removes it. *)
Theorem PopElement_returns_last a :
  wf a →
  (size a = 0 →
   PopElement a = Ret (a, (zero, Some "Array is empty"%string))) ∧
  (0 < size a →
   ∃ a' x, PopElement a = Ret (a', (x, None)) ∧ wf a' ∧
           live a = live a' ++ [x]).
Proof.
  intros Hwf. split; [apply PopElement_empty|].
  intros Hpos.
  destruct (PopElement_ok a Hwf Hpos) as (a' & x & Hrun & Hwf' & Hlive & _).
  by exists a', x.
Qed.

(** X3. [PushElement] followed by [PopElement] returns the pushed element
    and gives back the live elements and the size from before. *)
Theorem push_then_pop a (x : T) :
  wf a → size a < ArrayMaxSize →
  ∃ a1 a2,
    PushElement a x = Ret (a1, None) ∧
    PopElement a1 = Ret (a2, (x, None)) ∧
    live a2 = live a ∧ size a2 = size a.
Proof.
  intros Hwf Hroom. pose proof Hwf as [_ Hsz].
  destruct (PushElement_ok a x Hwf Hroom) as (a1 & Hpush & Hwf1 & Hl1 & Hs1).
  destruct (PopElement_ok a1 Hwf1) as (a2 & y & Hpop & Hwf2 & Hl2 & Hs2);
    [lia|].
  rewrite Hl1 in Hl2. apply app_inj_tail in Hl2 as [-> ->].
  exists a1, a2. split; [done|]. split; [done|]. split; [done|]. lia.
Qed.

(** X4. [InsertElement] at an index in [0, size]: on a full array it
    returns "Array is full" and changes nothing; otherwise the element is
    placed at the index, the elements from the index on move one slot to
    the right, the size grows by one, and [Get] at the index returns the
    element. *)
Theorem InsertElement_then_Get a (x : T) (idx : Z) :
  wf a → 0 <= idx <= size a →
  (size a = ArrayMaxSize →
   InsertElement a x idx = Ret (a, Some "Array is full"%string)) ∧
  (size a < ArrayMaxSize →
   ∃ a',
     InsertElement a x idx = Ret (a', None) ∧ wf a' ∧
     size a' = size a + 1 ∧
     live a' = take (Z.to_nat idx) (live a)
                 ++ x :: drop (Z.to_nat idx) (live a) ∧
     Get a' idx = Ret (a', (x, None))).
Proof.
  intros Hwf Hidx. split; [by apply InsertElement_full|].
  intros Hroom.
  destruct (InsertElement_ok a x idx Hwf Hidx Hroom)
    as (a' & Hrun & Hwf' & Hlive & Hsize).
  exists a'. split; [done|]. split; [done|]. split; [done|]. split; [done|].
  destruct (Get_ok a' idx Hwf') as (y & Hy & ->); [lia|].
  rewrite Hlive in Hy.
  rewrite lookup_app_r in Hy
    by (rewrite length_take, live_length by done; lia).
  rewrite length_take, live_length in Hy by done.
  replace (Z.to_nat idx - Z.to_nat idx `min` Z.to_nat (size a))%nat
    with 0%nat in Hy by lia.
  cbn in Hy. by injection Hy as ->.
Qed.

(** X5. [RemoveAtIndex] at an index in [0, size) succeeds: the element at
    the index is removed, the later ones move one slot to the left and the
    size shrinks by one. *)
Theorem RemoveAtIndex_deletes a (idx : Z) :
  wf a → 0 <= idx < size a →
  ∃ a', RemoveAtIndex a idx = Ret (a', None) ∧ wf a' ∧
        live a' = delete (Z.to_nat idx) (live a) ∧
        size a' = size a - 1.
Proof. apply RemoveAtIndex_ok. Qed.

(** X6. [InsertElement] at an index followed by [RemoveAtIndex] at the same
    index gives back the live elements and the size from before. *)
Theorem insert_then_remove a (x : T) (idx : Z) :
  wf a → 0 <= idx <= size a → size a < ArrayMaxSize →
  ∃ a1 a2,
    InsertElement a x idx = Ret (a1, None) ∧
    RemoveAtIndex a1 idx = Ret (a2, None) ∧
    live a2 = live a ∧ size a2 = size a.
Proof.
  intros Hwf Hidx Hroom.
  destruct (InsertElement_ok a x idx Hwf Hidx Hroom)
    as (a1 & Hins & Hwf1 & Hl1 & Hs1).
  destruct (RemoveAtIndex_ok a1 idx Hwf1) as (a2 & Hrem & Hwf2 & Hl2 & Hs2);
    [lia|].
  exists a1, a2. split; [done|]. split; [done|]. split; [|lia].
  rewrite Hl2, Hl1, delete_take_drop.
  assert (List.length (take (Z.to_nat idx) (live a)) = Z.to_nat idx) as Hlt.
  { rewrite length_take, live_length by done. lia. }
  rewrite take_app_length' by done.
  rewrite drop_app_ge by lia. rewrite Hlt.
  replace (S (Z.to_nat idx) - Z.to_nat idx)%nat with 1%nat by lia.
  cbn [drop]. rewrite drop_0. apply take_drop.
Qed.

(** X7. [Set] at an index in [0, size) overwrites that element only, and
    [Get] at the index then returns the value set. *)
Theorem Set_then_Get a (idx : Z) (val : T) :
  wf a → 0 <= idx < size a →
  ∃ a',
    Set_ a idx val = Ret (a', None) ∧
    size a' = size a ∧
    live a' = <[Z.to_nat idx := val]> (live a) ∧
    Get a' idx = Ret (a', (val, None)).
Proof.
  intros Hwf Hidx.
  destruct (Set_ok a idx val Hwf Hidx) as (a' & Hset & Hwf' & Hlive & Hsize).
  exists a'. split; [done|]. split; [done|]. split; [done|].
  destruct (Get_ok a' idx Hwf') as (y & Hy & ->); [lia|].
  rewrite Hlive in Hy.
  rewrite list_lookup_insert_eq in Hy by (rewrite live_length by done; lia).
  by injection Hy as ->.
Qed.

(** X8. [IndexOf] returns -1 with "Element not found" when no live element
    compares equal to the element sought, and otherwise the index of the
    first live element that does; stale slots beyond [size] are never
    looked at. *)
Theorem IndexOf_first_match a (element : T) :
  wf a →
  (IndexOf a element = Ret (-1, Some "Element not found"%string) ∧
   ∀ (j : nat) y, live a !! j = Some y → num_eqb y element = false) ∨
  (∃ (i : nat) x,
     IndexOf a element = Ret (Z.of_nat i, None) ∧
     live a !! i = Some x ∧ num_eqb x element = true ∧
     ∀ (j : nat) y, (j < i)%nat → live a !! j = Some y →
                    num_eqb y element = false).
Proof. apply IndexOf_run. Qed.

(** X11. No sequence of [PushElement], [PopElement], [InsertElement],
    [RemoveAtIndex], [Get], [Set] and [IndexOf] calls, with any arguments,
    panics, and the size stays within [0, ArrayMaxSize]. *)
Theorem run_keeps_wf (ops : list (op T)) a :
  wf a → ∃ a', run ops a = Ret a' ∧ wf a'.
Proof.
  revert a. induction ops as [|o ops IH]; intros a Hwf.
  - by exists a.
  - destruct (step_wf o a Hwf) as (a1 & Hstep & Hwf1).
    destruct (IH a1 Hwf1) as (a2 & Hrun & Hwf2).
    exists a2. cbn [run]. rewrite Hstep. done.
Qed.
End Facts.

Lemma wf_sample : wf sample.
Proof. split; [reflexivity | split; discriminate]. Qed.

Lemma PushElement_appends_witness :
  wf sample ∧
  ∃ a', PushElement sample 40 = Ret (a', None) ∧ wf a' ∧
        live a' = live sample ++ [40].
Proof.
  split; [exact wf_sample|].
  apply (PushElement_appends (T := Z) sample 40 wf_sample). reflexivity.
Defined.

Lemma PopElement_returns_last_witness :
  wf sample ∧
  ∃ a' x, PopElement sample = Ret (a', (x, None)) ∧ wf a' ∧
          live sample = live a' ++ [x].
Proof.
  split; [exact wf_sample|].
  apply (PopElement_returns_last (H := Numeric_int) sample wf_sample).
  reflexivity.
Defined.

Lemma push_then_pop_witness :
  wf sample ∧ size sample < ArrayMaxSize ∧
  ∃ a1 a2,
    PushElement sample 40 = Ret (a1, None) ∧
    PopElement a1 = Ret (a2, (40, None)) ∧
    live a2 = live sample ∧ size a2 = size sample.
Proof.
  split; [exact wf_sample|]. split; [reflexivity|].
  apply (push_then_pop (H := Numeric_int) sample 40 wf_sample). reflexivity.
Defined.

Lemma InsertElement_then_Get_witness :
  wf sample ∧ 0 <= 1 <= size sample ∧
  ∃ a',
    InsertElement sample 15 1 = Ret (a', None) ∧ wf a' ∧
    size a' = size sample + 1 ∧
    live a' = take 1 (live sample) ++ 15 :: drop 1 (live sample) ∧
    Get a' 1 = Ret (a', (15, None)).
Proof.
  assert (0 <= 1 <= size sample) as Hidx by (split; discriminate).
  split; [exact wf_sample|]. split; [exact Hidx|].
  apply (InsertElement_then_Get (H := Numeric_int) sample 15 1 wf_sample Hidx).
  reflexivity.
Defined.

Lemma RemoveAtIndex_deletes_witness :
  wf sample ∧ 0 <= 1 < size sample ∧
  ∃ a', RemoveAtIndex sample 1 = Ret (a', None) ∧ wf a' ∧
        live a' = delete 1%nat (live sample) ∧
        size a' = size sample - 1.
Proof.
  assert (0 <= 1 < size sample) as Hidx by (split; [discriminate|reflexivity]).
  split; [exact wf_sample|]. split; [exact Hidx|].
  apply (RemoveAtIndex_deletes (T := Z) sample 1 wf_sample Hidx).
Defined.

Lemma insert_then_remove_witness :
  wf sample ∧ 0 <= 1 <= size sample ∧ size sample < ArrayMaxSize ∧
  ∃ a1 a2,
    InsertElement sample 15 1 = Ret (a1, None) ∧
    RemoveAtIndex a1 1 = Ret (a2, None) ∧
    live a2 = live sample ∧ size a2 = size sample.
Proof.
  assert (0 <= 1 <= size sample) as Hidx by (split; discriminate).
  split; [exact wf_sample|]. split; [exact Hidx|]. split; [reflexivity|].
  apply (insert_then_remove (T := Z) sample 15 1 wf_sample Hidx).
  reflexivity.
Defined.

Lemma Set_then_Get_witness :
  wf sample ∧ 0 <= 2 < size sample ∧
  ∃ a',
    Set_ sample 2 33 = Ret (a', None) ∧
    size a' = size sample ∧
    live a' = <[2%nat := 33]> (live sample) ∧
    Get a' 2 = Ret (a', (33, None)).
Proof.
  assert (0 <= 2 < size sample) as Hidx by (split; [discriminate|reflexivity]).
  split; [exact wf_sample|]. split; [exact Hidx|].
  apply (Set_then_Get (H := Numeric_int) sample 2 33 wf_sample Hidx).
Defined.

Lemma IndexOf_first_match_witness :
  wf sample ∧
  ((IndexOf sample 20 = Ret (-1, Some "Element not found"%string) ∧
    ∀ (j : nat) y, live sample !! j = Some y → num_eqb y 20 = false) ∨
   (∃ (i : nat) x,
      IndexOf sample 20 = Ret (Z.of_nat i, None) ∧
      live sample !! i = Some x ∧ num_eqb x 20 = true ∧
      ∀ (j : nat) y, (j < i)%nat → live sample !! j = Some y →
                     num_eqb y 20 = false)).
Proof.
  split; [exact wf_sample|].
  apply (IndexOf_first_match (H := Numeric_int) sample 20 wf_sample).
Defined.

Lemma Merge_spec_witness :
  wf sample ∧ wf single ∧ (size sample < ArrayMaxSize ∨ size single = 0) ∧
  ∃ res,
    Merge sample single =
      Ret (res, if size sample + size single >? ArrayMaxSize
                then Some "Cannot fit both arrays completely"%string
                else None) ∧
    wf res ∧
    size res = Z.min (size sample + size single) ArrayMaxSize ∧
    live res = take (Z.to_nat ArrayMaxSize) (live sample ++ live single).
Proof.
  assert (wf single) as Hs by (split; [reflexivity | split; discriminate]).
  assert (size sample < ArrayMaxSize ∨ size single = 0) as Hroom
    by (left; reflexivity).
  split; [exact wf_sample|]. split; [exact Hs|]. split; [exact Hroom|].
  apply (Merge_spec (H := Numeric_int) sample single wf_sample Hs Hroom).
Defined.

Lemma PrintAll_nonempty_ok_witness :
  wf sample ∧ 0 < size sample ∧
  ∃ xs x, live sample = xs ++ [x] ∧
    PrintAll sample [] =
      Ret ([] ++ [FmtPrint [AStr "[ "]]
              ++ ((λ y, FmtPrint [AVal y; AStr ", "]) <$> xs)
              ++ [FmtPrintln [AVal x; AStr "]"]]).
Proof.
  split; [exact wf_sample|]. split; [reflexivity|].
  apply (PrintAll_nonempty_ok (T := Z) sample [] wf_sample). reflexivity.
Defined.

Lemma run_keeps_wf_witness :
  wf sample ∧
  ∃ a', run [OpPush 1; OpInsert 2 200; OpRemove 0; OpPop; OpIndexOf 7] sample
          = Ret a' ∧ wf a'.
Proof.
  split; [exact wf_sample|].
  apply (run_keeps_wf (H := Numeric_int) _ sample wf_sample).
Defined.
End ArrayOps.

(** * Further properties of package [stack] *)

Module StackOps.
Import StackFacts.
Section Facts.
Context {T : Type} `{Numeric T}.

Lemma Push_overflow_array (s : StackArray.stackArray T) (xs : list T) (v : T) :
  StackArray.holds s xs →
  Z.of_nat (List.length xs) = StackArray.StackMaxSize →
  StackArray.Push s v = Ret (s, Some "Stack Overflow!!!"%string).
Proof.
  intros (Htop & _) Hfull. unfold StackArray.Push.
  by replace (StackArray.top s =? StackArray.StackMaxSize - 1) with true by lia.
Qed.

Lemma Pop_underflow_array (s : StackArray.stackArray T) :
  StackArray.holds s [] →
  StackArray.Pop s = Ret (s, (zero, Some "Stack Underflow!!!"%string)).
Proof.
  intros (Htop & _). unfold StackArray.Pop. cbn in Htop. by rewrite Htop.
Qed.

Lemma Push_overflow_list (s : StackList.stackList) (xs : list T) (v : T)
    (h : list (StackList.node T)) :
  StackList.holds h s xs → is_int (StackList.capacity s) →
  Z.of_nat (List.length xs) = StackList.capacity s →
  StackList.Push s v h = Ret ((s, Some "Stack Overflow!!!"%string), h).
Proof.
  intros [_ Htop] Hint Hfull. unfold StackList.Push.
  rewrite int_sub_small by (unfold is_int, int_min, int_max in *; lia).
  by replace (StackList.top s =? StackList.capacity s - 1) with true by lia.
Qed.

Lemma Pop_underflow_list (s : StackList.stackList)
    (h : list (StackList.node T)) :
  StackList.holds h s [] →
  StackList.Pop s h
    = Ret ((s, (zero, Some "Stack Underflow!!!"%string)), h).
Proof.
  intros [_ Htop]. unfold StackList.Pop. cbn in Htop. by rewrite Htop.
Qed.

(** The two backings in step: they hold the same values, and the list
    stack has the capacity of the array stack. *)
Lemma step_agree (o : stack_op T) (sa : StackArray.stackArray T)
    (sl : StackList.stackList) (h : list (StackList.node T)) (xs : list T) :
  StackArray.holds sa xs → StackList.holds h sl xs →
  StackList.capacity sl = StackArray.StackMaxSize →
  Z.of_nat (List.length xs) <= StackArray.StackMaxSize →
  ∃ sa' sl' h' r xs',
    StackArray.step o sa = Ret (sa', r) ∧
    StackList.step o sl h = Ret ((sl', r), h') ∧
    StackArray.holds sa' xs' ∧ StackList.holds h' sl' xs' ∧
    StackList.capacity sl' = StackArray.StackMaxSize ∧
    Z.of_nat (List.length xs') <= StackArray.StackMaxSize.
Proof.
  intros Ha Hl Hcap Hlen. unfold StackArray.StackMaxSize in *.
  assert (is_int (StackList.capacity sl)) as Hint.
  { rewrite Hcap. unfold is_int, int_min, int_max. lia. }
  destruct o as [v|]; cbn [StackArray.step StackList.step]; unfold bind.
  - destruct (decide (Z.of_nat (List.length xs) = 100)) as [Hfull|Hroom].
    + rewrite (Push_overflow_array sa xs v Ha) by done.
      rewrite (Push_overflow_list sl xs v h Hl Hint) by lia.
      cbn. by eexists sa, sl, h, _, xs.
    + destruct (Push_holds sa xs v Ha) as (sa' & -> & Ha');
        [unfold StackArray.StackMaxSize; lia|].
      destruct (Push_holds_list sl xs v h Hl Hint) as (sl' & h' & -> & Hl' & Hc');
        [lia|].
      cbn. eexists sa', sl', h', _, (xs ++ [v]).
      rewrite length_app. cbn.
      split; [done|]. split; [done|]. split; [done|]. split; [done|].
      split; [congruence|lia].
  - destruct xs as [|x xs _] using rev_ind.
    + rewrite (Pop_underflow_array sa Ha), (Pop_underflow_list sl h Hl).
      cbn. by eexists sa, sl, h, _, [].
    + rewrite length_app in Hlen. cbn in Hlen.
      destruct (Pop_holds sa xs x Ha) as (sa' & -> & Ha');
        [unfold StackArray.StackMaxSize; lia|].
      destruct (Pop_holds_list sl xs x h Hl) as (sl' & -> & Hl' & Hc');
        [unfold int_max; lia|].
      cbn. eexists sa', sl', h, _, xs.
      split; [done|]. split; [done|]. split; [done|]. split; [done|].
      split; [congruence|lia].
Qed.

Lemma run_agree (ops : list (stack_op T)) :
  ∀ (sa : StackArray.stackArray T) (sl : StackList.stackList)
    (h : list (StackList.node T)) (xs : list T),
  StackArray.holds sa xs → StackList.holds h sl xs →
  StackList.capacity sl = StackArray.StackMaxSize →
  Z.of_nat (List.length xs) <= StackArray.StackMaxSize →
  ∃ sa' sl' h' rs xs',
    StackArray.run ops sa = Ret (sa', rs) ∧
    StackList.run ops sl h = Ret ((sl', rs), h') ∧
    StackArray.holds sa' xs' ∧ StackList.holds h' sl' xs' ∧
    Z.of_nat (List.length xs') <= StackArray.StackMaxSize.
Proof.
  induction ops as [|o ops IH]; intros sa sl h xs Ha Hl Hcap Hlen.
  - by exists sa, sl, h, [], xs.
  - destruct (step_agree o sa sl h xs Ha Hl Hcap Hlen)
      as (sa1 & sl1 & h1 & r & xs1 & Hsa & Hsl & Ha1 & Hl1 & Hcap1 & Hlen1).
    destruct (IH sa1 sl1 h1 xs1 Ha1 Hl1 Hcap1 Hlen1)
      as (sa2 & sl2 & h2 & rs & xs2 & Hra & Hrl & Ha2 & Hl2 & Hlen2).
    exists sa2, sl2, h2, (r :: rs), xs2.
    cbn [StackArray.run StackList.run]. unfold bind.
    rewrite Hsa, Hsl. cbn. rewrite Hra, Hrl. done.
Qed.
Lemma Push_holds_free (s : StackList.stackList) (xs : list T) (v : T)
    (h : list (StackList.node T)) :
  StackList.holds h s xs →
  StackList.top s ≠ int_sub (StackList.capacity s) 1 →
  Z.of_nat (List.length xs) < int_max →
  ∃ s' h',
    StackList.Push s v h = Ret ((s', None), h') ∧
    StackList.holds h' s' (xs ++ [v]) ∧
    StackList.capacity s' = StackList.capacity s.
Proof.
  intros [Hc Htop] Hne Hsmall.
  eexists _, _. split; [by apply Push_run|]. split; [|done].
  split; cbn [StackList.topNode StackList.top].
  - rewrite reverse_snoc. cbn. eexists _, _.
    split; [done|]. split; [apply heap_lookup_new|]. by apply chain_alloc.
  - rewrite int_add_small by (unfold is_int, int_min, int_max in *; lia).
    rewrite length_app. cbn. lia.
Qed.

Lemma negative_capacity_no_overflow (c top : Z) :
  is_int c → c < 0 → -1 <= top < int_max → top ≠ int_sub c 1.
Proof.
  intros Hint Hneg Htop. destruct (decide (c = int_min)) as [->|Hne].
  - change (int_sub int_min 1) with int_max. lia.
  - rewrite int_sub_small; unfold is_int, int_min, int_max in *; lia.
Qed.

Lemma push_all_negative (vs : list T) :
  ∀ (s : StackList.stackList) (xs : list T) (h : list (StackList.node T)),
  StackList.holds h s xs →
  is_int (StackList.capacity s) → StackList.capacity s < 0 →
  Z.of_nat (List.length xs + List.length vs) < int_max →
  ∃ s' h',
    StackList.push_all s vs h
      = Ret ((s', replicate (List.length vs) None), h') ∧
    StackList.holds h' s' (xs ++ vs).
Proof.
  induction vs as [|v vs IH]; intros s xs h Hs Hint Hneg Hsmall.
  - exists s, h. by rewrite app_nil_r.
  - cbn [List.length] in Hsmall.
    destruct (Push_holds_free s xs v h Hs) as (s1 & h1 & HP & H1 & Hc1).
    { apply negative_capacity_no_overflow; [done|done|].
      destruct Hs as [_ ->]. lia. }
    { lia. }
    destruct (IH s1 (xs ++ [v]) h1 H1) as (s2 & h2 & HA & H2).
    { by rewrite Hc1. }
    { by rewrite Hc1. }
    { rewrite length_app. cbn. lia. }
    exists s2, h2. cbn. unfold bind. rewrite HP, HA. unfold ret.
    by rewrite <- app_assoc in H2.
Qed.

(** X12. The array stack at its bounds: [Push] on a stack holding
    [StackMaxSize] values returns "Stack Overflow!!!", and [Pop] on an empty
    stack returns the zero value with "Stack Underflow!!!"; the stack is
    left as it was. *)
Theorem stackArray_overflow_underflow
    (s : StackArray.stackArray T) (xs : list T) (v : T) :
  StackArray.holds s xs →
  (Z.of_nat (List.length xs) = StackArray.StackMaxSize →
   StackArray.Push s v = Ret (s, Some "Stack Overflow!!!"%string)) ∧
  (xs = [] →
   StackArray.Pop s = Ret (s, (zero, Some "Stack Underflow!!!"%string))).
Proof.
  intros Hs. split.
  - by apply Push_overflow_array.
  - intros ->. by apply Pop_underflow_array.
Qed.

(** X13. The list stack at its bounds: [Push] on a stack that holds
    [capacity] values returns "Stack Overflow!!!" (on every push when the
    capacity is 0), and [Pop] on an empty stack returns the zero value with
    "Stack Underflow!!!"; the stack and the heap are left as they were. *)
Theorem stackList_overflow_underflow
    (s : StackList.stackList) (xs : list T) (v : T)
    (h : list (StackList.node T)) :
  StackList.holds h s xs → is_int (StackList.capacity s) →
  (Z.of_nat (List.length xs) = StackList.capacity s →
   StackList.Push s v h = Ret ((s, Some "Stack Overflow!!!"%string), h)) ∧
  (xs = [] →
   StackList.Pop s h
     = Ret ((s, (zero, Some "Stack Underflow!!!"%string)), h)).
Proof.
  intros Hs Hint. split.
  - by apply Push_overflow_list.
  - intros ->. by apply Pop_underflow_list.
Qed.

(** X14. The two backings are interchangeable: on every sequence of [Push]
    and [Pop] calls, a new array stack and a new list stack of capacity
    [StackMaxSize] return the same values and the same errors, and end
    with the same [top], which stays in [-1, StackMaxSize). *)
Theorem backings_agree (ops : list (stack_op T)) (cap : list Z)
    (h : list (StackList.node T)) :
  StackList.capacity (StackList.NewList cap) = StackArray.StackMaxSize →
  ∃ sa sl h' rs,
    StackArray.run ops StackArray.NewArray = Ret (sa, rs) ∧
    StackList.run ops (StackList.NewList cap) h = Ret ((sl, rs), h') ∧
    StackArray.Top sa = StackList.top sl ∧
    -1 <= StackArray.Top sa < StackArray.StackMaxSize ∧
    StackArray.IsEmpty sa = StackList.IsEmpty sl.
Proof.
  intros Hcap.
  destruct (run_agree ops StackArray.NewArray (StackList.NewList cap) h [])
    as (sa & sl & h' & rs & xs & Hra & Hrl & Ha & Hl & Hlen).
  - apply holds_NewArray.
  - apply holds_NewList.
  - done.
  - cbn. unfold StackArray.StackMaxSize. lia.
  - exists sa, sl, h', rs. split; [done|]. split; [done|].
    destruct Ha as (Hta & _), Hl as (_ & Htl).
    unfold StackArray.Top, StackArray.IsEmpty, StackList.IsEmpty.
    rewrite Hta, Htl. split; [done|]. split; [lia|done].
Qed.

(** X16. A list stack made with a negative capacity never overflows: every
    push succeeds, whatever the number of values. *)
Theorem negative_capacity_unbounded (c : Z) (vs : list T)
    (h : list (StackList.node T)) :
  is_int c → c < 0 → Z.of_nat (List.length vs) < int_max →
  ∃ s' h',
    StackList.push_all (StackList.NewList [c]) vs h
      = Ret ((s', replicate (List.length vs) None), h') ∧
    StackList.holds h' s' vs ∧
    StackList.top s' = Z.of_nat (List.length vs) - 1.
Proof.
  intros Hint Hneg Hsmall.
  destruct (push_all_negative vs (StackList.NewList [c]) [] h)
    as (s' & h' & Hrun & Hs'); [apply holds_NewList|done|done|done|].
  exists s', h'. split; [done|]. split; [done|]. by destruct Hs' as [_ ->].
Qed.
End Facts.

Lemma Print_ok_witness :
  StackArray.holds StackArray.sample_stack [1; 2] ∧
  Z.of_nat (List.length [1; 2]) <= StackArray.StackMaxSize ∧
  StackArray.Print StackArray.sample_stack [] = Ret ([] ++ reverse [1; 2]).
Proof.
  assert (StackArray.holds StackArray.sample_stack [1; 2]) as Hs.
  { split; [reflexivity|]. split; reflexivity. }
  assert (Z.of_nat (List.length [1; 2]) <= StackArray.StackMaxSize) as Hlen
    by discriminate.
  split; [exact Hs|]. split; [exact Hlen|].
  apply (Print_ok (T := Z) StackArray.sample_stack [1; 2] [] Hs Hlen).
Defined.

Lemma stackArray_overflow_underflow_witness :
  StackArray.holds (StackArray.NewArray (T := Z)) [] ∧
  StackArray.Pop (StackArray.NewArray (T := Z))
    = Ret (StackArray.NewArray, (0, Some "Stack Underflow!!!"%string)).
Proof.
  split; [exact holds_NewArray|].
  apply (stackArray_overflow_underflow (H := Numeric_int)
           StackArray.NewArray [] 1 holds_NewArray).
  reflexivity.
Defined.

Lemma stackList_overflow_underflow_witness :
  StackList.holds [] (StackList.NewList [0]) ([] : list Z) ∧
  is_int (StackList.capacity (StackList.NewList [0])) ∧
  StackList.Push (StackList.NewList [0]) 5 []
    = Ret ((StackList.NewList [0], Some "Stack Overflow!!!"%string), []).
Proof.
  assert (is_int (StackList.capacity (StackList.NewList [0]))) as Hint.
  { split; discriminate. }
  split; [exact (holds_NewList [0] [])|]. split; [exact Hint|].
  apply (stackList_overflow_underflow (H := Numeric_int)
           (StackList.NewList [0]) [] 5 [] (holds_NewList [0] []) Hint).
  reflexivity.
Defined.

Lemma backings_agree_witness :
  StackList.capacity (StackList.NewList []) = StackArray.StackMaxSize ∧
  ∃ sa sl h' rs,
    StackArray.run [StackPop; StackPush 1; StackPush 2; StackPop]
      StackArray.NewArray = Ret (sa, rs) ∧
    StackList.run [StackPop; StackPush 1; StackPush 2; StackPop]
      (StackList.NewList []) [] = Ret ((sl, rs), h') ∧
    StackArray.Top sa = StackList.top sl ∧
    -1 <= StackArray.Top sa < StackArray.StackMaxSize ∧
    StackArray.IsEmpty sa = StackList.IsEmpty sl.
Proof.
  split; [reflexivity|].
  apply (backings_agree (H := Numeric_int) _ [] []). reflexivity.
Defined.

Lemma negative_capacity_unbounded_witness :
  is_int (-5) ∧ -5 < 0 ∧ Z.of_nat (List.length [1; 2; 3]) < int_max ∧
  ∃ s' h',
    StackList.push_all (StackList.NewList [-5]) [1; 2; 3] []
      = Ret ((s', [None; None; None]), h') ∧
    StackList.holds h' s' [1; 2; 3] ∧
    StackList.top s' = 2.
Proof.
  assert (is_int (-5)) as Hint by (split; discriminate).
  split; [exact Hint|]. split; [reflexivity|]. split; [reflexivity|].
  apply (negative_capacity_unbounded (H := Numeric_int) (-5) [1; 2; 3] []
           Hint); reflexivity.
Defined.
End StackOps.

(** * Further properties of [SinglyLinkedList] *)

Module SLLOps.
Import SLL SLLFacts.
Section Facts.
Context {T : Type} `{Numeric T}.
Implicit Types (h : list (unidirectionalNode T)) (l : SinglyLinkedList).
Implicit Types (cells : list (loc * T)) (p q : ptr).

Lemma search_loop_none h (element : T) cells : ∀ p (fuel : nat),
  lseg h p None cells →
  Forall (λ c, num_eqb c.2 element = false) cells →
  (List.length cells < fuel)%nat →
  search_loop fuel element p h = Ret ((false, None), h).
Proof.
  induction cells as [|[a v] cells IH]; intros p fuel Hs Hno Hfuel;
    (destruct fuel as [|fuel]; [lia|]); cbn in Hs |- *.
  - by subst p.
  - destruct Hs as (-> & nx & Ha & Hs). unfold bind, load. rewrite Ha. cbn.
    apply Forall_cons in Hno as [Hv Hno]. cbn in Hv. rewrite Hv.
    apply IH; [done|done|]. cbn in Hfuel. lia.
Qed.

Lemma search_loop_first h (element : T) pre : ∀ p (a : loc) (v : T) post
    (fuel : nat),
  lseg h p None (pre ++ (a, v) :: post) →
  Forall (λ c, num_eqb c.2 element = false) pre →
  num_eqb v element = true →
  (List.length pre < fuel)%nat →
  search_loop fuel element p h = Ret ((true, Some a), h).
Proof.
  induction pre as [|[b w] pre IH]; intros p a v post fuel Hs Hno Hv Hfuel;
    (destruct fuel as [|fuel]; [lia|]); cbn in Hs |- *.
  - destruct Hs as (-> & nx & Ha & Hs). unfold bind, load. rewrite Ha. cbn.
    by rewrite Hv.
  - destruct Hs as (-> & nx & Hb & Hs). unfold bind, load. rewrite Hb. cbn.
    apply Forall_cons in Hno as [Hw Hno]. cbn in Hw. rewrite Hw.
    eapply IH; [done|done|done|]. cbn in Hfuel. lia.
Qed.

(** X17. [InsertAtBeginning] always succeeds: one node holding the value
    is allocated, it becomes the head, the former nodes follow it
    unchanged, and [length] grows by one. *)
Theorem InsertAtBeginning_spec h l cells (v : T) :
  repr h l cells → Z.of_nat (List.length cells) < int_max →
  ∃ l',
    InsertAtBeginning l v h
      = Ret ((l', None), h ++ [{| Next := head l; Val := v |}]) ∧
    head l' = Some (List.length h) ∧
    repr (h ++ [{| Next := head l; Val := v |}]) l'
         ((List.length h, v) :: cells) ∧
    length l' = length l + 1.
Proof.
  intros Hr Hsmall.
  destruct (InsertAtBeginning_repr h l cells v Hr Hsmall)
    as (l' & h' & Hrun & Hr' & Hl).
  pose proof Hrun as Hrun'.
  unfold InsertAtBeginning, bind, alloc, ret in Hrun'.
  injection Hrun' as <- <-.
  eexists. split; [exact Hrun|]. split; [done|]. split; [done|done].
Qed.

(** X18. [DeleteFromBeginning] on the empty list returns the zero value
    with "Cannot delete from an empty list!" and changes nothing;
    otherwise it returns the value of the first node and the list is the
    rest of the chain.  No node is written. *)
Theorem DeleteFromBeginning_spec h l cells :
  repr h l cells → Z.of_nat (List.length cells) <= int_max →
  (cells = [] →
   DeleteFromBeginning l h
     = Ret ((l, (zero, Some "Cannot delete from an empty list!"%string)), h)) ∧
  (∀ a v rest, cells = (a, v) :: rest →
   ∃ l', DeleteFromBeginning l h = Ret ((l', (v, None)), h) ∧
         repr h l' rest ∧ length l' = length l - 1).
Proof.
  intros Hr Hsmall. split.
  - intros ->. apply DeleteFromBeginning_empty. by destruct Hr as [_ ->].
  - intros a v rest ->.
    destruct (DeleteFromBeginning_repr h l rest a v Hr) as (l' & Hrun & Hr').
    { cbn in Hsmall. lia. }
    exists l'. split; [done|]. split; [done|].
    destruct Hr as [_ ->], Hr' as [_ ->]. cbn. lia.
Qed.

(** X19. [DeleteFromEnd] on the empty list returns the zero value with
    "Cannot delete from an empty list!" and changes nothing; otherwise it
    returns the value of the last node and the list is the chain without
    that node. *)
Theorem DeleteFromEnd_spec (fuel : nat) h l cells :
  repr h l cells → (List.length cells <= S fuel)%nat →
  Z.of_nat (List.length cells) <= int_max →
  (cells = [] →
   DeleteFromEnd fuel l h
     = Ret ((l, (zero, Some "Cannot delete from an empty list!"%string)), h)) ∧
  (∀ pre b vb, cells = pre ++ [(b, vb)] →
   ∃ l' h', DeleteFromEnd fuel l h = Ret ((l', (vb, None)), h') ∧
            repr h' l' pre ∧ length l' = length l - 1).
Proof.
  intros Hr Hfuel Hsmall. split.
  - intros ->. apply DeleteFromEnd_empty. by destruct Hr as [_ ->].
  - intros pre b vb ->. rewrite length_app in Hfuel, Hsmall.
    cbn in Hfuel, Hsmall.
    destruct (DeleteFromEnd_repr fuel h l pre b vb Hr)
      as (l' & h' & Hrun & Hr'); [lia|lia|].
    exists l', h'. split; [done|]. split; [done|].
    destruct Hr as [_ ->], Hr' as [_ ->]. rewrite length_app. cbn. lia.
Qed.

(** X20. [DeleteAtPosition] returns "invalid position for deletion" and
    changes nothing exactly when [pos < 0] or [pos >= length]; otherwise
    it returns the value of the node at [pos], and the list is the chain
    without that node. *)
Theorem DeleteAtPosition_spec (fuel : nat) h l cells (pos : Z) :
  repr h l cells → (List.length cells <= S fuel)%nat →
  Z.of_nat (List.length cells) <= int_max →
  (pos < 0 ∨ pos >= length l →
   DeleteAtPosition fuel l pos h
     = Ret ((l, (zero, Some "invalid position for deletion"%string)), h)) ∧
  (0 <= pos < length l →
   ∃ (b : loc) (vb : T) l' h',
     cells !! Z.to_nat pos = Some (b, vb) ∧
     DeleteAtPosition fuel l pos h = Ret ((l', (vb, None)), h') ∧
     repr h' l' (delete (Z.to_nat pos) cells) ∧
     length l' = length l - 1).
Proof.
  intros Hr Hfuel Hsmall. split.
  - apply DeleteAtPosition_out_of_bounds.
  - intros Hpos.
    destruct (DeleteAtPosition_repr fuel h l cells pos Hr Hfuel Hsmall Hpos)
      as (b & vb & l' & h' & Hcell & Hrun & Hr').
    exists b, vb, l', h'. split; [done|]. split; [done|]. split; [done|].
    destruct Hr as [_ Hl], Hr' as [_ ->].
    rewrite length_delete by eauto. lia.
Qed.

(** X21. [Traverse] applies the visitor to the values of the list from
    head to tail, once each, and writes no node. *)
Theorem Traverse_visits_in_order {A : Type} (fuel : nat) h l cells
    (operation : T → A → A) (acc : A) :
  repr h l cells → (List.length cells < fuel)%nat →
  Traverse fuel l operation acc h
    = Ret (foldl (λ acc v, operation v acc) acc cells.*2, h).
Proof.
  intros [Hs _] Hfuel. unfold Traverse. by apply traverse_loop_lseg.
Qed.

(** X22. [Search] returns [false] and [nil] when no node holds a value that
    compares equal to the element, and otherwise [true] with the first node
    that does; it writes no node. *)
Theorem Search_first_match (fuel : nat) h l cells (element : T) :
  repr h l cells → (List.length cells < fuel)%nat →
  (Forall (λ c, num_eqb c.2 element = false) cells →
   Search fuel l element h = Ret ((false, None), h)) ∧
  (∀ pre a v post,
     cells = pre ++ (a, v) :: post →
     Forall (λ c, num_eqb c.2 element = false) pre →
     num_eqb v element = true →
     Search fuel l element h = Ret ((true, Some a), h) ∧
     ∃ nx, h !! a = Some {| Next := nx; Val := v |}).
Proof.
  intros [Hs _] Hfuel. split.
  - intros Hno. unfold Search. by apply (search_loop_none h element cells).
  - intros pre a v post -> Hno Hv. split.
    + unfold Search. eapply search_loop_first; [done|done|done|].
      rewrite length_app in Hfuel. cbn in Hfuel. lia.
    + apply lseg_app in Hs as (m & _ & Hs2). cbn in Hs2.
      destruct Hs2 as (-> & nx & Ha & Hs2). by exists nx.
Qed.

(** X23. [InsertAtBeginning] followed by [DeleteFromBeginning] returns the
    inserted value and gives back the list: the same nodes, the same
    [length]. *)
Theorem insert_front_then_delete_front h l cells (v : T) :
  repr h l cells → Z.of_nat (List.length cells) < int_max →
  ∃ l1 h1 l2,
    InsertAtBeginning l v h = Ret ((l1, None), h1) ∧
    DeleteFromBeginning l1 h1 = Ret ((l2, (v, None)), h1) ∧
    repr h1 l2 cells ∧ l2 = l.
Proof.
  intros Hr Hsmall.
  destruct (InsertAtBeginning_repr h l cells v Hr Hsmall)
    as (l1 & h1 & Hins & Hr1 & Hl1).
  destruct (DeleteFromBeginning_repr h1 l1 cells _ v Hr1 Hsmall)
    as (l2 & Hdel & Hr2).
  exists l1, h1, l2. split; [done|]. split; [done|]. split; [done|].
  unfold InsertAtBeginning, bind, alloc, ret in Hins.
  injection Hins as <- <-.
  unfold DeleteFromBeginning, bind, load, ret in Hdel. cbn in Hdel.
  destruct Hr as [_ Hlen].
  rewrite int_add_small in Hdel
    by (unfold is_int, int_min, int_max in *; lia).
  replace (length l + 1 =? 0) with false in Hdel by lia.
  rewrite heap_lookup_new in Hdel. cbn in Hdel.
  rewrite int_sub_small in Hdel
    by (unfold is_int, int_min, int_max in *; lia).
  rewrite heap_lookup_new in Hdel. cbn in Hdel.
  injection Hdel as <-. destruct l as [hd len]. cbn. f_equal. lia.
Qed.

(** X24. [InsertAtPosition] at a position in range other than
    [length - 1] (or at 0), followed by [DeleteAtPosition] at the same
    position, returns the inserted value and gives back the nodes of the
    list. *)
Theorem insert_at_then_delete_at (fuel : nat) h l cells (v : T) (pos : Z) :
  repr h l cells → (List.length cells <= fuel)%nat →
  Z.of_nat (List.length cells) < int_max →
  0 <= pos <= length l → pos = 0 ∨ pos ≠ length l - 1 →
  ∃ l1 h1 l2 h2,
    InsertAtPosition fuel l v pos h = Ret ((l1, None), h1) ∧
    DeleteAtPosition fuel l1 pos h1 = Ret ((l2, (v, None)), h2) ∧
    repr h2 l2 cells.
Proof.
  intros Hr Hfuel Hsmall Hpos Hcase. pose proof Hr as [_ Hlen].
  assert (∃ l1 h1,
    InsertAtPosition fuel l v pos h = Ret ((l1, None), h1) ∧
    repr h1 l1 (take (Z.to_nat pos) cells
                  ++ (List.length h, v) :: drop (Z.to_nat pos) cells))
    as (l1 & h1 & Hins & Hr1).
  { destruct (Z.eq_dec pos 0) as [->|Hn0].
    - rewrite InsertAtPosition_front by lia.
      destruct (InsertAtBeginning_repr h l cells v Hr Hsmall)
        as (l1 & h1 & Hrun & Hr1 & _).
      by exists l1, h1.
    - destruct (InsertAtPosition_middle fuel h l cells v pos Hr Hsmall)
        as (l1 & h1 & Hrun & Hr1 & _); [lia|by destruct Hcase|].
      by exists l1, h1. }
  assert (List.length (take (Z.to_nat pos) cells) = Z.to_nat pos) as Hlt.
  { rewrite length_take. lia. }
  destruct (DeleteAtPosition_repr fuel h1 l1 _ pos Hr1)
    as (b & vb & l2 & h2 & Hcell & Hdel & Hr2).
  { rewrite length_app. cbn. rewrite length_take, length_drop. lia. }
  { rewrite length_app. cbn. rewrite length_take, length_drop. lia. }
  { destruct Hr1 as [_ ->]. rewrite length_app. cbn.
    rewrite length_take, length_drop. lia. }
  rewrite lookup_app_r, Hlt, Nat.sub_diag in Hcell by lia.
  cbn in Hcell. injection Hcell as <- <-.
  exists l1, h1, l2, h2. split; [done|]. split; [done|].
  rewrite delete_take_drop in Hr2.
  rewrite take_app_length' in Hr2 by done.
  rewrite drop_app_ge, Hlt in Hr2 by lia.
  replace (S (Z.to_nat pos) - Z.to_nat pos)%nat with 1%nat in Hr2 by lia.
  cbn [drop] in Hr2. rewrite drop_0, take_drop in Hr2. done.
Qed.

(** X25. At [pos == length - 1], [pos != 0], the pair does not cancel:
    [InsertAtPosition] appends the value at the end, so [DeleteAtPosition]
    at [pos] then returns the value of the former last node, and the
    inserted value stays as the last of the list. *)
Theorem insert_before_last_then_delete (fuel : nat) h l pre (b : loc)
    (vb v : T) :
  repr h l (pre ++ [(b, vb)]) → pre ≠ [] →
  (S (List.length pre) <= fuel)%nat →
  Z.of_nat (S (List.length pre)) < int_max →
  ∃ l1 h1 l2 h2,
    InsertAtPosition fuel l v (length l - 1) h = Ret ((l1, None), h1) ∧
    DeleteAtPosition fuel l1 (length l - 1) h1
      = Ret ((l2, (vb, None)), h2) ∧
    repr h2 l2 (pre ++ [(List.length h, v)]).
Proof.
  intros Hr Hne Hfuel Hsmall. pose proof Hr as [_ Hlen].
  rewrite length_app in Hlen. cbn in Hlen.
  assert (0 < List.length pre)%nat as Hpre.
  { destruct pre; [done|cbn; lia]. }
  assert (is_int (length l)) as Hint.
  { unfold is_int, int_min, int_max in *. lia. }
  rewrite InsertAtPosition_before_last by (done || lia).
  destruct (InsertAtEnd_repr fuel h l _ v Hr) as (l1 & h1 & Hins & Hr1 & Hl1).
  { by destruct pre. }
  { rewrite length_app. cbn. lia. }
  { rewrite length_app. cbn. lia. }
  destruct (DeleteAtPosition_repr fuel h1 l1 _ (length l - 1) Hr1)
    as (b' & vb' & l2 & h2 & Hcell & Hdel & Hr2).
  { rewrite !length_app. cbn. lia. }
  { rewrite !length_app. cbn. lia. }
  { lia. }
  replace (Z.to_nat (length l - 1)) with (List.length pre) in * by lia.
  rewrite <- app_assoc in Hcell, Hr2.
  rewrite lookup_app_r, Nat.sub_diag in Hcell by lia.
  cbn in Hcell. injection Hcell as <- <-.
  exists l1, h1, l2, h2. split; [done|]. split; [done|].
  rewrite delete_take_drop, take_app_length in Hr2.
  rewrite drop_app_ge in Hr2 by lia.
  replace (S (List.length pre) - List.length pre)%nat with 1%nat in Hr2 by lia.
  done.
Qed.
End Facts.

Lemma cells3_small : Z.of_nat (List.length cells3) < int_max.
Proof. reflexivity. Qed.

Lemma cells3_int : Z.of_nat (List.length cells3) <= int_max.
Proof. discriminate. Qed.

Lemma InsertAtBeginning_spec_witness :
  repr h3 l3 cells3 ∧ Z.of_nat (List.length cells3) < int_max ∧
  ∃ l',
    InsertAtBeginning l3 4 h3
      = Ret ((l', None), h3 ++ [{| Next := head l3; Val := 4 |}]) ∧
    head l' = Some (List.length h3) ∧
    repr (h3 ++ [{| Next := head l3; Val := 4 |}]) l'
         ((List.length h3, 4) :: cells3) ∧
    length l' = length l3 + 1.
Proof.
  split; [exact repr_l3|]. split; [exact cells3_small|].
  apply (InsertAtBeginning_spec (T := Z) h3 l3 cells3 4 repr_l3 cells3_small).
Defined.

Lemma DeleteFromBeginning_spec_witness :
  repr h3 l3 cells3 ∧ Z.of_nat (List.length cells3) <= int_max ∧
  ∃ l', DeleteFromBeginning l3 h3 = Ret ((l', (3, None)), h3) ∧
        repr h3 l' [(1%nat, 2); (0%nat, 1)] ∧ length l' = length l3 - 1.
Proof.
  split; [exact repr_l3|]. split; [exact cells3_int|].
  exact (proj2 (DeleteFromBeginning_spec (H := Numeric_int) h3 l3 cells3
                  repr_l3 cells3_int) 2%nat 3 _ eq_refl).
Defined.

Lemma DeleteFromEnd_spec_witness :
  repr h3 l3 cells3 ∧ (List.length cells3 <= 3)%nat ∧
  Z.of_nat (List.length cells3) <= int_max ∧
  ∃ l' h', DeleteFromEnd 2 l3 h3 = Ret ((l', (1, None)), h') ∧
           repr h' l' [(2%nat, 3); (1%nat, 2)] ∧ length l' = length l3 - 1.
Proof.
  assert (List.length cells3 <= 3)%nat as Hfuel by (cbn; lia).
  split; [exact repr_l3|]. split; [exact Hfuel|]. split; [exact cells3_int|].
  exact (proj2 (DeleteFromEnd_spec (H := Numeric_int) 2 h3 l3 cells3
                  repr_l3 Hfuel cells3_int)
           [(2%nat, 3); (1%nat, 2)] 0%nat 1 eq_refl).
Defined.

Lemma DeleteAtPosition_spec_witness :
  repr h3 l3 cells3 ∧ (List.length cells3 <= 3)%nat ∧
  Z.of_nat (List.length cells3) <= int_max ∧
  ∃ (b : loc) (vb : Z) l' h',
    cells3 !! 1%nat = Some (b, vb) ∧
    DeleteAtPosition 2 l3 1 h3 = Ret ((l', (vb, None)), h') ∧
    repr h' l' (delete 1%nat cells3) ∧
    length l' = length l3 - 1.
Proof.
  assert (List.length cells3 <= 3)%nat as Hfuel by (cbn; lia).
  split; [exact repr_l3|]. split; [exact Hfuel|]. split; [exact cells3_int|].
  apply (proj2 (DeleteAtPosition_spec (H := Numeric_int) 2 h3 l3 cells3 1
                  repr_l3 Hfuel cells3_int)).
  split; [discriminate|reflexivity].
Defined.

Lemma Traverse_visits_in_order_witness :
  repr h3 l3 cells3 ∧ (List.length cells3 < 4)%nat ∧
  Traverse 4 l3 (λ v acc, acc ++ [v]) [] h3
    = Ret (foldl (λ acc v, acc ++ [v]) [] cells3.*2, h3).
Proof.
  assert (List.length cells3 < 4)%nat as Hfuel by (cbn; lia).
  split; [exact repr_l3|]. split; [exact Hfuel|].
  apply (Traverse_visits_in_order (T := Z) 4 h3 l3 cells3 _ [] repr_l3 Hfuel).
Defined.

Lemma Search_first_match_witness :
  repr h3 l3 cells3 ∧ (List.length cells3 < 4)%nat ∧
  Search 4 l3 2 h3 = Ret ((true, Some 1%nat), h3) ∧
  ∃ nx, h3 !! 1%nat = Some {| Next := nx; Val := 2 |}.
Proof.
  assert (List.length cells3 < 4)%nat as Hfuel by (cbn; lia).
  split; [exact repr_l3|]. split; [exact Hfuel|].
  apply (proj2 (Search_first_match (H := Numeric_int) 4 h3 l3 cells3 2
                  repr_l3 Hfuel) [(2%nat, 3)] 1%nat 2 [(0%nat, 1)]).
  - reflexivity.
  - repeat constructor.
  - reflexivity.
Defined.

Lemma insert_front_then_delete_front_witness :
  repr h3 l3 cells3 ∧ Z.of_nat (List.length cells3) < int_max ∧
  ∃ l1 h1 l2,
    InsertAtBeginning l3 4 h3 = Ret ((l1, None), h1) ∧
    DeleteFromBeginning l1 h1 = Ret ((l2, (4, None)), h1) ∧
    repr h1 l2 cells3 ∧ l2 = l3.
Proof.
  split; [exact repr_l3|]. split; [exact cells3_small|].
  apply (insert_front_then_delete_front (H := Numeric_int) h3 l3 cells3 4
           repr_l3 cells3_small).
Defined.

Lemma insert_at_then_delete_at_witness :
  repr h3 l3 cells3 ∧ (List.length cells3 <= 3)%nat ∧
  Z.of_nat (List.length cells3) < int_max ∧
  0 <= 1 <= length l3 ∧ (1 = 0 ∨ 1 ≠ length l3 - 1) ∧
  ∃ l1 h1 l2 h2,
    InsertAtPosition 3 l3 4 1 h3 = Ret ((l1, None), h1) ∧
    DeleteAtPosition 3 l1 1 h1 = Ret ((l2, (4, None)), h2) ∧
    repr h2 l2 cells3.
Proof.
  assert (List.length cells3 <= 3)%nat as Hfuel by (cbn; lia).
  assert (0 <= 1 <= length l3) as Hpos by (split; discriminate).
  assert (1 = 0 ∨ 1 ≠ length l3 - 1) as Hcase by (right; discriminate).
  split; [exact repr_l3|]. split; [exact Hfuel|]. split; [exact cells3_small|].
  split; [exact Hpos|]. split; [exact Hcase|].
  apply (insert_at_then_delete_at (H := Numeric_int) 3 h3 l3 cells3 4 1
           repr_l3 Hfuel cells3_small Hpos Hcase).
Defined.

Lemma insert_before_last_then_delete_witness :
  repr h3 l3 ([(2%nat, 3); (1%nat, 2)] ++ [(0%nat, 1)]) ∧
  [(2%nat, 3); (1%nat, 2)] ≠ [] ∧ (3 <= 3)%nat ∧ Z.of_nat 3 < int_max ∧
  ∃ l1 h1 l2 h2,
    InsertAtPosition 3 l3 4 (length l3 - 1) h3 = Ret ((l1, None), h1) ∧
    DeleteAtPosition 3 l1 (length l3 - 1) h1 = Ret ((l2, (1, None)), h2) ∧
    repr h2 l2 ([(2%nat, 3); (1%nat, 2)] ++ [(List.length h3, 4)]).
Proof.
  assert ([(2%nat, 3); (1%nat, 2)] ≠ ([] : list (nat * Z))) as Hne
    by discriminate.
  assert (3 <= 3)%nat as Hfuel by lia.
  split; [exact repr_l3|]. split; [exact Hne|]. split; [exact Hfuel|].
  split; [reflexivity|].
  apply (insert_before_last_then_delete (H := Numeric_int) 3 h3 l3
           [(2%nat, 3); (1%nat, 2)] 0%nat 1 4 repr_l3 Hne Hfuel).
  reflexivity.
Defined.
End SLLOps.

(** * Further properties of [DoublyLinkedList] *)

Module DLLOps.
Import DLL DLLFacts.
Section Facts.
Context {T : Type} `{Numeric T}.
Implicit Types (h : list (bidirectionalNode T)) (l : DoublyLinkedList).

Lemma fchain_alloc h (p : ptr) (vs : list T) (n : bidirectionalNode T) :
  fchain h p vs → fchain (h ++ [n]) p vs.
Proof.
  revert p. induction vs as [|v vs IH]; intros p; cbn; [done|].
  intros (a & pv & nx & -> & Ha & Hc). exists a, pv, nx.
  split; [done|]. split; [by apply heap_lookup_old | by apply IH].
Qed.

Lemma insert_all_fchain (vals : list T) : ∀ h l (vs : list T),
  fchain h (head l) vs →
  ∃ l' h',
    insert_all l vals h = Ret (l', h') ∧
    fchain h' (head l') (reverse vals ++ vs).
Proof.
  induction vals as [|v vals IH]; intros h l vs Hc.
  - by exists l, h.
  - cbn [insert_all]. unfold bind. rewrite InsertAtBeginning_run.
    match goal with |- context [insert_all ?l1 vals ?h1] =>
      destruct (IH h1 l1 (v :: vs)) as (l' & h' & Hrun & Hc')
    end.
    + cbn. eexists _, _, _. split; [done|].
      split; [apply heap_lookup_new | by apply fchain_alloc].
    + exists l', h'. split; [exact Hrun|].
      by rewrite reverse_cons, <- app_assoc.
Qed.

Lemma traverse_loop_fchain {A : Type} h (operation : T → A → A)
    (vs : list T) :
  ∀ (p : ptr) (acc : A) out (fuel : nat),
  fchain h p vs → (List.length vs < fuel)%nat →
  ∃ out',
    traverse_loop fuel operation p acc out h
      = Ret ((foldl (λ acc v, operation v acc) acc vs, out'), h) ∧
    List.length out' = (List.length out + List.length vs)%nat.
Proof.
  induction vs as [|v vs IH]; intros p acc out fuel Hc Hfuel;
    (destruct fuel as [|fuel]; [lia|]); cbn in Hc |- *.
  - subst p. exists out. split; [done|lia].
  - destruct Hc as (a & pv & nx & -> & Ha & Hc).
    unfold bind, load. rewrite Ha. cbn.
    edestruct (IH nx (operation v acc)) as (out' & -> & Hlen);
      [done|cbn in Hfuel; lia|].
    exists out'. split; [done|]. rewrite Hlen, length_app. cbn. lia.
Qed.

(** X27. The forward chain of a doubly-linked list is right: after
    [InsertAtBeginning] of the values [vals] in turn, [Traverse] visits the
    inserted values newest first, then the values the list held before,
    and prints one line for each node. *)
Theorem Traverse_after_insertions {A : Type} (fuel : nat) h l
    (vs vals : list T) (operation : T → A → A) (acc : A)
    (out : list (bidirectionalNode T * ptr)) :
  fchain h (head l) vs →
  (List.length vals + List.length vs < fuel)%nat →
  ∃ l' h' out',
    insert_all l vals h = Ret (l', h') ∧
    Traverse fuel l' operation acc out h'
      = Ret ((foldl (λ acc v, operation v acc) acc (reverse vals ++ vs),
              out'), h') ∧
    List.length out'
      = (List.length out + List.length vals + List.length vs)%nat.
Proof.
  intros Hc Hfuel.
  destruct (insert_all_fchain vals h l vs Hc) as (l' & h' & Hrun & Hc').
  destruct (traverse_loop_fchain h' operation _ (head l') acc out fuel Hc')
    as (out' & Htr & Hlen).
  { rewrite length_app, length_reverse. lia. }
  exists l', h', out'. split; [done|]. split; [done|].
  rewrite Hlen, length_app, length_reverse. lia.
Qed.
End Facts.

Lemma insert_all_ends_witness :
  ends_tracked ([] : list (bidirectionalNode Z)) NewDLL ∧
  length NewDLL + Z.of_nat (List.length [1; 2; 3]) <= int_max ∧
  ∃ l' h',
    insert_all NewDLL [1; 2; 3] [] = Ret (l', h') ∧
    length l' = length NewDLL + Z.of_nat (List.length [1; 2; 3]) ∧
    ends_closed h' l' ∧
    (length l' = 1 → head l' = tail l') ∧
    (length l' = 0 → head l' = None ∧ tail l' = None).
Proof.
  assert (ends_tracked ([] : list (bidirectionalNode Z)) NewDLL) as Htr.
  { split; [discriminate|]. split; [done|]. split; [done|]. intros Hpos.
    exfalso. revert Hpos. discriminate. }
  assert (length NewDLL + Z.of_nat (List.length [1; 2; 3]) <= int_max)
    as Hsmall by discriminate.
  split; [exact Htr|]. split; [exact Hsmall|].
  apply (insert_all_ends (T := Z) [1; 2; 3] [] NewDLL Htr Hsmall).
Defined.

Lemma Traverse_after_insertions_witness :
  fchain ([] : list (bidirectionalNode Z)) (head NewDLL) [] ∧
  (List.length [1; 2; 3] + List.length ([] : list Z) < 4)%nat ∧
  ∃ l' h' out',
    insert_all NewDLL [1; 2; 3] [] = Ret (l', h') ∧
    Traverse 4 l' (λ v acc, acc ++ [v]) [] [] h'
      = Ret ((foldl (λ acc v, acc ++ [v]) [] (reverse [1; 2; 3] ++ []),
              out'), h') ∧
    List.length out' = (0 + 3 + 0)%nat.
Proof.
  assert (List.length [1; 2; 3] + List.length ([] : list Z) < 4)%nat
    as Hfuel by (cbn; lia).
  split; [reflexivity|]. split; [exact Hfuel|].
  apply (Traverse_after_insertions (T := Z) 4 [] NewDLL [] [1; 2; 3]
           (λ v acc, acc ++ [v]) [] [] eq_refl Hfuel).
Defined.
End DLLOps.

(** * Properties of package [random] *)

Module RandomFacts.
Import Random.

Lemma wrap_high (z : Z) : 2 ^ 63 <= z < 2 ^ 64 → wrap z = z - 2 ^ 64.
Proof.
  intros Hz. unfold wrap.
  replace (z + 2 ^ 63) with (z - 2 ^ 63 + 1 * 2 ^ 64) by lia.
  rewrite Z_mod_plus_full, Z.mod_small; lia.
Qed.

Lemma largest_draw_contract : Intn_contract largest_draw.
Proof.
  intros n. unfold largest_draw. split; intros Hn.
  - replace (n <=? 0) with false by lia. exists (n - 1). split; [done|lia].
  - replace (n <=? 0) with true by lia. by eexists.
Qed.

(** The arguments in order: [RandInt] works on the smaller and the larger
    of its arguments. *)
Lemma RandInt_ordered (Intn : Z → outcome Z) (a b : Z) :
  RandInt Intn a b =
    if Z.min a b =? Z.max a b then Ret (Z.min a b)
    else do r <- Intn (int_add (int_sub (Z.max a b) (Z.min a b)) 1);
         Ret (int_add r (Z.min a b)).
Proof.
  unfold RandInt. destruct (Z.gtb_spec a b) as [Hgt|Hle].
  - by rewrite Z.min_r, Z.max_l by lia.
  - by rewrite Z.min_l, Z.max_r by lia.
Qed.

(** X28. [RandInt] returns a number between the smaller and the larger of
    its arguments, both included, whenever their distance is below the
    largest [int]: equal arguments are returned without a draw, and
    otherwise the result is the smaller argument plus a draw from
    [0, distance], so that the larger argument is a possible result. *)
Theorem RandInt_in_range (Intn : Z → outcome Z) (a b : Z) :
  Intn_contract Intn → is_int a → is_int b →
  Z.max a b - Z.min a b < int_max →
  (a = b → RandInt Intn a b = Ret a) ∧
  (a ≠ b →
   ∃ k, Intn (Z.max a b - Z.min a b + 1) = Ret k ∧
        0 <= k <= Z.max a b - Z.min a b ∧
        RandInt Intn a b = Ret (Z.min a b + k)) ∧
  ∃ r, RandInt Intn a b = Ret r ∧ Z.min a b <= r <= Z.max a b.
Proof.
  intros HI Ha Hb Hdist. rewrite RandInt_ordered.
  assert (0 <= Z.max a b - Z.min a b) as Hnn by lia.
  assert (a = b → (Z.min a b =? Z.max a b) = true) as Heq by lia.
  assert (a ≠ b →
    ∃ k, Intn (Z.max a b - Z.min a b + 1) = Ret k ∧
         0 <= k <= Z.max a b - Z.min a b ∧
         (if Z.min a b =? Z.max a b then Ret (Z.min a b)
          else do r <- Intn (int_add (int_sub (Z.max a b) (Z.min a b)) 1);
               Ret (int_add r (Z.min a b))) = Ret (Z.min a b + k)) as Hne.
  { intros Hab. replace (Z.min a b =? Z.max a b) with false by lia.
    rewrite int_sub_small, int_add_small
      by (unfold is_int, int_min, int_max in *; lia).
    destruct (HI (Z.max a b - Z.min a b + 1)) as [Hpos _].
    destruct Hpos as (k & Hk & Hrange); [lia|].
    exists k. split; [done|]. split; [lia|]. rewrite Hk. cbn.
    rewrite int_add_small by (unfold is_int, int_min, int_max in *; lia).
    f_equal. lia. }
  split; [|split].
  - intros Hab. rewrite (Heq Hab). f_equal. lia.
  - done.
  - destruct (Z.eq_dec a b) as [Hab|Hab].
    + rewrite (Heq Hab). exists (Z.min a b). split; [done|lia].
    + destruct (Hne Hab) as (k & _ & Hk & ->). eexists. split; [done|lia].
Qed.

(** X29. When the distance of the arguments is the largest [int] or more,
    [b-a+1] wraps to a number that is not positive and [RandInt] panics in
    [rand.Intn]. *)
Theorem RandInt_too_wide_panics (Intn : Z → outcome Z) (a b : Z) :
  Intn_contract Intn → is_int a → is_int b →
  int_max <= Z.max a b - Z.min a b →
  ∃ p, RandInt Intn a b = Panic p.
Proof.
  intros HI Ha Hb Hdist. rewrite RandInt_ordered.
  unfold is_int, int_min, int_max in *.
  replace (Z.min a b =? Z.max a b) with false by lia.
  assert (int_add (int_sub (Z.max a b) (Z.min a b)) 1 <= 0) as Hneg.
  { unfold int_add, int_sub.
    destruct (decide (Z.max a b - Z.min a b = 2 ^ 63 - 1)) as [->|Hne].
    - vm_compute. discriminate.
    - rewrite (wrap_high (Z.max a b - Z.min a b)) by lia.
      rewrite wrap_small by (unfold is_int, int_min, int_max; lia). lia. }
  destruct (HI (int_add (int_sub (Z.max a b) (Z.min a b)) 1)) as [_ Hpanic].
  destruct (Hpanic Hneg) as [p ->]. by exists p.
Qed.

Lemma RandInt_in_range_witness :
  Intn_contract largest_draw ∧ is_int 7 ∧ is_int 3 ∧
  Z.max 7 3 - Z.min 7 3 < int_max ∧
  ∃ r, RandInt largest_draw 7 3 = Ret r ∧ Z.min 7 3 <= r <= Z.max 7 3.
Proof.
  assert (is_int 7) as H7 by (split; discriminate).
  assert (is_int 3) as H3 by (split; discriminate).
  assert (Z.max 7 3 - Z.min 7 3 < int_max) as Hd by reflexivity.
  split; [exact largest_draw_contract|]. split; [exact H7|].
  split; [exact H3|]. split; [exact Hd|].
  apply (RandInt_in_range largest_draw 7 3 largest_draw_contract H7 H3 Hd).
Defined.

Lemma RandInt_too_wide_panics_witness :
  Intn_contract largest_draw ∧ is_int int_min ∧ is_int int_max ∧
  int_max <= Z.max int_min int_max - Z.min int_min int_max ∧
  ∃ p, RandInt largest_draw int_min int_max = Panic p.
Proof.
  assert (is_int int_min) as Hlo by (split; discriminate).
  assert (is_int int_max) as Hhi by (split; discriminate).
  assert (int_max <= Z.max int_min int_max - Z.min int_min int_max) as Hd
    by discriminate.
  split; [exact largest_draw_contract|]. split; [exact Hlo|].
  split; [exact Hhi|]. split; [exact Hd|].
  apply (RandInt_too_wide_panics largest_draw int_min int_max
           largest_draw_contract Hlo Hhi Hd).
Defined.

(** With the source that draws the largest number, [RandInt(3, 7)] is 7:
    the upper bound is returned. *)
Example RandInt_reaches_upper_bound : RandInt largest_draw 3 7 = Ret 7.
Proof. reflexivity. Qed.
End RandomFacts.
